(** * gen_dtrace_helper: the type-graph walker and declaration synthesizer

    A shallow embedding of [src/gen_dtrace_helper.py] (class [TypeDG]) and
    the properties of its indexer ([__init__]/[walk]), declarator
    synthesizer ([gen_decl]), dependency-ordered emitter ([track]) and
    driver ([explain]).

    Conventions of the embedding:
    - a Python value that is [None] or a [str] is an [option string]; a
      [bytes] value is a [string] too (its characters are the bytes), and a
      [str] is kept as its UTF-8 encoding, so that [decode] checks the bytes
      and returns them;
    - a Python exception is a value of [exn]; a function that may raise
      returns a [Result];
    - the dictionary [shown], which [track] mutates in place, is threaded
      explicitly, and is returned also when an exception is raised (the
      writes made before the exception stay in the caller's dictionary);
    - [print] appends one item to an output trace; [render] gives the text
      of each item;
    - the nesting of Python activations of [walk], [gen_decl] and [track] is
      counted by a [nat] (the frames the interpreter still grants); running
      out of them is Python's [RecursionError]. *)

From Stdlib Require Import ZArith String Ascii List Bool Lia.
From Stdlib Require Import DecimalString HexadecimalString.
From Stdlib Require HexadecimalPos HexadecimalZ.
From stdpp Require Import base option list gmap strings.

Local Open Scope Z_scope.
Local Open Scope string_scope.
Local Open Scope list_scope.

(** ** Debug-information entries *)

(** The entry kinds [die.tag] the program distinguishes; every other kind
    is [DW_TAG_other] with its textual name. *)
Inductive Tag : Type :=
| DW_TAG_array_type
| DW_TAG_enumeration_type
| DW_TAG_structure_type
| DW_TAG_class_type
| DW_TAG_typedef
| DW_TAG_union_type
| DW_TAG_subprogram
| DW_TAG_const_type
| DW_TAG_volatile_type
| DW_TAG_restrict_type
| DW_TAG_atomic_type
| DW_TAG_base_type
| DW_TAG_pointer_type
| DW_TAG_reference_type
| DW_TAG_rvalue_reference_type
| DW_TAG_subroutine_type
| DW_TAG_formal_parameter
| DW_TAG_subrange_type
| DW_TAG_member
| DW_TAG_enumerator
| DW_TAG_other (text : string).

Global Instance Tag_eq_dec : EqDecision Tag.
Proof. solve_decision. Defined.

(** The text of [die.tag], used in messages. *)
Definition tag_text (t : Tag) : string :=
  match t with
  | DW_TAG_array_type => "DW_TAG_array_type"
  | DW_TAG_enumeration_type => "DW_TAG_enumeration_type"
  | DW_TAG_structure_type => "DW_TAG_structure_type"
  | DW_TAG_class_type => "DW_TAG_class_type"
  | DW_TAG_typedef => "DW_TAG_typedef"
  | DW_TAG_union_type => "DW_TAG_union_type"
  | DW_TAG_subprogram => "DW_TAG_subprogram"
  | DW_TAG_const_type => "DW_TAG_const_type"
  | DW_TAG_volatile_type => "DW_TAG_volatile_type"
  | DW_TAG_restrict_type => "DW_TAG_restrict_type"
  | DW_TAG_atomic_type => "DW_TAG_atomic_type"
  | DW_TAG_base_type => "DW_TAG_base_type"
  | DW_TAG_pointer_type => "DW_TAG_pointer_type"
  | DW_TAG_reference_type => "DW_TAG_reference_type"
  | DW_TAG_rvalue_reference_type => "DW_TAG_rvalue_reference_type"
  | DW_TAG_subroutine_type => "DW_TAG_subroutine_type"
  | DW_TAG_formal_parameter => "DW_TAG_formal_parameter"
  | DW_TAG_subrange_type => "DW_TAG_subrange_type"
  | DW_TAG_member => "DW_TAG_member"
  | DW_TAG_enumerator => "DW_TAG_enumerator"
  | DW_TAG_other text => text
  end.

(** One entry: [die.offset], [die.tag], the attributes the program reads
    from [die.attributes] (absent attribute: [None]; the value is the
    [.value] of the attribute record; that of [DW_AT_name] is the [bytes]
    value before it is decoded) and [die.iter_children()]. *)
#[warnings="-register-all"]
Inductive DIE : Type := mkDIE {
  offset : Z;
  tag : Tag;
  DW_AT_name : option string;
  DW_AT_type : option Z;
  DW_AT_decl_file : option Z;
  DW_AT_decl_line : option Z;
  DW_AT_byte_size : option Z;
  DW_AT_declaration : bool;
  DW_AT_const_value : option Z;
  DW_AT_data_member_location : option Z;
  DW_AT_count : option Z;
  DW_AT_language : option Z;
  children : list DIE
}.

(** ** Exceptions *)

Inductive exn : Type :=
| ParseError (msg : string)
| TypeError
| KeyError
| NameError
| AttributeError
| RecursionError
| UnicodeDecodeError.

Inductive Result (A : Type) : Type :=
| Ok (a : A)
| Raise (e : exn).
Arguments Ok {A} a.
Arguments Raise {A} e.

Definition rbind {A B} (m : Result A) (k : A → Result B) : Result B :=
  match m with
  | Ok a => k a
  | Raise e => Raise e
  end.

Notation "'do' x <- m ; k" := (rbind m (λ x, k))
  (at level 10, x name, m at level 100, k at level 200,
   format "'[v' 'do'  x  <-  m ; '/' k ']'").

(** ** Python strings and formatting *)

(** Truthiness of a value that is [None] or a [str]. *)
Definition truthy (s : option string) : bool :=
  match s with
  | Some (String _ _) => true
  | _ => false
  end.

(** An operand of [+] on strings: [None] there is a [TypeError]. *)
Definition as_str (s : option string) : Result string :=
  match s with
  | Some t => Ok t
  | None => Raise TypeError
  end.

(** [f"{v}"] of a value that is [None] or a [str]. *)
Definition fmt (s : option string) : string := default "None" s.

(** [f"{z}"] and [f"{z:x}"] of an integer. *)
Definition dec (z : Z) : string :=
  DecimalString.NilZero.string_of_int (Z.to_int z).
Definition hex (z : Z) : string :=
  HexadecimalString.NilZero.string_of_int (Z.to_hex_int z).

(** [sep.join(l)]. *)
Fixpoint join (sep : string) (l : list string) : string :=
  match l with
  | [] => ""
  | [s] => s
  | s :: l' => s +:+ sep +:+ join sep l'
  end.

(** ** Decoding *)

(** A continuation byte, [0x80..0xBF]. *)
Definition continuation (b : nat) : bool := ((128 <=? b) && (b <=? 191))%nat.

(** Whether a sequence of bytes is well-formed UTF-8: one to four bytes per
    character, no overlong form, no surrogate, nothing above U+10FFFF. *)
Fixpoint well_formed (bytes : list nat) : bool :=
  match bytes with
  | [] => true
  | b0 :: r0 =>
      if (b0 <=? 127)%nat then well_formed r0
      else
        match r0 with
        | [] => false
        | b1 :: r1 =>
            if ((194 <=? b0) && (b0 <=? 223))%nat then
              continuation b1 && well_formed r1
            else
              match r1 with
              | [] => false
              | b2 :: r2 =>
                  if ((224 <=? b0) && (b0 <=? 239))%nat then
                    (if (b0 =? 224)%nat then (160 <=? b1) && (b1 <=? 191)
                     else if (b0 =? 237)%nat then (128 <=? b1) && (b1 <=? 159)
                     else continuation b1)%nat
                    && continuation b2 && well_formed r2
                  else
                    match r2 with
                    | [] => false
                    | b3 :: r3 =>
                        ((240 <=? b0) && (b0 <=? 244))%nat
                        && (if (b0 =? 240)%nat then (144 <=? b1) && (b1 <=? 191)
                            else if (b0 =? 244)%nat
                                 then (128 <=? b1) && (b1 <=? 143)
                                 else continuation b1)%nat
                        && continuation b2 && continuation b3
                        && well_formed r3
                    end
              end
        end
  end.

Fixpoint bytes_of (s : string) : list nat :=
  match s with
  | EmptyString => []
  | String c rest => nat_of_ascii c :: bytes_of rest
  end.

(** [value.decode(ENCODING)] with [ENCODING = 'utf-8'] and the default
    error handling. *)
Definition decode (value : string) : Result string :=
  if well_formed (bytes_of value) then Ok value else Raise UnicodeDecodeError.

(** ** Class constants *)

(** [LANGUAGES]: DW_LANG_C89, DW_LANG_C, DW_LANG_C99, DW_LANG_C11 (the
    codes of the DWARF standard; the last one is spelled 0x1d in the source). *)
Definition LANGUAGES : list Z := [2; 1; 12; 29].

(** [TAGS_for_types]: [None] is an absent key, [Some None] a key bound to
    [None]. *)
Definition TAGS_for_types (t : Tag) : option (option string) :=
  match t with
  | DW_TAG_array_type => Some None
  | DW_TAG_enumeration_type => Some (Some "enum")
  | DW_TAG_structure_type => Some (Some "struct")
  | DW_TAG_class_type => Some (Some "/*<class>*/struct")
  | DW_TAG_typedef => Some (Some "typedef")
  | DW_TAG_union_type => Some (Some "union")
  | DW_TAG_subprogram => Some None
  | _ => None
  end.

Definition TAGS_for_qualifiers (t : Tag) : option string :=
  match t with
  | DW_TAG_const_type => Some "const"
  | DW_TAG_volatile_type => Some "volatile"
  | DW_TAG_restrict_type => Some "restrict"
  | DW_TAG_atomic_type => Some "_Atomic"
  | _ => None
  end.

(** [d.get(k, None)] on a dictionary whose values may be [None]. *)
Definition get_or_None {A} (v : option (option A)) : option A :=
  match v with
  | Some x => x
  | None => None
  end.

(** [c] is outside the class [[A-Za-z0-9_ ]]. *)
Definition bad_char (c : ascii) : bool :=
  let n := nat_of_ascii c in
  negb (((65 <=? n) && (n <=? 90)) || ((97 <=? n) && (n <=? 122))
        || ((48 <=? n) && (n <=? 57)) || (n =? 95) || (n =? 32))%nat.

(** [badchars.match(name)] for the pattern [".*[^A-Za-z0-9_ ]"]: some
    prefix without a line feed is followed by a character outside the
    class. *)
Fixpoint badchars_match (name : string) : bool :=
  match name with
  | EmptyString => false
  | String c rest =>
      if bad_char c then true
      else if Ascii.eqb c "010"%char then false
      else badchars_match rest
  end.

Definition is_valid_name (name : string) : bool :=
  if badchars_match name then false else true.

(** Truthiness of an attribute record, as in [if loc_file:] and [if ctval:]:
    [die.attributes[...]] is a record of the debug-information library (a
    named tuple with the fields name, form, value, ...), not its [.value];
    a tuple with fields is truthy whatever the value is. *)
Definition attribute_truthy (value : Z) : bool := true.

(** ** The per-unit index *)

(** The fields of a [TypeDG] instance. [named_types] is an insertion-ordered
    dictionary from a name to a set of entries; the set is kept as the list
    of its elements. *)
Record TypeDG : Type := mkTypeDG {
  cu_offset : Z;
  filedesc : gmap Z string;
  offset_to_die : gmap Z DIE;
  named_types : list (string * list DIE)
}.

Section Unit.
Variable self : TypeDG.

Definition _get_type_die (die : DIE) : option DIE :=
  match DW_AT_type die with
  | Some value => offset_to_die self !! value
  | None => None
  end.

Definition src_location (die : DIE) : string :=
  let srcfile :=
    match DW_AT_decl_file die with
    | Some v =>
        if attribute_truthy v then
          let fileno := v - 1 in
          default ("_nowhere" +:+ dec fileno +:+ "_") (filedesc self !! fileno)
        else "_nowhere_"
    | None => "_nowhere_"
    end in
  let srcline :=
    match DW_AT_decl_line die with
    | Some v => if attribute_truthy v then ":" +:+ dec v else ""
    | None => ""
    end in
  srcfile +:+ srcline.

Definition _get_stem (die : DIE) : Result string :=
  match get_or_None (TAGS_for_types (tag die)) with
  | None => Raise (ParseError ("no stem is known for " +:+ tag_text (tag die)))
  | Some stem => Ok stem
  end.

Definition _get_die_name (die : DIE) (gensym : bool) : Result (option string) :=
  match DW_AT_name die with
  | Some value =>
      do name <- decode value;
      if is_valid_name name then Ok (Some name)
      else Raise (ParseError ("invalid C identifier '" +:+ name +:+ "'"))
  | None =>
      if gensym then
        do stem <- _get_stem die;
        Ok (Some ("anon_" +:+ stem +:+ "_" +:+ hex (cu_offset self)
                  +:+ "_" +:+ hex (offset die)))
      else Ok None
  end.
End Unit.

(** ** The declaration synthesizer: [gen_decl] *)

(** [gen_decl(die, shown, name)]. The parameter [shown] is only handed on to
    the recursive calls and never read or written, so it is left out.
    [gen_decl_body] is the body of the method over the recursive activation
    [gen_decl_rec]. *)
Section Synthesizer.
Variable self : TypeDG.

Section Body.
Variable gen_decl_rec : option DIE → option string → Result (option string).

(** The loop filling [fparams] from the formal-parameter children. *)
Fixpoint gen_fparams (cs : list DIE) : Result (list (option string)) :=
  match cs with
  | [] => Ok []
  | child :: cs' =>
      match tag child with
      | DW_TAG_formal_parameter =>
          do p <- gen_decl_rec (_get_type_die self child) None;
          do ps <- gen_fparams cs';
          Ok (p :: ps)
      | _ => gen_fparams cs'
      end
  end.

(** The loop over the subrange children that overwrites [count]. *)
Fixpoint array_count (cs : list DIE) (count : string) : string :=
  match cs with
  | [] => count
  | child :: cs' =>
      match tag child, DW_AT_count child with
      | DW_TAG_subrange_type, Some v =>
          array_count cs' ("[" +:+ dec v +:+ "]")
      | _, _ => array_count cs' count
      end
  end.

(** The items of [", ".join(fparams)] must all be strings. *)
Fixpoint all_str (l : list (option string)) : Result (list string) :=
  match l with
  | [] => Ok []
  | x :: l' =>
      do s <- as_str x;
      do ss <- all_str l';
      Ok (s :: ss)
  end.

Definition name_or_empty (name : option string) : string :=
  if truthy name then fmt name else "".

Definition gen_decl_body (die : option DIE) (name : option string)
  : Result (option string) :=
  match die with
  | None =>
      match name with
      | None => Ok (Some "void")
      | Some n => Ok (Some ("void " +:+ n))
      end
  | Some die =>
      match tag die with
      | DW_TAG_base_type =>
          if truthy name then
            do dn <- _get_die_name self die false;
            do a <- as_str dn;
            do n <- as_str name;
            Ok (Some (a +:+ " " +:+ n))
          else _get_die_name self die false
      | DW_TAG_pointer_type =>
          gen_decl_rec (_get_type_die self die)
                       (Some ("*" +:+ name_or_empty name))
      | DW_TAG_reference_type =>
          gen_decl_rec (_get_type_die self die)
                       (Some ("/*<&>*/" +:+ name_or_empty name))
      | DW_TAG_rvalue_reference_type =>
          gen_decl_rec (_get_type_die self die)
                       (Some ("/*<&&>*/" +:+ name_or_empty name))
      | DW_TAG_subroutine_type =>
          do fparams <- gen_fparams (children die);
          do fparams <- match fparams with
                        | [] => do v <- gen_decl_rec None None; Ok [v]
                        | _ => Ok fparams
                        end;
          do r <- gen_decl_rec (_get_type_die self die) None;
          do r <- as_str r;
          do n <- as_str name;
          do ps <- all_str fparams;
          Ok (Some (r +:+ " (" +:+ n +:+ ")(" +:+ join ", " ps +:+ ")"))
      | DW_TAG_array_type =>
          let count := array_count (children die) "[]" in
          do e <- gen_decl_rec (_get_type_die self die) None;
          do e <- as_str e;
          do n <- as_str name;
          Ok (Some (e +:+ " " +:+ n +:+ count))
      | t =>
          match TAGS_for_qualifiers t with
          | Some q =>
              let prefix :=
                match t with
                | DW_TAG_restrict_type => ""
                | _ => q +:+ " "
                end in
              do d <- gen_decl_rec (_get_type_die self die) name;
              do d <- as_str d;
              Ok (Some (prefix +:+ d))
          | None =>
              match get_or_None (TAGS_for_types t) with
              | Some _ =>
                  do prefix <- match t with
                               | DW_TAG_typedef => Ok ""
                               | _ => do stem <- _get_stem die;
                                      Ok (stem +:+ " ")
                               end;
                  do dn <- _get_die_name self die true;
                  do dn <- as_str dn;
                  Ok (Some (prefix +:+ dn
                            +:+ (if truthy name then " " +:+ fmt name else "")))
              | None =>
                  Raise (ParseError ("cannot generate decl. for "
                                     +:+ tag_text t))
              end
          end
      end
  end.
End Body.

(** [gen_decl] with [limit] nested activations left. *)
Fixpoint gen_decl (limit : nat) (die : option DIE) (name : option string)
  : Result (option string) :=
  match limit with
  | O => Raise RecursionError
  | S limit' => gen_decl_body (gen_decl limit') die name
  end.
End Synthesizer.

(** ** Emission state and output *)

(** The values stored in [shown]: the strings ["declared"] and ["defined"]
    under an entry, and the entry that owns a tag name under that name. *)
Inductive mark : Type :=
| declared
| defined
| owner (off : Z).

Global Instance mark_eq_dec : EqDecision mark.
Proof. solve_decision. Defined.

(** The keys of [shown]: an entry (entries hash by identity; an entry is
    identified by its offset in the debug-information section) or the value
    of the local variable [tag], a string. *)
Abbreviation key := (Z + option string)%type.
Abbreviation shown_t := (gmap key mark).

Definition KDie (die : DIE) : key := inl (offset die).
Definition KTag (name : string) : key := inr (Some name).

(** What one call of [print] writes. [PAggregate] and [PEnum] also carry
    the value of the local variable [tag] of the branch that prints them;
    [render] does not use it. *)
Inductive printed : Type :=
| PSkippedEntry (t : Tag) (loc msg : string)
| PSkippedRoot (t : Tag) (name loc msg : string)
| PForward (decl : string)
| PLocation (loc : string)
| PTypedef (decl : string)
| PAggregate (tagname : option string) (decl : string) (size : Z)
| PMember (line : string)
| PDummy (size : Z)
| PClose
| PEnum (tagname : option string) (decl : string)
| PEnumerators (members : list string).

Definition LF : string := String "010"%char EmptyString.
Definition TAB : string := String "009"%char EmptyString.

Definition render (p : printed) : string :=
  match p with
  | PSkippedEntry t loc msg =>
      "/* skipped " +:+ tag_text t +:+ " at " +:+ loc +:+ ": " +:+ msg +:+ " */"
  | PSkippedRoot t name loc msg =>
      "/* skipped " +:+ tag_text t +:+ " '" +:+ name +:+ "'"
      +:+ " at " +:+ loc +:+ ": " +:+ msg +:+ " */"
  | PForward decl => decl +:+ ";"
  | PLocation loc => LF +:+ "/* @ " +:+ loc +:+ " */"
  | PTypedef decl => "typedef " +:+ decl +:+ ";"
  | PAggregate _ decl size => decl +:+ TAB +:+ "/* size=0x" +:+ hex size +:+ " */"
  | PMember line => line
  | PDummy size => TAB +:+ "char dummy[0x" +:+ hex size +:+ "];"
  | PClose => "};"
  | PEnum _ decl => decl +:+ " {"
  | PEnumerators members => join ("," +:+ LF) members
  end.

(** Computations that read and write [shown], print, and may raise. *)
Definition M (A : Type) : Type := shown_t → shown_t * list printed * Result A.

Definition ret {A} (a : A) : M A := λ s, (s, [], Ok a).

Definition bind {A B} (m : M A) (k : A → M B) : M B :=
  λ s, match m s with
       | (s1, o1, Ok a) =>
           match k a s1 with
           | (s2, o2, r) => (s2, o1 ++ o2, r)
           end
       | (s1, o1, Raise e) => (s1, o1, Raise e)
       end.

Notation "'run' x <- m ; k" := (bind m (λ x, k))
  (at level 10, x name, m at level 100, k at level 200,
   format "'[v' 'run'  x  <-  m ; '/' k ']'").
Notation "'exec' m ; k" := (bind m (λ _, k))
  (at level 10, m at level 100, k at level 200,
   format "'[v' 'exec'  m ; '/' k ']'").

Definition lift {A} (r : Result A) : M A := λ s, (s, [], r).
Definition raise {A} (e : exn) : M A := lift (Raise e).
Definition print (p : printed) : M unit := λ s, (s, [p], Ok tt).
Definition shown_get (k : key) : M (option mark) := λ s, (s, [], Ok (s !! k)).
Definition shown_has (k : key) : M bool :=
  λ s, (s, [], Ok (bool_decide (is_Some (s !! k)))).
Definition shown_set (k : key) (v : mark) : M unit :=
  λ s, (<[k := v]> s, [], Ok tt).

(** [try: m  except ...: h e]. *)
Definition try_except {A} (m : M A) (h : exn → M A) : M A :=
  λ s, match m s with
       | (s1, o1, Ok a) => (s1, o1, Ok a)
       | (s1, o1, Raise e) =>
           match h e s1 with
           | (s2, o2, r) => (s2, o1 ++ o2, r)
           end
       end.

(** [except ParseError as e: raise ParseError(prefix + str(e)) from e]:
    any other exception passes through. *)
Definition reraise {A} (prefix : string) (e : exn) : M A :=
  match e with
  | ParseError msg => raise (ParseError (prefix +:+ msg))
  | _ => raise e
  end.

(** [except: raise ParseError(... + str(e)) from e] in a scope where no
    name [e] is bound: evaluating [str(e)] raises [NameError], whatever was
    caught. *)
Definition reraise_unbound {A} (e : exn) : M A := raise NameError.

Fixpoint print_all (l : list printed) : M unit :=
  match l with
  | [] => ret tt
  | p :: l' => exec print p; print_all l'
  end.

(** ** The dependency-ordered emitter: [track] *)

Definition is_mark (v : mark) (is_known : option mark) : bool :=
  bool_decide (is_known = Some v).

Section Emitter.
Variable self : TypeDG.

(** The body of [track] over the recursive activation [track_rec] and the
    activation [gen_decl_call] of [gen_decl] made from this frame. *)
Section Body.
Variable track_rec : option DIE → Z → bool → M unit.
Variable gen_decl_call : option DIE → option string → Result (option string).

(** The loop over the formal parameters of a subprogram. *)
Fixpoint track_params (cs : list DIE) (depth : Z) : M unit :=
  match cs with
  | [] => ret tt
  | child :: cs' =>
      match tag child with
      | DW_TAG_formal_parameter =>
          exec try_except (track_rec (_get_type_die self child) depth false)
                          (reraise "formal-parameter -> ");
          track_params cs' depth
      | _ => track_params cs' depth
      end
  end.

(** [except ParseError as e: raise ParseError(f"failed to track a member
    {mtype.tag} {mname} " + str(e))]: reading [mtype.tag] of an absent
    [mtype] is an [AttributeError]. *)
Definition member_failed {A} (mtype : option DIE) (mname : option string)
                         (e : exn) : M A :=
  match e with
  | ParseError msg =>
      match mtype with
      | None => raise AttributeError
      | Some mt =>
          raise (ParseError ("failed to track a member "
                   +:+ tag_text (tag mt) +:+ " " +:+ fmt mname
                   +:+ " " +:+ msg))
      end
  | _ => raise e
  end.

(** One member of an aggregate: [None] when the loop skips it, the line
    appended to [members] otherwise. *)
Definition track_member (child : DIE) (depth : Z) : M (option string) :=
  match tag child with
  | DW_TAG_member =>
      let mtype := _get_type_die self child in
      match DW_AT_data_member_location child with
      | None => ret None
      | Some mloc =>
          run mname <- try_except (lift (_get_die_name self child false))
                                  (member_failed mtype (Some "??"));
          exec try_except (track_rec mtype depth false)
                          (member_failed mtype mname);
          run d <- lift (gen_decl_call mtype mname);
          ret (Some (TAB +:+ fmt d +:+ ";" +:+ TAB
                     +:+ "/* +0x" +:+ hex mloc +:+ " */"))
      end
  | _ => ret None
  end.

Fixpoint track_members (cs : list DIE) (depth : Z) : M (list string) :=
  match cs with
  | [] => ret []
  | child :: cs' =>
      run line <- track_member child depth;
      run lines <- track_members cs' depth;
      ret (match line with
           | Some l => l :: lines
           | None => lines
           end)
  end.

(** The loop over the enumerators of an enumeration. *)
Fixpoint enum_members (cs : list DIE) : Result (list string) :=
  match cs with
  | [] => Ok []
  | child :: cs' =>
      match tag child with
      | DW_TAG_enumerator =>
          do line <- match DW_AT_const_value child with
                     | None => Raise KeyError
                     | Some value =>
                         if attribute_truthy value
                         then do n <- _get_die_name self child false;
                              Ok (TAB +:+ fmt n +:+ " = " +:+ dec value)
                         else do n <- _get_die_name self child false;
                              Ok (TAB +:+ fmt n)
                     end;
          do lines <- enum_members cs';
          Ok (line :: lines)
      | _ => enum_members cs'
      end
  end.

(** The branch of structures, classes and unions. *)
Definition track_aggregate (die : DIE) (depth : Z) (maybe_incomplete : bool)
  : M (option bool) :=
  if maybe_incomplete then
    run d <- lift (gen_decl_call (Some die) None);
    run d <- lift (as_str d);
    exec print (PForward d);
    ret (Some true)
  else if DW_AT_declaration die then ret None
  else
    run tagname <- lift (_get_die_name self die true);
    run present <- shown_has (inr tagname);
    if present then ret None
    else
      exec shown_set (inr tagname) (owner (offset die));
      exec shown_set (KDie die) defined;
      run size <- lift (match DW_AT_byte_size die with
                        | Some v => Ok v
                        | None => Raise KeyError
                        end);
      run members <- track_members (children die) depth;
      exec print (PLocation (src_location self die));
      run d <- lift (gen_decl_call (Some die) None);
      run d <- lift (as_str d);
      exec print (PAggregate tagname d size);
      exec match members with
           | _ :: _ => print_all (map PMember members)
           | [] => if (0 <? size)%Z then print (PDummy size) else ret tt
           end;
      exec print PClose;
      ret (Some false).

(** The branch of enumerations. *)
Definition track_enumeration_type (die : DIE) : M (option bool) :=
  run tagname <- lift (_get_die_name self die true);
  run present <- shown_has (inr tagname);
  if present then ret None
  else
    exec shown_set (inr tagname) (owner (offset die));
    run members <- lift (enum_members (children die));
    run d <- lift (gen_decl_call (Some die) None);
    run d <- lift (as_str d);
    exec print (PEnum tagname d);
    exec print (PEnumerators members);
    exec print PClose;
    ret (Some false).

(** The kind-specific part of [track]: [None] when the method returns
    from inside the branch, [Some decl_only] when it reaches the final
    state write. *)
Definition track_kind (die : DIE) (depth : Z) (maybe_incomplete : bool)
  : M (option bool) :=
  match tag die with
  | DW_TAG_base_type => ret (Some false)
  | DW_TAG_subprogram | DW_TAG_subroutine_type =>
      exec track_rec (_get_type_die self die) depth false;
      exec track_params (children die) depth;
      ret (Some false)
  | DW_TAG_pointer_type =>
      exec try_except (track_rec (_get_type_die self die) depth true)
                      (reraise "pointer -> ");
      ret (Some false)
  | DW_TAG_const_type | DW_TAG_volatile_type
  | DW_TAG_restrict_type | DW_TAG_atomic_type =>
      exec track_rec (_get_type_die self die) depth false;
      ret (Some false)
  | DW_TAG_typedef =>
      let dep := _get_type_die self die in
      exec try_except (track_rec dep depth false) (reraise "typedef -> ");
      exec print (PLocation (src_location self die));
      run n <- lift (_get_die_name self die false);
      run d <- lift (gen_decl_call dep n);
      run d <- lift (as_str d);
      exec print (PTypedef d);
      ret (Some false)
  | DW_TAG_structure_type | DW_TAG_class_type | DW_TAG_union_type =>
      track_aggregate die depth maybe_incomplete
  | DW_TAG_array_type =>
      let elemtype := _get_type_die self die in
      exec track_rec elemtype depth false;
      ret (Some false)
  | DW_TAG_enumeration_type => track_enumeration_type die
  | DW_TAG_reference_type | DW_TAG_rvalue_reference_type =>
      let dep := _get_type_die self die in
      exec try_except (track_rec dep depth false) reraise_unbound;
      ret (Some false)
  | t => raise (ParseError ("incmpatible DIE: " +:+ tag_text t))
  end.

(** The final state write. *)
Definition track_final (die : DIE) (decl_only : bool) : M unit :=
  if decl_only then
    run now <- shown_get (KDie die);
    if is_mark defined now then ret tt
    else shown_set (KDie die) declared
  else shown_set (KDie die) defined.

Definition track_body (die : option DIE) (depth : Z) (maybe_incomplete : bool)
  : M unit :=
  let depth := depth + 1 in
  match die with
  | None => ret tt
  | Some die =>
      run is_known <- shown_get (KDie die);
      if is_mark defined is_known then ret tt
      else if is_mark declared is_known && maybe_incomplete then ret tt
      else
        run fall <- track_kind die depth maybe_incomplete;
        match fall with
        | None => ret tt
        | Some decl_only => track_final die decl_only
        end
  end.
End Body.

(** [track] with [limit] nested activations left; its calls of [gen_decl]
    run one activation deeper. *)
Fixpoint track (limit : nat) (die : option DIE) (depth : Z)
               (maybe_incomplete : bool) : M unit :=
  match limit with
  | O => raise RecursionError
  | S limit' =>
      track_body (track limit') (gen_decl self limit') die depth maybe_incomplete
  end.
End Emitter.

(** ** The driver: [explain] *)

Section Driver.
Variable self : TypeDG.

(** [except ParseError as e: print(...)]. *)
Definition report (die : DIE) (name : string) (e : exn) : M unit :=
  match e with
  | ParseError msg =>
      print (PSkippedRoot (tag die) name (src_location self die) msg)
  | _ => raise e
  end.

(** The inner loop [for die in dies]. *)
Fixpoint explain_dies (limit : nat) (name : string) (dies : list DIE) : M unit :=
  match dies with
  | [] => ret tt
  | die :: dies' =>
      exec try_except (track self limit (Some die) 0 false) (report die name);
      explain_dies limit name dies'
  end.

(** The outer loop [for name, dies in self.named_types.items()]. A filter
    is a function that gives the entries it yields, in the order it yields
    them, from the dictionary [shown] as it is when the name is reached; a
    callable that raises, or a generator whose yields depend on what [track]
    writes while the loop consumes it, has no counterpart here. *)
Fixpoint explain_names (limit : nat)
    (filter : option (string → list DIE → shown_t → list DIE))
    (items : list (string * list DIE)) : M unit :=
  match items with
  | [] => ret tt
  | (name, dies) :: items' =>
      exec (λ shown,
              let dies := match filter with
                          | Some f => f name dies shown
                          | None => dies
                          end in
              explain_dies limit name dies shown);
      explain_names limit filter items'
  end.

(** [explain(filter, shown)], with [limit] activations left for [track]. *)
Definition explain (limit : nat)
    (filter : option (string → list DIE → shown_t → list DIE))
    (shown : option shown_t) : shown_t * list printed * Result unit :=
  explain_names limit filter (named_types self) (default ∅ shown).
End Driver.

(** ** The indexer: [__init__] and [walk] *)

(** What the constructor receives: [CU.cu_offset], [CU.get_top_DIE()] and
    the line program that the caller looked up for the unit, [None] when
    the unit has none; of a line program only the names [le.name] of
    [line_program['file_entry']] are read, as the [bytes] they are. *)
Record CompileUnit : Type := mkCompileUnit {
  CU_cu_offset : Z;
  CU_top : DIE;
  CU_line_program : option (list string)
}.

(** The names of [line_program['file_entry']] of a unit that has a line
    program. *)
Definition CU_file_entry (CU : CompileUnit) : list string :=
  default [] (CU_line_program CU).

(** [le.name.decode(ENCODING)] for every [le], in order. *)
Fixpoint decode_all (values : list string) : Result (list string) :=
  match values with
  | [] => Ok []
  | value :: values' =>
      do name <- decode value;
      do names <- decode_all values';
      Ok (name :: names)
  end.

Abbreviation name_index := (list (string * list DIE)).

(** [names.setdefault(given_name, set()).add(die)]: a new name goes last;
    [walk] meets every entry once, so [die] is never in the set already. *)
Fixpoint names_add (names : name_index) (given_name : string) (die : DIE)
  : name_index :=
  match names with
  | [] => [(given_name, [die])]
  | (n, dies) :: names' =>
      if String.eqb n given_name then (n, dies ++ [die]) :: names'
      else (n, dies) :: names_add names' given_name die
  end.

(** The generator [walk]: the name index after the traversal, the pairs
    yielded, what was printed, and the exception that ended it, if any. *)
Abbreviation walked :=
  (name_index * list (Z * DIE) * list printed * option exn)%type.

Section Walk.
(** The instance while [__init__] runs: [cu_offset] and [filedesc] are set. *)
Variable self : TypeDG.

(** The body of [walk] over the nested activation [walk_rec] that
    [yield from walk(child, names, depth+1)] runs. *)
Section Body.
Variable walk_rec : DIE → name_index → walked.

(** The loop [for child in die.iter_children()]. *)
Fixpoint walk_children (cs : list DIE) (names : name_index) : walked :=
  match cs with
  | [] => (names, [], [], None)
  | child :: cs' =>
      match walk_rec child names with
      | (n1, y1, p1, None) =>
          match walk_children cs' n1 with
          | (n2, y2, p2, r) => (n2, y1 ++ y2, p1 ++ p2, r)
          end
      | failed => failed
      end
  end.

Definition walk_body (die : DIE) (names : name_index) : walked :=
  let descend (names : name_index) : walked :=
    match walk_children (children die) names with
    | (n, ys, ps, r) => (n, (offset die - cu_offset self, die) :: ys, ps, r)
    end in
  match TAGS_for_types (tag die) with
  | Some _ =>
      match _get_die_name self die false with
      | Raise (ParseError msg) =>
          (names, [], [PSkippedEntry (tag die) (src_location self die) msg], None)
      | Raise e => (names, [], [], Some e)
      | Ok given_name =>
          descend (if truthy given_name
                   then names_add names (fmt given_name) die
                   else names)
      end
  | None => descend names
  end.
End Body.

(** [walk] with [limit] nested activations left: the generators of a path
    from the root are all active while an entry of the path is visited. *)
Fixpoint walk (limit : nat) (die : DIE) (names : name_index) : walked :=
  match limit with
  | O => (names, [], [], Some RecursionError)
  | S limit' => walk_body (walk limit') die names
  end.
End Walk.

(** [dict(pairs)]: a later pair replaces an earlier one with the same key. *)
Definition dict_of_pairs (pairs : list (Z * DIE)) : gmap Z DIE :=
  foldl (λ m p, <[p.1 := p.2]> m) ∅ pairs.

(** [TypeDG(CU, line_program)] with [limit] activations left for [walk]:
    what is printed and the instance, or the exception that leaves the
    constructor. In the source the instance of a unit in another language
    has the attribute [named_types] only; here its other fields hold
    placeholders, which [explain] never reads, and what is proved of the
    other methods is proved of instances of units in a supported
    language. *)
Definition __init__ (limit : nat) (CU : CompileUnit)
  : list printed * Result TypeDG :=
  let top := CU_top CU in
  match DW_AT_language top with
  | None => ([], Raise KeyError)
  | Some language =>
      if negb (bool_decide (language ∈ LANGUAGES)) then
        ([], Ok (mkTypeDG 0 ∅ ∅ []))
      else
        match CU_line_program CU with
        | None => ([], Raise TypeError)
        | Some file_entry =>
            match decode_all file_entry with
            | Raise e => ([], Raise e)
            | Ok file_names =>
                let filedesc := map_seqZ 0 file_names in
                let self := mkTypeDG (CU_cu_offset CU) filedesc ∅ [] in
                match walk self limit top [] with
                | (named_types, pairs, out, None) =>
                    (out, Ok (mkTypeDG (CU_cu_offset CU) filedesc
                                       (dict_of_pairs pairs) named_types))
                | (_, _, out, Some e) => (out, Raise e)
                end
            end
        end
  end.

(** ** Building entries *)

(** An entry with the given offset, kind, name, type reference and children
    and no other attribute. *)
Definition entry (off : Z) (t : Tag) (name : option string) (type : option Z)
                 (cs : list DIE) : DIE :=
  mkDIE off t name type None None None false None None None None cs.

Definition with_byte_size (v : Z) (d : DIE) : DIE :=
  mkDIE (offset d) (tag d) (DW_AT_name d) (DW_AT_type d) (DW_AT_decl_file d)
        (DW_AT_decl_line d) (Some v) (DW_AT_declaration d) (DW_AT_const_value d)
        (DW_AT_data_member_location d) (DW_AT_count d) (DW_AT_language d)
        (children d).

Definition with_const_value (v : Z) (d : DIE) : DIE :=
  mkDIE (offset d) (tag d) (DW_AT_name d) (DW_AT_type d) (DW_AT_decl_file d)
        (DW_AT_decl_line d) (DW_AT_byte_size d) (DW_AT_declaration d) (Some v)
        (DW_AT_data_member_location d) (DW_AT_count d) (DW_AT_language d)
        (children d).

Definition with_data_member_location (v : Z) (d : DIE) : DIE :=
  mkDIE (offset d) (tag d) (DW_AT_name d) (DW_AT_type d) (DW_AT_decl_file d)
        (DW_AT_decl_line d) (DW_AT_byte_size d) (DW_AT_declaration d)
        (DW_AT_const_value d) (Some v) (DW_AT_count d) (DW_AT_language d)
        (children d).

Definition with_count (v : Z) (d : DIE) : DIE :=
  mkDIE (offset d) (tag d) (DW_AT_name d) (DW_AT_type d) (DW_AT_decl_file d)
        (DW_AT_decl_line d) (DW_AT_byte_size d) (DW_AT_declaration d)
        (DW_AT_const_value d) (DW_AT_data_member_location d) (Some v)
        (DW_AT_language d) (children d).

Definition with_language (v : Z) (d : DIE) : DIE :=
  mkDIE (offset d) (tag d) (DW_AT_name d) (DW_AT_type d) (DW_AT_decl_file d)
        (DW_AT_decl_line d) (DW_AT_byte_size d) (DW_AT_declaration d)
        (DW_AT_const_value d) (DW_AT_data_member_location d) (DW_AT_count d)
        (Some v) (children d).

Definition with_decl (file line : Z) (d : DIE) : DIE :=
  mkDIE (offset d) (tag d) (DW_AT_name d) (DW_AT_type d) (Some file)
        (Some line) (DW_AT_byte_size d) (DW_AT_declaration d)
        (DW_AT_const_value d) (DW_AT_data_member_location d) (DW_AT_count d)
        (DW_AT_language d) (children d).

(** ** Vocabulary of the statements *)

(** Two computations that agree on every dictionary. *)
Definition agree {A} (m1 m2 : M A) : Prop := ∀ s, m1 s = m2 s.

(** The counts carried by the subrange children of an array entry, in child
    order. *)
Fixpoint subrange_counts (cs : list DIE) : list Z :=
  match cs with
  | [] => []
  | child :: cs' =>
      match tag child, DW_AT_count child with
      | DW_TAG_subrange_type, Some v => v :: subrange_counts cs'
      | _, _ => subrange_counts cs'
      end
  end.

(** The formal-parameter children of a subroutine type. *)
Definition formal_parameters (cs : list DIE) : list DIE :=
  filter (λ c, tag c = DW_TAG_formal_parameter) cs.

(** A unit with the entries of the synthesis examples:
    [int], [int *], [int [4]], [void (void)], [void ( * )(void)], [const int]. *)
Module Literals.
Definition t_int : DIE := entry 11 DW_TAG_base_type (Some "int") None [].
Definition t_ptr : DIE := entry 18 DW_TAG_pointer_type None (Some 11) [].
Definition t_sub : DIE :=
  with_count 4 (entry 30 DW_TAG_subrange_type None None []).
Definition t_arr : DIE := entry 24 DW_TAG_array_type None (Some 11) [t_sub].
Definition t_grid : DIE :=
  entry 52 DW_TAG_array_type None (Some 11)
        [with_count 3 (entry 58 DW_TAG_subrange_type None None []);
         entry 61 DW_TAG_subrange_type None None [];
         with_count 5 (entry 64 DW_TAG_subrange_type None None [])].
Definition t_fn : DIE := entry 37 DW_TAG_subroutine_type None None [].
Definition t_fp : DIE := entry 38 DW_TAG_pointer_type None (Some 37) [].
Definition t_const : DIE := entry 44 DW_TAG_const_type None (Some 11) [].
Definition top : DIE :=
  with_language 12
    (entry 0 (DW_TAG_other "DW_TAG_compile_unit") (Some "lit.c") None
           [t_int; t_ptr; t_arr; t_fn; t_fp; t_const]).
Definition unit : TypeDG :=
  mkTypeDG 0 (map_seqZ 0 ["lit.c"])
           (dict_of_pairs [(0, top); (11, t_int); (18, t_ptr); (24, t_arr);
                           (30, t_sub); (37, t_fn); (38, t_fp); (44, t_const)])
           [].
End Literals.

(** An array and a subroutine type over an entry of a kind for which
    [gen_decl] has no rule, as for [typeof(nullptr) table[4]]. *)
Module NoRule.
Definition t_null : DIE :=
  entry 11 (DW_TAG_other "DW_TAG_unspecified_type") (Some "decltype(nullptr)")
        None [].
Definition t_arr : DIE :=
  entry 18 DW_TAG_array_type None (Some 11)
        [with_count 4 (entry 24 DW_TAG_subrange_type None None [])].
Definition t_fn : DIE := entry 30 DW_TAG_subroutine_type None (Some 11) [].
Definition unit : TypeDG :=
  mkTypeDG 0 (map_seqZ 0 ["null.c"])
           (dict_of_pairs [(11, t_null); (18, t_arr); (30, t_fn)]) [].
End NoRule.

(** The enumerator children of an enumeration. *)
Definition enumerators (cs : list DIE) : list DIE :=
  filter (λ c, tag c = DW_TAG_enumerator) cs.

(** The line of an enumerator as the specification words it: [name = value]
    when a constant value is present and not zero, the bare name when it is
    absent or zero. *)
Definition enumerator_line_spec (name : string) (value : option Z) : string :=
  match value with
  | Some v => if (v =? 0)%Z then TAB +:+ name
              else TAB +:+ name +:+ " = " +:+ dec v
  | None => TAB +:+ name
  end.

(** [enum color { RED = 0, GREEN = 1 }] and an enumeration whose enumerator
    carries no constant value. *)
Module Colors.
Definition red : DIE :=
  with_const_value 0 (entry 91 DW_TAG_enumerator (Some "RED") None []).
Definition green : DIE :=
  with_const_value 1 (entry 97 DW_TAG_enumerator (Some "GREEN") None []).
Definition t_color : DIE :=
  entry 85 DW_TAG_enumeration_type (Some "color") None [red; green].
Definition none : DIE := entry 110 DW_TAG_enumerator (Some "NONE") None [].
Definition t_flag : DIE :=
  entry 104 DW_TAG_enumeration_type (Some "flag") None [none].
Definition unit : TypeDG :=
  mkTypeDG 0 ∅ (dict_of_pairs [(85, t_color); (91, red); (97, green);
                                (104, t_flag); (110, none)])
           [("color", [t_color]); ("flag", [t_flag])].
End Colors.

(** An entry of a named-type kind whose naming raises: its explicit name
    fails validation or does not decode. *)
Definition name_fails (self : TypeDG) (die : DIE) : bool :=
  match TAGS_for_types (tag die), _get_die_name self die false with
  | Some _, Raise _ => true
  | _, _ => false
  end.

(** The entries reached from [top] through entries whose naming does not
    fail (the entry itself included). *)
Inductive reached (self : TypeDG) (top : DIE) : DIE → Prop :=
| reached_top :
    name_fails self top = false → reached self top top
| reached_child (die child : DIE) :
    reached self top die → child ∈ children die →
    name_fails self child = false → reached self top child.

(** The name index after the naming step of [walk] on [die]: an entry of a
    named-type kind with a name that is valid and not empty is added. *)
Definition names_after (self : TypeDG) (die : DIE) (names : name_index)
  : name_index :=
  match TAGS_for_types (tag die), _get_die_name self die false with
  | Some _, Ok given_name =>
      if truthy given_name then names_add names (fmt given_name) die
      else names
  | _, _ => names
  end.

(** What a traversal by [walk] that ends without exception has yielded from
    [top]: exactly the entries reached, each under its offset minus the unit
    base offset. *)
Definition walk_sound (self : TypeDG) (limit : nat) : Prop :=
  ∀ top names names' pairs out,
    walk self limit top names = (names', pairs, out, None) →
    (∀ die, reached self top die →
            (offset die - cu_offset self, die) ∈ pairs)
    ∧ (∀ k die, (k, die) ∈ pairs →
                reached self top die ∧ k = offset die - cu_offset self).







(** A unit in C with a structure whose name is not an identifier, holding one
    member, next to a base type. *)
Module BadName.
Definition t_int : DIE := entry 11 DW_TAG_base_type (Some "int") None [].
Definition field : DIE :=
  with_data_member_location 0 (entry 25 DW_TAG_member (Some "x") (Some 11) []).
Definition t_pair : DIE :=
  with_byte_size 4
    (entry 18 DW_TAG_structure_type (Some "pair<int>") None [field]).
Definition top : DIE :=
  with_language 12
    (entry 0 (DW_TAG_other "DW_TAG_compile_unit") (Some "bad.c") None
           [t_int; t_pair]).
Definition CU : CompileUnit := mkCompileUnit 0 top (Some ["bad.c"]).
End BadName.

(** A chain of [n] pointer types ending in the base type [int]: the entry at
    offset [i < n] is a pointer to the entry at offset [i + 1], the entry at
    offset [n] is [int]. *)
Module Chain.
Definition link (n i : nat) : DIE :=
  if (i <? n)%nat
  then entry (Z.of_nat i) DW_TAG_pointer_type None (Some (Z.of_nat (S i))) []
  else entry (Z.of_nat i) DW_TAG_base_type (Some "int") None [].

Definition unit (n : nat) : TypeDG :=
  mkTypeDG 0 ∅ (map_seqZ 0 (map (link n) (seq 0 (S n)))) [].
End Chain.

(** ** Emission states *)

(** The state of an entry as [track] reads it: only the values ["defined"]
    and ["declared"] under the entry count. *)
Inductive emission : Type := UNSEEN | DECLARED | DEFINED.

Definition state_at (shown : shown_t) (off : Z) : emission :=
  match shown !! (inl off : key) with
  | Some defined => DEFINED
  | Some declared => DECLARED
  | _ => UNSEEN
  end.

Definition state_of (shown : shown_t) (die : DIE) : emission :=
  state_at shown (offset die).

Definition level (e : emission) : nat :=
  match e with
  | UNSEEN => 0
  | DECLARED => 1
  | DEFINED => 2
  end.

(** The tag name whose full definition a printed item opens. *)
Definition defined_tag (p : printed) : option (option string) :=
  match p with
  | PAggregate tagname _ _ => Some tagname
  | PEnum tagname _ => Some tagname
  | _ => None
  end.

(** The full definitions of the tag name [t] in an output. *)
Definition definitions_of (t : string) (out : list printed) : list printed :=
  filter (λ p, defined_tag p = Some (Some t)) out.

(** The forward declarations in an output. *)
Definition is_forward (p : printed) : bool :=
  match p with
  | PForward _ => true
  | _ => false
  end.

Definition forward_declarations (out : list printed) : list printed :=
  filter (λ p, is_forward p = true) out.

(** From [shown] to [shown'] while printing [out]: no entry moves down, no
    key is removed, and no tag name recorded in [shown] gets a full
    definition, the tag names in [X] excepted. *)
Definition extends (X : option string → Prop)
    (shown : shown_t) (out : list printed) (shown' : shown_t) : Prop :=
  (∀ off, (level (state_at shown off) ≤ level (state_at shown' off))%nat)
  ∧ (∀ k : key, is_Some (shown !! k) → is_Some (shown' !! k))
  ∧ (∀ t, is_Some (shown !! (inr t : key)) → ¬ X t →
          Forall (λ p, defined_tag p ≠ Some t) out).

(** A computation all of whose runs extend the dictionary. *)
Definition keeps (X : option string → Prop) {A} (m : M A) : Prop :=
  ∀ shown, match m shown with
           | (shown', out, _) => extends X shown out shown'
           end.

Definition no_tag : option string → Prop := λ _, False.

(** One call of [track] made by a caller that holds the dictionary. *)
Record call : Type := mkCall {
  call_limit : nat;
  call_die : option DIE;
  call_depth : Z;
  call_mode : bool
}.

(** A sequence of calls of [track] on one dictionary; a call that raises
    leaves its writes behind and the next call is made all the same. *)
Fixpoint track_calls (self : TypeDG) (calls : list call) (shown : shown_t)
  : shown_t * list printed :=
  match calls with
  | [] => (shown, [])
  | c :: calls' =>
      match track self (call_limit c) (call_die c) (call_depth c)
                  (call_mode c) shown with
      | (shown1, out1, _) =>
          match track_calls self calls' shown1 with
          | (shown2, out2) => (shown2, out1 ++ out2)
          end
      end
  end.

(** Two structure entries that carry the same tag name [node], as two
    units describing the same type do; each has one [int] member. *)
Module Twins.
Definition t_int : DIE := entry 11 DW_TAG_base_type (Some "int") None [].
Definition node_a : DIE :=
  with_byte_size 4
    (entry 18 DW_TAG_structure_type (Some "node") None
       [with_data_member_location 0
          (entry 25 DW_TAG_member (Some "val") (Some 11) [])]).
Definition node_b : DIE :=
  with_byte_size 4
    (entry 40 DW_TAG_structure_type (Some "node") None
       [with_data_member_location 0
          (entry 47 DW_TAG_member (Some "val") (Some 11) [])]).
Definition unit : TypeDG :=
  mkTypeDG 0 ∅ (dict_of_pairs [(11, t_int); (18, node_a); (40, node_b)])
           [("node", [node_a; node_b])].
End Twins.

(** ** Entries and dictionaries of one unit *)

(** Structures, classes and unions. *)
Definition is_aggregate (t : Tag) : bool :=
  match t with
  | DW_TAG_structure_type | DW_TAG_class_type | DW_TAG_union_type => true
  | _ => false
  end.

(** [die] is the entry that the offset map of the unit holds for the offset
    of [die]. *)
Definition indexed (self : TypeDG) (die : DIE) : Prop :=
  offset_to_die self !! (offset die - cu_offset self) = Some die.

(** Every entry of the offset map sits under its own offset and has a valid
    name or none: what [__init__] builds. *)
Definition well_indexed (self : TypeDG) : Prop :=
  ∀ k die, offset_to_die self !! k = Some die →
           k = offset die - cu_offset self ∧ name_fails self die = false.

(** What holds of a dictionary that only [track] has written: a pointer
    entry of the unit is never DECLARED, and when it is DEFINED an aggregate
    it points to has been declared or defined. *)
Definition pointers_settled (self : TypeDG) (shown : shown_t) : Prop :=
  ∀ ptr, indexed self ptr → tag ptr = DW_TAG_pointer_type →
         state_of shown ptr ≠ DECLARED
         ∧ (state_of shown ptr = DEFINED →
            ∀ pointee, _get_type_die self ptr = Some pointee →
                       is_aggregate (tag pointee) = true →
                       state_of shown pointee ≠ UNSEEN).

(** The dictionaries that calls of [track] on entries of the unit produce
    from the empty dictionary. *)
Inductive reachable (self : TypeDG) : shown_t → Prop :=
| reachable_empty : reachable self ∅
| reachable_track (shown : shown_t) (limit : nat) (die : option DIE)
                  (depth : Z) (mode : bool) :
    reachable self shown →
    (∀ d, die = Some d → indexed self d) →
    reachable self (track self limit die depth mode shown).1.1.

(** A unit with [struct node] and a pointer to it. *)
Module Pointee.
Definition t_int : DIE := entry 11 DW_TAG_base_type (Some "int") None [].
Definition t_node : DIE :=
  with_byte_size 4
    (entry 18 DW_TAG_structure_type (Some "node") None
       [with_data_member_location 0
          (entry 25 DW_TAG_member (Some "val") (Some 11) [])]).
Definition t_ptr : DIE := entry 32 DW_TAG_pointer_type None (Some 18) [].
Definition top : DIE :=
  with_language 12
    (entry 0 (DW_TAG_other "DW_TAG_compile_unit") (Some "ptr.c") None
           [t_int; t_node; t_ptr]).
Definition CU : CompileUnit := mkCompileUnit 0 top (Some ["ptr.c"]).
Definition unit : TypeDG :=
  match __init__ 100 CU with
  | (_, Ok self) => self
  | _ => mkTypeDG 0 ∅ ∅ []
  end.
End Pointee.

(** A computation that keeps the pointers of the unit settled. *)
Definition settles (self : TypeDG) {A} (m : M A) : Prop :=
  ∀ shown, pointers_settled self shown → pointers_settled self (m shown).1.1.

(** ** Self-referential aggregates *)









(** What is printed between the opening line and the closing brace. *)
Definition body_items (lines : list string) (size : Z) : list printed :=
  match lines with
  | _ :: _ => map PMember lines
  | [] => if (0 <? size)%Z then [PDummy size] else []
  end.

(** [struct node { struct node *next; struct node *prev; }]. *)
Module SelfRef.
Definition next : DIE :=
  with_data_member_location 0
    (entry 25 DW_TAG_member (Some "next") (Some 40) []).
Definition prev : DIE :=
  with_data_member_location 8
    (entry 32 DW_TAG_member (Some "prev") (Some 40) []).
Definition t_node : DIE :=
  with_decl 1 3
    (with_byte_size 16
       (entry 18 DW_TAG_structure_type (Some "node") None [next; prev])).
Definition t_ptr : DIE := entry 40 DW_TAG_pointer_type None (Some 18) [].
Definition unit : TypeDG :=
  mkTypeDG 0 (map_seqZ 0 ["list.c"])
           (dict_of_pairs [(18, t_node); (25, next); (32, prev); (40, t_ptr)])
           [("node", [t_node])].
End SelfRef.

(** [struct node { int val; struct node *next; }]. *)
Module ListNode.
Definition t_int : DIE := entry 11 DW_TAG_base_type (Some "int") None [].
Definition val : DIE :=
  with_data_member_location 0
    (entry 25 DW_TAG_member (Some "val") (Some 11) []).
Definition next : DIE :=
  with_data_member_location 8
    (entry 32 DW_TAG_member (Some "next") (Some 40) []).
Definition t_node : DIE :=
  with_decl 1 3
    (with_byte_size 16
       (entry 18 DW_TAG_structure_type (Some "node") None [val; next])).
Definition t_ptr : DIE := entry 40 DW_TAG_pointer_type None (Some 18) [].
Definition unit : TypeDG :=
  mkTypeDG 0 (map_seqZ 0 ["list.c"])
           (dict_of_pairs [(11, t_int); (18, t_node); (25, val); (32, next);
                           (40, t_ptr)])
           [("node", [t_node])].
End ListNode.

(** [struct node { struct node *next; int a$b; }]: the second member has a
    name that is not an identifier. *)
Module DollarNode.
Definition t_int : DIE := entry 11 DW_TAG_base_type (Some "int") None [].
Definition next : DIE :=
  with_data_member_location 0
    (entry 25 DW_TAG_member (Some "next") (Some 40) []).
Definition a_b : DIE :=
  with_data_member_location 8
    (entry 32 DW_TAG_member (Some "a$b") (Some 11) []).
Definition t_node : DIE :=
  with_decl 1 3
    (with_byte_size 16
       (entry 18 DW_TAG_structure_type (Some "node") None [next; a_b])).
Definition t_ptr : DIE := entry 40 DW_TAG_pointer_type None (Some 18) [].
Definition unit : TypeDG :=
  mkTypeDG 0 (map_seqZ 0 ["list.c"])
           (dict_of_pairs [(11, t_int); (18, t_node); (25, next); (32, a_b);
                           (40, t_ptr)])
           [("node", [t_node])].
End DollarNode.

(** ** Roots whose emission fails *)

(** A unit in C with two named roots. The first one, [typedef ... first_t],
    depends on an entry of a kind without tracking rule: through a reference
    type in [through_reference], directly in [direct]. The second one is
    [typedef int second_t]. *)
Module Roots.
Definition t_unknown : DIE :=
  entry 11 (DW_TAG_other "DW_TAG_unspecified_type") (Some "nullptr_t") None [].
Definition t_ref : DIE := entry 18 DW_TAG_reference_type None (Some 11) [].
Definition t_int : DIE := entry 40 DW_TAG_base_type (Some "int") None [].
Definition second : DIE :=
  with_decl 1 9 (entry 47 DW_TAG_typedef (Some "second_t") (Some 40) []).
Definition first (target : Z) : DIE :=
  with_decl 1 5 (entry 25 DW_TAG_typedef (Some "first_t") (Some target) []).
Definition top (target : Z) : DIE :=
  with_language 12
    (entry 0 (DW_TAG_other "DW_TAG_compile_unit") (Some "roots.c") None
           [t_unknown; t_ref; first target; t_int; second]).
Definition unit (target : Z) : TypeDG :=
  match __init__ 100 (mkCompileUnit 0 (top target) (Some ["roots.c"])) with
  | (_, Ok self) => self
  | _ => mkTypeDG 0 ∅ ∅ []
  end.
Definition through_reference : TypeDG := unit 18.
Definition direct : TypeDG := unit 11.
End Roots.

(** A unit in C that uses dollar signs in identifiers:
    [struct in$ner { int x; }; struct outer { struct in$ner a$b; };
     typedef int second_t;]. In [member_of_skipped] the member [a$b] has the
    type [struct in$ner], which the indexer skips; in [member_of_int] it has
    the type [int]. *)
Module Dollars.
Definition t_int : DIE := entry 11 DW_TAG_base_type (Some "int") None [].
Definition t_inner : DIE :=
  with_byte_size 4
    (entry 18 DW_TAG_structure_type (Some "in$ner") None
       [with_data_member_location 0
          (entry 25 DW_TAG_member (Some "x") (Some 11) [])]).
Definition t_outer (type : Z) : DIE :=
  with_decl 1 2
    (with_byte_size 4
       (entry 40 DW_TAG_structure_type (Some "outer") None
          [with_data_member_location 0
             (entry 47 DW_TAG_member (Some "a$b") (Some type) [])])).
Definition second : DIE :=
  with_decl 1 3 (entry 54 DW_TAG_typedef (Some "second_t") (Some 11) []).
Definition top (type : Z) : DIE :=
  with_language 12
    (entry 0 (DW_TAG_other "DW_TAG_compile_unit") (Some "dollars.c") None
           [t_int; t_inner; t_outer type; second]).
Definition unit (type : Z) : TypeDG :=
  match __init__ 100 (mkCompileUnit 0 (top type) (Some ["dollars.c"])) with
  | (_, Ok self) => self
  | _ => mkTypeDG 0 ∅ ∅ []
  end.
Definition member_of_skipped : TypeDG := unit 18.
Definition member_of_int : TypeDG := unit 11.
End Dollars.

(** ** Further vocabulary *)

(** The characters of the class [[A-Za-z0-9_ ]]. *)
Definition allowed_char (c : ascii) : Prop :=
  let n := nat_of_ascii c in
  ((65 ≤ n ∧ n ≤ 90) ∨ (97 ≤ n ∧ n ≤ 122) ∨ (48 ≤ n ∧ n ≤ 57)
   ∨ n = 95 ∨ n = 32)%nat.

(** The characters of a string. *)
Fixpoint chars (s : string) : list ascii :=
  match s with
  | EmptyString => []
  | String c s' => c :: chars s'
  end.

(** The file that the file number [v] of an entry stands for: numbers start
    at one, the table of the unit at zero. *)
Definition file_of (files : list string) (v : Z) : option string :=
  if (1 <=? v)%Z then files !! Z.to_nat (v - 1) else None.

(** [die] is in the set that the name index holds under [name]. *)
Definition recorded (names : name_index) (name : string) (die : DIE) : Prop :=
  ∃ dies, (name, dies) ∈ names ∧ die ∈ dies.

(** [die] is reached from [top], is of a named-type kind and carries the
    name [name], which is not empty. *)
Definition named (self : TypeDG) (top : DIE) (name : string) (die : DIE)
  : Prop :=
  reached self top die
  ∧ is_Some (TAGS_for_types (tag die))
  ∧ DW_AT_name die = Some name
  ∧ name ≠ "".

(** What a traversal by [walk] that ends without exception has done to
    the name index. *)
Definition walk_names (self : TypeDG) (limit : nat) : Prop :=
  ∀ top names names' pairs out,
    walk self limit top names = (names', pairs, out, None) →
    (∀ n d, recorded names' n d ↔ recorded names n d ∨ named self top n d)
    ∧ (NoDup names.*1 → NoDup names'.*1).

(** The exceptions that [gen_decl] can raise. *)
Definition synthesizer_exn (e : exn) : Prop :=
  match e with
  | ParseError _ | TypeError | RecursionError | UnicodeDecodeError => True
  | _ => False
  end.

(** The exceptions that can leave the constructor. *)
Definition constructor_exn (e : exn) : Prop :=
  match e with
  | KeyError | TypeError | UnicodeDecodeError | RecursionError => True
  | _ => False
  end.

(** A unit in C with a type definition over a structure that the indexer
    skips: [struct in$ner { int x; }; typedef struct in$ner alias_t;]. *)
Module Alias.
Definition t_int : DIE := entry 11 DW_TAG_base_type (Some "int") None [].
Definition t_inner : DIE :=
  with_byte_size 4
    (entry 18 DW_TAG_structure_type (Some "in$ner") None
       [with_data_member_location 0
          (entry 25 DW_TAG_member (Some "x") (Some 11) [])]).
Definition t_alias : DIE :=
  with_decl 1 2 (entry 32 DW_TAG_typedef (Some "alias_t") (Some 18) []).
Definition top : DIE :=
  with_language 12
    (entry 0 (DW_TAG_other "DW_TAG_compile_unit") (Some "alias.c") None
           [t_int; t_inner; t_alias]).
Definition CU : CompileUnit := mkCompileUnit 0 top (Some ["alias.c"]).
Definition unit : TypeDG :=
  match __init__ 100 CU with
  | (_, Ok self) => self
  | _ => mkTypeDG 0 ∅ ∅ []
  end.
End Alias.

(** What a computation returns when it returns normally. *)
Definition returns {A} (Q : A → Prop) (m : M A) : Prop :=
  ∀ s s' o a, m s = (s', o, Ok a) → Q a.

(** ** Definitions printed at most once *)

(** A computation all of whose runs extend the dictionary and print, for a
    tag name outside [X], at most one full definition, which the dictionary
    records afterwards. *)
Definition once (X : option string → Prop) {A} (m : M A) : Prop :=
  ∀ shown, match m shown with
           | (shown', out, _) =>
               extends X shown out shown'
               ∧ ∀ t, ¬ X (Some t) →
                   (length (definitions_of t out) ≤ 1)%nat
                   ∧ (definitions_of t out ≠ [] → is_Some (shown' !! KTag t))
           end.

(** A computation that, run on a dictionary that records the tag name [t0],
    prints at most [c] full definitions of [t0]. *)
Definition upto (c : nat) (t0 : option string) {A} (m : M A) : Prop :=
  ∀ shown, is_Some (shown !! (inr t0 : key)) →
    (length (filter (λ p, defined_tag p = Some t0) (m shown).1.2) ≤ c)%nat.

(** ** The program: one dictionary for all units *)

(** [dg = TypeDG(CU, line_program)] as a step of the program: what the
    constructor prints goes to the output, the dictionary is not touched.
    The constructor and [explain] are called from the same frame, so [walk]
    and [track] start with the same number of activations left. *)
Definition construct (limit : nat) (CU : CompileUnit) : M TypeDG :=
  λ shown, match __init__ limit CU with
           | (out, r) => (shown, out, r)
           end.

(** The loop [for CU in dwarf.iter_CUs()] with the dictionary [shown] that
    all units share; [filter] is passed to [explain]. *)
Fixpoint explain_units (limit : nat)
    (filter : option (string → list DIE → shown_t → list DIE))
    (CUs : list CompileUnit) : M unit :=
  match CUs with
  | [] => ret tt
  | CU :: CUs' =>
      run dg <- construct limit CU;
      exec (λ shown, explain dg limit filter (Some shown));
      explain_units limit filter CUs'
  end.

(** The filter of the program: every entry, as given. *)
Definition main_filter (name : string) (dies : list DIE) (shown : shown_t)
  : list DIE := dies.

(** The program on the units of a file, with [limit] activations for each
    traversal by [walk] and for each call of [track] that [explain] makes;
    it starts from an empty dictionary. *)
Definition main (limit : nat) (CUs : list CompileUnit)
  : shown_t * list printed * Result unit :=
  explain_units limit (Some main_filter) CUs ∅.

(** Two units of one file that both describe [struct node { int val; }];
    the second unit starts at offset 100. *)
Module TwoUnits.
Definition a_int : DIE := entry 11 DW_TAG_base_type (Some "int") None [].
Definition a_node : DIE :=
  with_decl 1 1
    (with_byte_size 4
       (entry 18 DW_TAG_structure_type (Some "node") None
          [with_data_member_location 0
             (entry 25 DW_TAG_member (Some "val") (Some 11) [])])).
Definition a : CompileUnit :=
  mkCompileUnit 0
    (with_language 12
       (entry 0 (DW_TAG_other "DW_TAG_compile_unit") (Some "a.c") None
              [a_int; a_node]))
    (Some ["a.c"]).
Definition b_int : DIE := entry 111 DW_TAG_base_type (Some "int") None [].
Definition b_node : DIE :=
  with_decl 1 1
    (with_byte_size 4
       (entry 118 DW_TAG_structure_type (Some "node") None
          [with_data_member_location 0
             (entry 125 DW_TAG_member (Some "val") (Some 11) [])])).
Definition b : CompileUnit :=
  mkCompileUnit 100
    (with_language 12
       (entry 100 (DW_TAG_other "DW_TAG_compile_unit") (Some "b.c") None
              [b_int; b_node]))
    (Some ["b.c"]).
End TwoUnits.

(** A structure of eight bytes whose only member has no
    [DW_AT_data_member_location], and an anonymous union of no size. *)
Module Blob.
Definition t_int : DIE := entry 11 DW_TAG_base_type (Some "int") None [].
Definition t_blob : DIE :=
  with_decl 1 4
    (with_byte_size 8
       (entry 18 DW_TAG_structure_type (Some "blob") None
          [entry 25 DW_TAG_member (Some "shared") (Some 11) []])).
Definition t_none : DIE :=
  with_byte_size 0 (entry 32 DW_TAG_union_type None None []).
Definition unit : TypeDG :=
  mkTypeDG 0 (map_seqZ 0 ["blob.c"])
           (dict_of_pairs [(11, t_int); (18, t_blob); (32, t_none)])
           [("blob", [t_blob])].
End Blob.

(** A child that the member loop of [track] passes over. *)
Definition unplaced (child : DIE) : Prop :=
  tag child ≠ DW_TAG_member ∨ DW_AT_data_member_location child = None.

(** Units whose names are encoded in Latin-1: a base type named by the one
    byte [0xFF] with a type definition over it, and a structure named
    [caf\xE9]; neither name is well-formed UTF-8. *)
Module Latin1.
Definition t_word : DIE :=
  entry 11 DW_TAG_base_type (Some (String "255" "")) None [].
Definition t_alias : DIE :=
  with_decl 1 3 (entry 18 DW_TAG_typedef (Some "word_t") (Some 11) []).
Definition base : CompileUnit :=
  mkCompileUnit 0
    (with_language 12
       (entry 0 (DW_TAG_other "DW_TAG_compile_unit") (Some "word.c") None
              [t_word; t_alias]))
    (Some ["word.c"]).
Definition unit : TypeDG :=
  match __init__ 100 base with
  | (_, Ok self) => self
  | _ => mkTypeDG 0 ∅ ∅ []
  end.
Definition t_cafe : DIE :=
  with_byte_size 4
    (entry 11 DW_TAG_structure_type (Some ("caf" +:+ String "233" "")) None []).
Definition structure : CompileUnit :=
  mkCompileUnit 0
    (with_language 12
       (entry 0 (DW_TAG_other "DW_TAG_compile_unit") (Some "cafe.c") None
              [t_cafe]))
    (Some ["cafe.c"]).
End Latin1.
(** * Properties *)

(** ** The synthesizer *)

Section SynthesizerFacts.
Variable self : TypeDG.

Lemma gen_decl_S (n : nat) (die : option DIE) (name : option string) :
  gen_decl self (S n) die name
  = gen_decl_body self (gen_decl self n) die name.
Proof. reflexivity. Qed.

Lemma gen_decl_void (n : nat) : gen_decl self (S n) None None = Ok (Some "void").
Proof. reflexivity. Qed.

Lemma array_count_last (cs : list DIE) (count : string) :
  array_count cs count
  = match last (subrange_counts cs) with
    | Some v => "[" +:+ dec v +:+ "]"
    | None => count
    end.
Proof.
  revert count; induction cs as [|c cs IH]; intros count; [reflexivity|].
  cbn [array_count subrange_counts].
  destruct (tag c), (DW_AT_count c) as [v|]; rewrite ?IH; try reflexivity;
    rewrite last_cons; destruct (last (subrange_counts cs)); reflexivity.
Qed.

Lemma gen_fparams_none (rec : option DIE → option string → Result (option string))
      (cs : list DIE) :
  formal_parameters cs = [] → gen_fparams self rec cs = Ok [].
Proof.
  induction cs as [|c cs IH]; [reflexivity|].
  unfold formal_parameters. rewrite filter_cons. cbn [gen_fparams].
  destruct (decide (tag c = DW_TAG_formal_parameter)) as [E|NE]; [discriminate|].
  intros H. destruct (tag c); try (apply IH, H). congruence.
Qed.
End SynthesizerFacts.

(** C6. The synthesis literals: a pointer to the base type [int] named [x]
    is declared as ["int *x"], an array of [int] whose subrange count is 4
    named [arr] as ["int arr[4]"], a pointer to a subroutine type without
    parameters and without return type named [fp] as ["void (*fp)(void)"],
    and a const-qualified [int] named [c] as ["const int c"]. *)
Theorem gen_decl_literals (self : TypeDG) (n : nat)
    (t_int ptr arr fn fp c : DIE) :
  tag t_int = DW_TAG_base_type → DW_AT_name t_int = Some "int" →
  tag ptr = DW_TAG_pointer_type → _get_type_die self ptr = Some t_int →
  tag arr = DW_TAG_array_type → _get_type_die self arr = Some t_int →
  subrange_counts (children arr) = [4] →
  tag fn = DW_TAG_subroutine_type → _get_type_die self fn = None →
  formal_parameters (children fn) = [] →
  tag fp = DW_TAG_pointer_type → _get_type_die self fp = Some fn →
  tag c = DW_TAG_const_type → _get_type_die self c = Some t_int →
  gen_decl self (2 + n) (Some ptr) (Some "x") = Ok (Some "int *x")
  ∧ gen_decl self (2 + n) (Some arr) (Some "arr") = Ok (Some "int arr[4]")
  ∧ gen_decl self (3 + n) (Some fp) (Some "fp") = Ok (Some "void (*fp)(void)")
  ∧ gen_decl self (2 + n) (Some c) (Some "c") = Ok (Some "const int c").
Proof.
  intros Hint Hname Hptr Hptr_t Harr Harr_t Hcnt Hfn Hfn_t Hfn_p Hfp Hfp_t Hc Hc_t.
  assert (Hbase : ∀ m id, truthy (Some id) = true →
            gen_decl self (S m) (Some t_int) (Some id)
            = Ok (Some ("int " +:+ id))).
  { intros m id Hid. rewrite gen_decl_S. unfold gen_decl_body.
    rewrite Hint, Hid. unfold _get_die_name. rewrite Hname. reflexivity. }
  assert (Hbase0 : ∀ m, gen_decl self (S m) (Some t_int) None = Ok (Some "int")).
  { intros m. rewrite gen_decl_S. unfold gen_decl_body.
    rewrite Hint. unfold _get_die_name. rewrite Hname. reflexivity. }
  repeat split.
  - change (2 + n)%nat with (S (S n)). rewrite gen_decl_S. unfold gen_decl_body.
    rewrite Hptr, Hptr_t. cbn [name_or_empty truthy fmt default].
    rewrite Hbase; reflexivity.
  - change (2 + n)%nat with (S (S n)). rewrite gen_decl_S. unfold gen_decl_body.
    rewrite Harr, Harr_t, Hbase0, array_count_last, Hcnt. reflexivity.
  - change (3 + n)%nat with (S (S (S n))). rewrite gen_decl_S.
    unfold gen_decl_body at 1. rewrite Hfp, Hfp_t.
    cbn [name_or_empty truthy fmt default].
    rewrite gen_decl_S. unfold gen_decl_body.
    rewrite Hfn, Hfn_t, (gen_fparams_none _ _ _ Hfn_p). cbn [rbind].
    rewrite gen_decl_void. reflexivity.
  - change (2 + n)%nat with (S (S n)). rewrite gen_decl_S. unfold gen_decl_body.
    rewrite Hc, Hc_t. cbn [TAGS_for_qualifiers]. rewrite Hbase; reflexivity.
Qed.

Lemma gen_decl_literals_witness :
  gen_decl Literals.unit 2 (Some Literals.t_ptr) (Some "x") = Ok (Some "int *x")
  ∧ gen_decl Literals.unit 2 (Some Literals.t_arr) (Some "arr")
    = Ok (Some "int arr[4]")
  ∧ gen_decl Literals.unit 3 (Some Literals.t_fp) (Some "fp")
    = Ok (Some "void (*fp)(void)")
  ∧ gen_decl Literals.unit 2 (Some Literals.t_const) (Some "c")
    = Ok (Some "const int c").
Proof.
  apply (gen_decl_literals Literals.unit 0 Literals.t_int Literals.t_ptr
           Literals.t_arr Literals.t_fn Literals.t_fp Literals.t_const);
    reflexivity.
Defined.

(** C7. For an array entry, [gen_decl] renders the declarator of the element
    type, the identifier, and then ["[]"] when no subrange child carries a
    count and ["[count]"] otherwise, where [count] is the count of the last
    subrange child, in child order, that carries one. *)
Theorem gen_decl_array (self : TypeDG) (n : nat) (arr : DIE)
    (name elem : string) :
  tag arr = DW_TAG_array_type →
  gen_decl self n (_get_type_die self arr) None = Ok (Some elem) →
  gen_decl self (S n) (Some arr) (Some name)
  = Ok (Some (elem +:+ " " +:+ name
              +:+ match last (subrange_counts (children arr)) with
                  | None => "[]"
                  | Some count => "[" +:+ dec count +:+ "]"
                  end)).
Proof.
  intros Harr Helem. rewrite gen_decl_S. unfold gen_decl_body.
  rewrite Harr, Helem, array_count_last. cbn [rbind as_str].
  destruct (last (subrange_counts (children arr))); reflexivity.
Qed.

Lemma gen_decl_array_witness :
  gen_decl Literals.unit 2 (Some Literals.t_grid) (Some "grid")
  = Ok (Some "int grid[5]").
Proof.
  exact (gen_decl_array Literals.unit 1 Literals.t_grid "grid" "int"
           eq_refl eq_refl).
Defined.

(** C10 (amended). Called without an identifier on an array entry or a
    subroutine-type entry, [gen_decl] never returns text. A failure of a
    part (the element or return type, a parameter type) is the failure of the
    call, with or without identifier: a [ParseError] for a part without
    rule, for one. Once the declarators of the parts are generated, the
    concatenation with the absent identifier is a [TypeError]; with an
    identifier and the same parts, the call returns text. *)
Theorem gen_decl_needs_identifier (self : TypeDG) (n : nat) (die : DIE) :
  tag die = DW_TAG_array_type ∨ tag die = DW_TAG_subroutine_type →
  (∀ m text, gen_decl self m (Some die) None ≠ Ok text)
  ∧ (∀ name e,
       tag die = DW_TAG_subroutine_type →
       gen_fparams self (gen_decl self n) (children die) = Raise e →
       gen_decl self (S n) (Some die) name = Raise e)
  ∧ (∀ name e,
       (tag die = DW_TAG_subroutine_type →
        ∃ params, gen_fparams self (gen_decl self n) (children die)
                  = Ok params) →
       gen_decl self n (_get_type_die self die) None = Raise e →
       gen_decl self (S n) (Some die) name = Raise e)
  ∧ (∀ part params,
       gen_decl self n (_get_type_die self die) None = Ok (Some part) →
       gen_fparams self (gen_decl self n) (children die) = Ok params →
       (∃ ps, all_str params = Ok ps) →
       gen_decl self (S n) (Some die) None = Raise TypeError
       ∧ ∀ name, ∃ text,
           gen_decl self (S n) (Some die) (Some name) = Ok (Some text)).
Proof.
  intros Hkind. split; [|split; [|split]].
  - intros [|m] text; [discriminate|]. rewrite gen_decl_S. unfold gen_decl_body.
    destruct Hkind as [-> | ->].
    + destruct (gen_decl self m (_get_type_die self die) None) as [[e|]|];
        discriminate.
    + destruct (gen_fparams self (gen_decl self m) (children die)) as [[|p ps]|];
        cbn [rbind]; try discriminate.
      * destruct (gen_decl self m None None); cbn [rbind]; [|discriminate].
        destruct (gen_decl self m (_get_type_die self die) None) as [[e|]|];
          discriminate.
      * destruct (gen_decl self m (_get_type_die self die) None) as [[e|]|];
          discriminate.
  - intros name e Hsub Hparams. rewrite gen_decl_S. unfold gen_decl_body.
    by rewrite Hsub, Hparams.
  - intros name e Hparams Hpart. rewrite gen_decl_S. unfold gen_decl_body.
    destruct Hkind as [Hk | Hk]; rewrite Hk.
    + by rewrite Hpart.
    + destruct (Hparams Hk) as [params ->]. cbn [rbind].
      destruct params as [|p params']; cbn [rbind]; [|by rewrite Hpart].
      destruct n as [|n']; [by injection Hpart as <-|].
      rewrite gen_decl_void. cbn [rbind]. by rewrite Hpart.
  - intros part params Hpart Hparams [ps Hps].
    assert (Hvoid : gen_decl self n None None = Ok (Some "void")).
    { destruct n; [discriminate|reflexivity]. }
    assert (Hshape : ∀ name,
      gen_decl self (S n) (Some die) name
      = do id <- as_str name;
        Ok (Some (if decide (tag die = DW_TAG_array_type)
                  then part +:+ " " +:+ id
                       +:+ array_count (children die) "[]"
                  else part +:+ " (" +:+ id +:+ ")("
                       +:+ join ", " (match params with
                                      | [] => ["void"]
                                      | _ => ps
                                      end) +:+ ")"))).
    { intros name. rewrite gen_decl_S. unfold gen_decl_body.
      destruct Hkind as [-> | ->]; cbn [decide decide_rel Tag_eq_dec].
      - rewrite Hpart. destruct name; reflexivity.
      - rewrite Hparams. cbn [rbind]. destruct params as [|p params'].
        + rewrite Hvoid. cbn [rbind]. rewrite Hpart. destruct name; reflexivity.
        + cbn [rbind]. rewrite Hpart. cbn [rbind as_str].
          destruct name; [|reflexivity]. cbn [rbind]. rewrite Hps. reflexivity. }
    split; [rewrite Hshape; reflexivity|].
    intros name. rewrite Hshape. eexists. reflexivity.
Qed.

Lemma gen_decl_needs_identifier_witness :
  gen_decl Literals.unit 2 (Some Literals.t_arr) None = Raise TypeError
  ∧ gen_decl Literals.unit 2 (Some Literals.t_fn) None = Raise TypeError
  ∧ gen_decl NoRule.unit 2 (Some NoRule.t_fn) None
    = Raise (ParseError "cannot generate decl. for DW_TAG_unspecified_type").
Proof.
  split; [|split].
  - exact (proj1 (proj2 (proj2 (proj2 (gen_decl_needs_identifier Literals.unit 1
                           Literals.t_arr (or_introl eq_refl))))
                    "int" [] eq_refl eq_refl (ex_intro _ [] eq_refl))).
  - exact (proj1 (proj2 (proj2 (proj2 (gen_decl_needs_identifier Literals.unit 1
                           Literals.t_fn (or_intror eq_refl))))
                    "void" [] eq_refl eq_refl (ex_intro _ [] eq_refl))).
  - exact (proj1 (proj2 (proj2 (gen_decl_needs_identifier NoRule.unit 1
                           NoRule.t_fn (or_intror eq_refl))))
             None _ (λ _, ex_intro _ [] eq_refl) eq_refl).
Defined.

(** C10 fails as worded: without identifier, an array whose element type is
    of a kind without rule ends in the [ParseError] of the element, not in a
    [TypeError], and so does a subroutine type with such a return type; and
    an identifier does not make the call return. *)
Lemma absent_identifier_is_not_always_a_type_error :
  gen_decl NoRule.unit 2 (Some NoRule.t_arr) None
  = Raise (ParseError "cannot generate decl. for DW_TAG_unspecified_type")
  ∧ gen_decl NoRule.unit 2 (Some NoRule.t_fn) None
    = Raise (ParseError "cannot generate decl. for DW_TAG_unspecified_type")
  ∧ gen_decl NoRule.unit 2 (Some NoRule.t_arr) (Some "table")
    = Raise (ParseError "cannot generate decl. for DW_TAG_unspecified_type")
  ∧ gen_decl NoRule.unit 2 (Some NoRule.t_arr) None ≠ Raise TypeError.
Proof. repeat split; vm_compute; try reflexivity; discriminate. Qed.

(** ** Running the emitter *)

Lemma append_nil_r (s : string) : s +:+ "" = s.
Proof.
  induction s as [|c s IH]; [reflexivity|].
  change (String c (s +:+ "") = String c s). by rewrite IH.
Qed.

Ltac unfold_M :=
  unfold bind, ret, lift, raise, print, shown_get, shown_has, shown_set,
         try_except, reraise, reraise_unbound; cbn beta iota zeta.

Lemma is_mark_None (v : mark) : is_mark v None = false.
Proof. unfold is_mark. by rewrite bool_decide_eq_false_2. Qed.

Lemma is_mark_Some (v w : mark) : is_mark v (Some w) = bool_decide (w = v).
Proof. unfold is_mark. apply bool_decide_ext. naive_solver. Qed.

Section EmitterFacts.
Variable self : TypeDG.

(** An entry that [shown] does not settle goes through its kind's branch
    and then through the final state write. *)
Lemma track_body_visit
    (track_rec : option DIE → Z → bool → M unit)
    (gen_decl_call : option DIE → option string → Result (option string))
    (die : DIE) (depth : Z) (mode : bool) (shown : shown_t) :
  is_mark defined (shown !! KDie die) = false →
  is_mark declared (shown !! KDie die) && mode = false →
  track_body self track_rec gen_decl_call (Some die) depth mode shown
  = bind (track_kind self track_rec gen_decl_call die (depth + 1) mode)
         (λ fall, match fall with
                  | None => ret tt
                  | Some decl_only => track_final die decl_only
                  end) shown.
Proof.
  intros Hdef Hdecl. unfold track_body. cbn zeta.
  unfold bind at 1, shown_get at 1. rewrite Hdef, Hdecl.
  destruct (bind _ _ shown) as [[s o] r]. reflexivity.
Qed.

(** An entry that [shown] settles is left alone. *)
Lemma track_body_settled
    (track_rec : option DIE → Z → bool → M unit)
    (gen_decl_call : option DIE → option string → Result (option string))
    (die : DIE) (depth : Z) (mode : bool) (shown : shown_t) :
  is_mark defined (shown !! KDie die)
  || is_mark declared (shown !! KDie die) && mode = true →
  track_body self track_rec gen_decl_call (Some die) depth mode shown
  = (shown, [], Ok tt).
Proof.
  intros Hknown. unfold track_body. cbn zeta.
  unfold bind at 1, shown_get at 1.
  destruct (is_mark defined (shown !! KDie die)); [reflexivity|].
  cbn [orb] in Hknown. by rewrite Hknown.
Qed.

Lemma track_S (n : nat) (die : option DIE) (depth : Z) (mode : bool) :
  track self (S n) die depth mode
  = track_body self (track self n) (gen_decl self n) die depth mode.
Proof. reflexivity. Qed.

(** The declarator of a tagged type without identifier: stem and tag name. *)
Lemma gen_decl_tagged (n : nat) (die : DIE) (stem tagname : string) :
  TAGS_for_qualifiers (tag die) = None →
  tag die ≠ DW_TAG_typedef →
  TAGS_for_types (tag die) = Some (Some stem) →
  _get_die_name self die true = Ok (Some tagname) →
  gen_decl self (S n) (Some die) None = Ok (Some (stem +:+ " " +:+ tagname)).
Proof.
  intros Hq Hty Hstem Hname. rewrite gen_decl_S. unfold gen_decl_body.
  destruct (tag die) eqn:Ht; try discriminate; try congruence;
    unfold _get_stem; rewrite Ht, Hname;
    cbn [TAGS_for_types TAGS_for_qualifiers get_or_None rbind as_str truthy]
      in Hstem |- *;
    injection Hstem as <-; by rewrite append_nil_r.
Qed.

Lemma enum_members_valued (cs : list DIE) (lines : list string) :
  Forall2 (λ child line, ∃ value name,
             DW_AT_const_value child = Some value
             ∧ _get_die_name self child false = Ok name
             ∧ line = TAB +:+ fmt name +:+ " = " +:+ dec value)
          (enumerators cs) lines →
  enum_members self cs = Ok lines.
Proof.
  revert lines; induction cs as [|c cs IH]; intros lines.
  - inversion 1. reflexivity.
  - unfold enumerators. rewrite filter_cons. cbn [enum_members].
    destruct (decide (tag c = DW_TAG_enumerator)) as [E|NE].
    + inversion 1 as [|? line ? lines' (v & nm & Hv & Hn & ->) Hrest]; subst.
      rewrite E, Hv. unfold attribute_truthy. rewrite Hn. cbn [rbind].
      rewrite (IH _ Hrest). reflexivity.
    + intros H. destruct (tag c); try (apply IH, H). congruence.
Qed.
End EmitterFacts.

(** C8 (amended). When an enumeration is emitted, every enumerator child
    whose constant value is present prints as [name = value], a value of zero
    included: the test is made on the attribute record, which is truthy
    whatever its value. *)
Theorem enumerators_print_name_and_value (self : TypeDG) (n : nat) (die : DIE)
    (depth : Z) (mode : bool) (shown : shown_t)
    (tagname : string) (lines : list string) :
  tag die = DW_TAG_enumeration_type →
  shown !! KDie die = None →
  _get_die_name self die true = Ok (Some tagname) →
  shown !! KTag tagname = None →
  Forall2 (λ child line, ∃ value name,
             DW_AT_const_value child = Some value
             ∧ _get_die_name self child false = Ok name
             ∧ line = TAB +:+ fmt name +:+ " = " +:+ dec value)
          (enumerators (children die)) lines →
  track self (S (S n)) (Some die) depth mode shown
  = (<[KDie die := defined]> (<[KTag tagname := owner (offset die)]> shown),
     [PEnum (Some tagname) ("enum " +:+ tagname); PEnumerators lines; PClose],
     Ok tt).
Proof.
  intros Htag Hfresh Hname Hfree Hlines.
  rewrite track_S, track_body_visit by (by rewrite Hfresh, is_mark_None).
  unfold track_kind, track_enumeration_type, track_final. rewrite Htag.
  unfold_M.
  rewrite Hname. change (inr (Some tagname)) with (KTag tagname).
  rewrite Hfree. rewrite bool_decide_eq_false_2 by (intros [? ?]; discriminate).
  rewrite (enum_members_valued self _ _ Hlines).
  rewrite (gen_decl_tagged self n die "enum" tagname);
    [reflexivity | by rewrite Htag.. | exact Hname].
Qed.

Lemma enumerators_print_name_and_value_witness :
  track Colors.unit 2 (Some Colors.t_color) 0 false ∅
  = (<[KDie Colors.t_color := defined]>
       (<[KTag "color" := owner (offset Colors.t_color)]> ∅),
     [PEnum (Some "color") "enum color";
      PEnumerators [TAB +:+ "RED = 0"; TAB +:+ "GREEN = 1"];
      PClose],
     Ok tt).
Proof.
  apply (enumerators_print_name_and_value Colors.unit 0 Colors.t_color 0 false ∅ "color");
    try reflexivity.
  change (enumerators (children Colors.t_color))
    with [Colors.red; Colors.green].
  repeat constructor.
  - exists 0, (Some "RED"). repeat split; reflexivity.
  - exists 1, (Some "GREEN"). repeat split; reflexivity.
Defined.

(** C8 fails as worded: an enumerator whose constant value is zero prints as
    [RED = 0], not as the bare name, and an enumerator without a constant
    value makes the emission fail with [KeyError] instead of printing the
    bare name. *)
Lemma enumerator_lines_not_as_specified :
  enum_members Colors.unit (children Colors.t_color)
  = Ok [TAB +:+ "RED = 0"; TAB +:+ "GREEN = 1"]
  ∧ enum_members Colors.unit (children Colors.t_color)
    ≠ Ok [enumerator_line_spec "RED" (Some 0);
          enumerator_line_spec "GREEN" (Some 1)]
  ∧ enum_members Colors.unit (children Colors.t_flag) = Raise KeyError
  ∧ enum_members Colors.unit (children Colors.t_flag)
    ≠ Ok [enumerator_line_spec "NONE" None]
  ∧ (track Colors.unit 2 (Some Colors.t_flag) 0 false ∅).2 = Raise KeyError.
Proof.
  repeat split; try reflexivity; vm_compute; discriminate.
Qed.

(** ** The indexer *)

Lemma DIE_tree_ind (P : DIE → Prop) :
  (∀ die, Forall P (children die) → P die) → ∀ die, P die.
Proof.
  intros step. fix IH 1. intros die. apply step.
  destruct die as [? ? ? ? ? ? ? ? ? ? ? ? cs]. cbn [children].
  induction cs as [|c cs IHcs]; constructor; [apply IH | exact IHcs].
Qed.

(** *** Decoding *)

Lemma decode_Ok (value name : string) : decode value = Ok name → name = value.
Proof.
  unfold decode. destruct (well_formed _); [by intros [= <-] | discriminate].
Qed.

Lemma decode_raises (value : string) (e : exn) :
  decode value = Raise e → e = UnicodeDecodeError.
Proof.
  unfold decode. destruct (well_formed _); [discriminate | by intros [= <-]].
Qed.

Lemma decode_all_Ok (values names : list string) :
  decode_all values = Ok names → names = values.
Proof.
  revert names. induction values as [|v values IH]; intros names.
  - by intros [= <-].
  - cbn [decode_all]. destruct (decode v) as [name|e] eqn:Ev; [|discriminate].
    apply decode_Ok in Ev as ->. cbn [rbind].
    destruct (decode_all values) as [ns|e]; [|discriminate].
    cbn [rbind]. intros [= <-]. by rewrite (IH ns).
Qed.

Lemma decode_all_raises (values : list string) (e : exn) :
  decode_all values = Raise e → e = UnicodeDecodeError.
Proof.
  induction values as [|v values IH]; [discriminate|]. cbn [decode_all].
  destruct (decode v) as [name|e'] eqn:Ev.
  - cbn [rbind]. destruct (decode_all values) as [ns|e']; [discriminate|].
    cbn [rbind]. intros [= <-]. by apply IH.
  - cbn [rbind]. intros [= <-]. by eapply decode_raises.
Qed.

(** A name made of letters, digits, underscores and spaces is ASCII, which
    decodes to itself. *)
Lemma decode_valid (name : string) :
  is_valid_name name = true → decode name = Ok name.
Proof.
  unfold is_valid_name, decode. intros H.
  assert (Hm : badchars_match name = false) by (by destruct (badchars_match name)).
  clear H. enough (well_formed (bytes_of name) = true) as -> by reflexivity.
  induction name as [|c name IH]; [reflexivity|].
  cbn [badchars_match] in Hm. destruct (bad_char c) eqn:Hc; [discriminate|].
  assert (Hle : (nat_of_ascii c <=? 127)%nat = true
                ∧ Ascii.eqb c "010" = false).
  { destruct (Ascii.eqb_spec c "010") as [->|Hne]; [discriminate Hc|].
    split; [|reflexivity]. unfold bad_char in Hc. cbn zeta in Hc.
    apply negb_false_iff in Hc.
    rewrite !orb_true_iff, !andb_true_iff, !Nat.leb_le, !Nat.eqb_eq in Hc.
    apply Nat.leb_le. lia. }
  destruct Hle as [Hle Hlf]. rewrite Hlf in Hm.
  cbn [bytes_of well_formed]. rewrite Hle. by apply IH.
Qed.

Lemma get_die_name_valid (self : TypeDG) (die : DIE) (name : string)
    (gensym : bool) :
  DW_AT_name die = Some name → is_valid_name name = true →
  _get_die_name self die gensym = Ok (Some name).
Proof.
  intros Hn Hv. unfold _get_die_name. rewrite Hn, (decode_valid name Hv).
  cbn [rbind]. by rewrite Hv.
Qed.

Lemma get_die_name_invalid (self : TypeDG) (die : DIE) (name : string)
    (gensym : bool) :
  DW_AT_name die = Some name → decode name = Ok name →
  is_valid_name name = false →
  _get_die_name self die gensym
  = Raise (ParseError ("invalid C identifier '" +:+ name +:+ "'")).
Proof.
  intros Hn Hd Hv. unfold _get_die_name. rewrite Hn, Hd.
  cbn [rbind]. by rewrite Hv.
Qed.

(** What [_get_die_name] gives for an entry with a name. *)
Lemma get_die_name_named (self : TypeDG) (die : DIE) (value : string)
    (gensym : bool) :
  DW_AT_name die = Some value →
  _get_die_name self die gensym
  = match decode value with
    | Ok _ =>
        if is_valid_name value then Ok (Some value)
        else Raise (ParseError ("invalid C identifier '" +:+ value +:+ "'"))
    | Raise e => Raise e
    end.
Proof.
  intros Hn. unfold _get_die_name. rewrite Hn.
  destruct (decode value) as [name|e] eqn:E; [|reflexivity].
  by apply decode_Ok in E as ->.
Qed.

Section IndexerFacts.
Variable self : TypeDG.

Lemma get_die_name_plain (die : DIE) :
  (∃ name, _get_die_name self die false = Ok name)
  ∨ (∃ msg, _get_die_name self die false = Raise (ParseError msg))
  ∨ _get_die_name self die false = Raise UnicodeDecodeError.
Proof.
  destruct (DW_AT_name die) as [value|] eqn:Hn.
  - rewrite (get_die_name_named self die value false Hn).
    destruct (decode value) as [name|e] eqn:E.
    + destruct (is_valid_name value); eauto.
    + apply decode_raises in E as ->. eauto.
  - unfold _get_die_name. rewrite Hn. eauto.
Qed.

Lemma walk_S (limit : nat) (die : DIE) (names : name_index) :
  walk self (S limit) die names = walk_body self (walk self limit) die names.
Proof. reflexivity. Qed.


(** A naming failure either drops the entry and its subtree or, when the
    name does not decode, ends the traversal. *)
Lemma walk_name_fails (limit : nat) (die : DIE) (names : name_index) :
  name_fails self die = true →
  (∃ msg, _get_die_name self die false = Raise (ParseError msg)
          ∧ walk self (S limit) die names
            = (names, [],
               [PSkippedEntry (tag die) (src_location self die) msg], None))
  ∨ (_get_die_name self die false = Raise UnicodeDecodeError
     ∧ walk self (S limit) die names
       = (names, [], [], Some UnicodeDecodeError)).
Proof.
  unfold name_fails. rewrite walk_S. unfold walk_body.
  destruct (TAGS_for_types (tag die)); [|discriminate].
  destruct (get_die_name_plain die) as [[nm ->] | [[msg ->] | ->]];
    [discriminate | eauto | eauto].
Qed.

(** Otherwise the entry is yielded first, then what its children yield. *)
Lemma walk_recorded (limit : nat) (die : DIE) (names : name_index) :
  name_fails self die = false →
  walk self (S limit) die names
  = match walk_children (walk self limit) (children die)
            (names_after self die names) with
    | (n, ys, ps, r) => (n, (offset die - cu_offset self, die) :: ys, ps, r)
    end.
Proof.
  unfold name_fails, names_after. rewrite walk_S. unfold walk_body.
  destruct (TAGS_for_types (tag die)); [|reflexivity].
  by destruct (_get_die_name self die false) as [nm|[]].
Qed.

(** A traversal that ends without exception. *)
Lemma walk_inv (limit : nat) (die : DIE) (names n : name_index)
    (ps : list (Z * DIE)) (out : list printed) :
  walk self limit die names = (n, ps, out, None) →
  ∃ limit', limit = S limit'
    ∧ ((name_fails self die = true ∧ n = names ∧ ps = [])
       ∨ (name_fails self die = false
          ∧ ∃ ys, walk_children (walk self limit') (children die)
                    (names_after self die names) = (n, ys, out, None)
                  ∧ ps = (offset die - cu_offset self, die) :: ys)).
Proof.
  destruct limit as [|limit']; [discriminate|]. intros E. exists limit'.
  split; [reflexivity|]. destruct (name_fails self die) eqn:Hf.
  - left. destruct (walk_name_fails limit' die names Hf)
      as [(msg & _ & E') | (_ & E')]; rewrite E' in E; [|discriminate].
    by injection E as <- <- _.
  - right. split; [reflexivity|]. rewrite (walk_recorded _ _ _ Hf) in E.
    destruct (walk_children _ _ _) as [[[n' ys] ps'] r] eqn:Ec.
    injection E as <- <- <- ->. by exists ys.
Qed.

Lemma walk_children_inv (walk_rec : DIE → name_index → walked)
    (c : DIE) (cs : list DIE) (names n : name_index)
    (ps : list (Z * DIE)) (out : list printed) :
  walk_children walk_rec (c :: cs) names = (n, ps, out, None) →
  ∃ n1 y1 p1 y2 p2,
    walk_rec c names = (n1, y1, p1, None)
    ∧ walk_children walk_rec cs n1 = (n, y2, p2, None)
    ∧ ps = y1 ++ y2 ∧ out = p1 ++ p2.
Proof.
  cbn [walk_children].
  destruct (walk_rec c names) as [[[n1 y1] p1] [e|]]; [discriminate|].
  destruct (walk_children walk_rec cs n1) as [[[n2 y2] p2] r] eqn:E2.
  intros [= <- <- <- ->]. by exists n1, y1, p1, y2, p2.
Qed.

Lemma walk_children_sound (limit : nat) (cs : list DIE)
    (names n : name_index) (ps : list (Z * DIE)) (out : list printed) :
  walk_sound self limit →
  walk_children (walk self limit) cs names = (n, ps, out, None) →
  (∀ child die, child ∈ cs → reached self child die →
                (offset die - cu_offset self, die) ∈ ps)
  ∧ (∀ k die, (k, die) ∈ ps →
              ∃ child, child ∈ cs ∧ reached self child die
                       ∧ k = offset die - cu_offset self).
Proof.
  intros Hrec. revert names n ps out.
  induction cs as [|c cs IH]; intros names n ps out.
  - intros [= <- <- <-]. split.
    + intros child die Hin. by apply elem_of_nil in Hin.
    + intros k die Hin. by apply elem_of_nil in Hin.
  - intros E. apply walk_children_inv in E
      as (n1 & y1 & p1 & y2 & p2 & E1 & E2 & -> & ->).
    destruct (Hrec _ _ _ _ _ E1) as [Hall1 Honly1].
    destruct (IH _ _ _ _ E2) as [Hall2 Honly2]. split.
    + intros child die Hin Hr. apply elem_of_app.
      apply elem_of_cons in Hin as [-> | Hin]; [left; by apply Hall1|].
      right. by apply (Hall2 child).
    + intros k die Hin. apply elem_of_app in Hin as [Hin | Hin].
      * destruct (Honly1 _ _ Hin) as [Hr ->]. exists c.
        repeat split; [apply elem_of_cons; by left | exact Hr].
      * destruct (Honly2 _ _ Hin) as (child & Hchild & Hr & ->).
        exists child. repeat split; [apply elem_of_cons; by right | exact Hr].
Qed.

Lemma reached_below (top child die : DIE) :
  name_fails self top = false → child ∈ children top →
  reached self child die → reached self top die.
Proof.
  intros Htop Hchild. induction 1 as [Hc | d c Hd IH Hin Hcf].
  - eapply reached_child; [by apply reached_top | exact Hchild | exact Hc].
  - eapply reached_child; [exact IH | exact Hin | exact Hcf].
Qed.

Lemma reached_inv (top die : DIE) :
  reached self top die →
  name_fails self top = false
  ∧ (die = top ∨ ∃ child, child ∈ children top ∧ reached self child die).
Proof.
  induction 1 as [Htop | d c Hd [Htop IH] Hin Hcf]; [by split; [|left]|].
  split; [exact Htop|]. right. destruct IH as [-> | (child & Hchild & Hr)].
  - exists c. split; [exact Hin | by apply reached_top].
  - exists child. split; [exact Hchild|]. by eapply reached_child.
Qed.

Lemma walk_is_sound (limit : nat) : walk_sound self limit.
Proof.
  induction limit as [|limit IH]; intros top names n ps out E;
    [discriminate|].
  apply walk_inv in E as (limit' & [= <-] & [(Hf & -> & ->) | (Hf & ys & Ec & ->)]).
  - split.
    + intros die Hr. apply reached_inv in Hr as [Hr _]. congruence.
    + intros k die Hin. by apply elem_of_nil in Hin.
  - destruct (walk_children_sound _ _ _ _ _ _ IH Ec) as [Hall Honly]. split.
    + intros die Hr. apply elem_of_cons.
      apply reached_inv in Hr as [_ [-> | (child & Hchild & Hr)]];
        [by left | right; by apply (Hall child)].
    + intros k die Hin. apply elem_of_cons in Hin as [[= -> ->] | Hin].
      * split; [by apply reached_top | reflexivity].
      * destruct (Honly _ _ Hin) as (child & Hchild & Hr & ->).
        split; [by eapply reached_below | reflexivity].
Qed.

(** *** Traversals that end without exception *)







Lemma dict_of_pairs_snoc (pairs : list (Z * DIE)) (k : Z) (v : DIE) :
  dict_of_pairs (pairs ++ [(k, v)]) = <[k := v]> (dict_of_pairs pairs).
Proof. unfold dict_of_pairs. by rewrite foldl_app. Qed.

Lemma dict_of_pairs_lookup (pairs : list (Z * DIE)) (k : Z) :
  (∀ v, dict_of_pairs pairs !! k = Some v → (k, v) ∈ pairs)
  ∧ (∀ v, (k, v) ∈ pairs → is_Some (dict_of_pairs pairs !! k)).
Proof.
  induction pairs as [|[k' v'] pairs [IH1 IH2]] using rev_ind.
  - change (dict_of_pairs []) with (∅ : gmap Z DIE).
    split; [intros v; by rewrite lookup_empty|].
    intros v Hin. by apply elem_of_nil in Hin.
  - rewrite dict_of_pairs_snoc. split; intros v.
    + rewrite lookup_insert. case_decide as Hk.
      * intros [= <-]. subst k'. apply elem_of_app. right.
        by apply list_elem_of_singleton.
      * intros Hv. apply elem_of_app. left. by apply IH1.
    + rewrite lookup_insert. intros Hin. case_decide; [by eexists|].
      apply elem_of_app in Hin as [Hin | Hin]; [by eapply IH2|].
      apply list_elem_of_singleton in Hin. congruence.
Qed.
End IndexerFacts.

Lemma name_fails_any_unit (self self' : TypeDG) (die : DIE) :
  name_fails self die = name_fails self' die.
Proof.
  unfold name_fails, _get_die_name. by destruct (DW_AT_name die).
Qed.

Lemma reached_any_unit (self self' : TypeDG) (top die : DIE) :
  reached self top die → reached self' top die.
Proof.
  induction 1 as [Htop | d c Hd IH Hin Hc].
  - apply reached_top. by rewrite (name_fails_any_unit self' self).
  - eapply reached_child; [exact IH | exact Hin |].
    by rewrite (name_fails_any_unit self' self).
Qed.

(** What a constructor that returns has done for a unit in a supported
    language. *)
Lemma init_Ok (limit : nat) (CU : CompileUnit) (out : list printed)
    (self : TypeDG) (language : Z) :
  DW_AT_language (CU_top CU) = Some language →
  language ∈ LANGUAGES →
  __init__ limit CU = (out, Ok self) →
  ∃ names pairs,
    CU_line_program CU = Some (CU_file_entry CU)
    ∧ walk (mkTypeDG (CU_cu_offset CU) (map_seqZ 0 (CU_file_entry CU)) ∅ [])
           limit (CU_top CU) [] = (names, pairs, out, None)
    ∧ self = mkTypeDG (CU_cu_offset CU) (map_seqZ 0 (CU_file_entry CU))
                      (dict_of_pairs pairs) names.
Proof.
  intros Hlang Hsup. unfold __init__, CU_file_entry. rewrite Hlang.
  rewrite bool_decide_eq_true_2 by exact Hsup. cbn [negb].
  destruct (CU_line_program CU) as [file_entry|]; [|discriminate].
  destruct (decode_all file_entry) as [file_names|e] eqn:Ed; [|discriminate].
  apply decode_all_Ok in Ed as ->. cbn [default].
  destruct (walk _ limit (CU_top CU) []) as [[[names pairs] out'] [e|]];
    [discriminate|].
  intros [= <- <-]. by exists names, pairs.
Qed.


Lemma walk_children_raises (walk_rec : DIE → name_index → walked)
    (P : exn → Prop) (cs : list DIE) :
  (∀ c names n ps out e, walk_rec c names = (n, ps, out, Some e) → P e) →
  ∀ names n ps out e,
    walk_children walk_rec cs names = (n, ps, out, Some e) → P e.
Proof.
  intros Hrec. induction cs as [|c cs IH]; intros names n ps out e;
    [discriminate|].
  cbn [walk_children].
  destruct (walk_rec c names) as [[[n1 y1] p1] [e1|]] eqn:E1.
  - intros [= _ _ _ <-]. by eapply Hrec.
  - destruct (walk_children walk_rec cs n1) as [[[n2 y2] p2] r] eqn:E2.
    intros [= _ _ _ ->]. by eapply IH.
Qed.

(** The exceptions that leave [walk]. *)
Lemma walk_raises (self : TypeDG) (limit : nat) (die : DIE)
    (names n : name_index) (ps : list (Z * DIE)) (out : list printed)
    (e : exn) :
  walk self limit die names = (n, ps, out, Some e) →
  e = UnicodeDecodeError ∨ e = RecursionError.
Proof.
  revert die names n ps out e.
  induction limit as [|limit IH]; intros die names n ps out e.
  - intros [= _ _ _ <-]. by right.
  - rewrite walk_S. unfold walk_body.
    assert (Hd : ∀ names0,
      match walk_children (walk self limit) (children die) names0 with
      | (n', ys, ps', r) =>
          (n', (offset die - cu_offset self, die) :: ys, ps', r)
      end = (n, ps, out, Some e) →
      e = UnicodeDecodeError ∨ e = RecursionError).
    { intros names0.
      destruct (walk_children _ _ names0) as [[[n' ys] ps'] r] eqn:Ec.
      intros [= _ _ _ ->].
      by eapply (walk_children_raises (walk self limit)
                   (λ e, e = UnicodeDecodeError ∨ e = RecursionError)). }
    destruct (TAGS_for_types (tag die)); [|apply Hd].
    destruct (get_die_name_plain self die) as [[nm ->] | [[msg ->] | ->]].
    + apply Hd.
    + discriminate.
    + intros [= _ _ _ <-]. by left.
Qed.

(** The exceptions that leave the constructor. *)
Lemma init_raises (limit : nat) (CU : CompileUnit) (out : list printed)
    (e : exn) :
  __init__ limit CU = (out, Raise e) → constructor_exn e.
Proof.
  unfold __init__. destruct (DW_AT_language _); [|by intros [= _ <-]].
  destruct (negb _); [discriminate|].
  destruct (CU_line_program CU) as [file_entry|]; [|by intros [= _ <-]].
  destruct (decode_all file_entry) as [file_names|e'] eqn:Ed.
  - destruct (walk _ limit (CU_top CU) []) as [[[names pairs] out'] [e'|]]
      eqn:Ew; [|discriminate].
    intros [= _ <-]. by apply walk_raises in Ew as [-> | ->].
  - intros [= _ <-]. by apply decode_all_raises in Ed as ->.
Qed.




(** ** The depth argument and the nesting of activations *)

Lemma agree_refl {A} (m : M A) : agree m m.
Proof. by intros s. Qed.

Lemma agree_bind {A B} (m1 m2 : M A) (k1 k2 : A → M B) :
  agree m1 m2 → (∀ a, agree (k1 a) (k2 a)) → agree (bind m1 k1) (bind m2 k2).
Proof.
  intros Hm Hk s. unfold bind. rewrite Hm.
  destruct (m2 s) as [[s1 o1] [a|e]]; [|reflexivity]. by rewrite Hk.
Qed.

Lemma agree_try_except {A} (m1 m2 : M A) (h : exn → M A) :
  agree m1 m2 → agree (try_except m1 h) (try_except m2 h).
Proof. intros Hm s. unfold try_except. by rewrite Hm. Qed.

Section DepthFacts.
Variable self : TypeDG.
Variable track_rec : option DIE → Z → bool → M unit.
Variable gen_decl_call : option DIE → option string → Result (option string).
Hypothesis rec_depth :
  ∀ die d1 d2 mode, agree (track_rec die d1 mode) (track_rec die d2 mode).

Lemma track_params_depth (cs : list DIE) (d1 d2 : Z) :
  agree (track_params self track_rec cs d1) (track_params self track_rec cs d2).
Proof.
  induction cs as [|c cs IH]; [apply agree_refl|]. cbn [track_params].
  destruct (tag c); try exact IH.
  apply agree_bind; [|intros _; exact IH].
  apply agree_try_except, rec_depth.
Qed.

Lemma track_member_depth (child : DIE) (d1 d2 : Z) :
  agree (track_member self track_rec gen_decl_call child d1)
        (track_member self track_rec gen_decl_call child d2).
Proof.
  unfold track_member. destruct (tag child); try apply agree_refl.
  destruct (DW_AT_data_member_location child); [|apply agree_refl].
  apply agree_bind; [apply agree_refl|]. intros mname.
  apply agree_bind; [|intros _; apply agree_refl].
  apply agree_try_except, rec_depth.
Qed.

Lemma track_members_depth (cs : list DIE) (d1 d2 : Z) :
  agree (track_members self track_rec gen_decl_call cs d1)
        (track_members self track_rec gen_decl_call cs d2).
Proof.
  induction cs as [|c cs IH]; [apply agree_refl|]. cbn [track_members].
  apply agree_bind; [apply track_member_depth|]. intros line.
  apply agree_bind; [exact IH|]. intros lines. apply agree_refl.
Qed.

Lemma track_aggregate_depth (die : DIE) (d1 d2 : Z) (mode : bool) :
  agree (track_aggregate self track_rec gen_decl_call die d1 mode)
        (track_aggregate self track_rec gen_decl_call die d2 mode).
Proof.
  unfold track_aggregate. destruct mode; [apply agree_refl|].
  destruct (DW_AT_declaration die); [apply agree_refl|].
  apply agree_bind; [apply agree_refl|]. intros tagname.
  apply agree_bind; [apply agree_refl|]. intros [|]; [apply agree_refl|].
  do 3 (apply agree_bind; [apply agree_refl|]; intros ?).
  apply agree_bind; [apply track_members_depth|]. intros ?. apply agree_refl.
Qed.

Lemma track_kind_depth (die : DIE) (d1 d2 : Z) (mode : bool) :
  agree (track_kind self track_rec gen_decl_call die d1 mode)
        (track_kind self track_rec gen_decl_call die d2 mode).
Proof.
  unfold track_kind.
  destruct (tag die); try apply agree_refl; try apply track_aggregate_depth;
    try (apply agree_bind; [first [apply agree_try_except, rec_depth
                                  | apply rec_depth]
                           | intros _; try apply agree_refl]).
  - apply agree_bind; [apply track_params_depth|]. intros _. apply agree_refl.
  - apply agree_bind; [apply track_params_depth|]. intros _. apply agree_refl.
Qed.

Lemma track_body_depth (die : option DIE) (d1 d2 : Z) (mode : bool) :
  agree (track_body self track_rec gen_decl_call die d1 mode)
        (track_body self track_rec gen_decl_call die d2 mode).
Proof.
  unfold track_body. destruct die as [die|]; [|apply agree_refl].
  apply agree_bind; [apply agree_refl|]. intros is_known.
  destruct (is_mark defined is_known); [apply agree_refl|].
  destruct (is_mark declared is_known && mode); [apply agree_refl|].
  apply agree_bind; [apply track_kind_depth|]. intros fall. apply agree_refl.
Qed.
End DepthFacts.

(** The value of [depth] has no influence on what [track] does. *)
Lemma track_ignores_depth (self : TypeDG) (limit : nat) (die : option DIE)
    (d1 d2 : Z) (mode : bool) :
  agree (track self limit die d1 mode) (track self limit die d2 mode).
Proof.
  revert die d1 d2 mode. induction limit as [|limit IH]; intros die d1 d2 mode.
  - apply agree_refl.
  - rewrite !track_S. by apply track_body_depth.
Qed.

Section ChainFacts.
Variable n : nat.

Lemma chain_lookup (i : nat) :
  (i ≤ n)%nat →
  offset_to_die (Chain.unit n) !! Z.of_nat i = Some (Chain.link n i).
Proof.
  intros Hi. cbn [offset_to_die Chain.unit].
  rewrite lookup_map_seqZ_0 by lia.
  rewrite Nat2Z.id, list_lookup_fmap.
  rewrite lookup_seq_lt by lia. reflexivity.
Qed.

Lemma chain_link_pointer (i : nat) :
  (i < n)%nat →
  tag (Chain.link n i) = DW_TAG_pointer_type
  ∧ _get_type_die (Chain.unit n) (Chain.link n i) = Some (Chain.link n (S i)).
Proof.
  intros Hi. unfold _get_type_die, Chain.link at 1 2.
  rewrite (proj2 (Nat.ltb_lt i n) Hi). cbn [tag DW_AT_type entry].
  split; [reflexivity|]. apply chain_lookup. lia.
Qed.

Lemma chain_link_base : tag (Chain.link n n) = DW_TAG_base_type.
Proof. unfold Chain.link. by rewrite Nat.ltb_irrefl. Qed.

(** With more activations than pointers, the chain is tracked to its end. *)
Lemma chain_completes (k i : nat) (limit : nat) (depth : Z) (mode : bool) :
  (i + k = n)%nat → (k < limit)%nat →
  ∃ shown,
    track (Chain.unit n) limit (Some (Chain.link n i)) depth mode ∅
    = (shown, [], Ok tt).
Proof.
  revert i limit depth mode.
  induction k as [|k IH]; intros i [|limit] depth mode Hik Hlim; try lia.
  - assert (i = n) as -> by lia.
    rewrite track_S, track_body_visit by (by rewrite lookup_empty).
    unfold track_kind, track_final. rewrite chain_link_base.
    eexists. reflexivity.
  - destruct (chain_link_pointer i) as [Htag Hty]; [lia|].
    rewrite track_S, track_body_visit by (by rewrite lookup_empty).
    unfold track_kind, track_final. rewrite Htag, Hty. unfold_M.
    destruct (IH (S i) limit (depth + 1) true) as [shown ->]; [lia..|].
    eexists. reflexivity.
Qed.

(** With no more activations than pointers, the interpreter gives up. *)
Lemma chain_overflows (limit : nat) (k i : nat) (depth : Z) (mode : bool) :
  (i + k = n)%nat → (limit ≤ k)%nat →
  track (Chain.unit n) limit (Some (Chain.link n i)) depth mode ∅
  = (∅, [], Raise RecursionError).
Proof.
  revert k i depth mode.
  induction limit as [|limit IH]; intros k i depth mode Hik Hlim;
    [reflexivity|].
  destruct (chain_link_pointer i) as [Htag Hty]; [lia|].
  rewrite track_S, track_body_visit by (by rewrite lookup_empty).
  unfold track_kind, track_final. rewrite Htag, Hty. unfold_M.
  rewrite (IH (k - 1)%nat (S i) (depth + 1) true) by lia. reflexivity.
Qed.
End ChainFacts.

(** C9 (amended). [track] increments its [depth] argument and never compares
    it with a bound: what it does is the same for every value of [depth].
    The nesting is limited by the interpreter alone: a chain of [n] pointer
    types is tracked to its end when the interpreter grants more than [n]
    nested activations, and ends in the interpreter's [RecursionError], which
    is not a [ParseError], when it grants at most [n]. *)
Theorem track_depth_is_not_bounded (n limit : nat) (depth : Z) (mode : bool) :
  (∀ self die d1 d2 shown,
     track self limit die d1 mode shown = track self limit die d2 mode shown)
  ∧ ((n < limit)%nat →
     ∃ shown, track (Chain.unit n) limit (Some (Chain.link n 0)) depth mode ∅
              = (shown, [], Ok tt))
  ∧ ((limit ≤ n)%nat →
     track (Chain.unit n) limit (Some (Chain.link n 0)) depth mode ∅
     = (∅, [], Raise RecursionError)).
Proof.
  split; [|split].
  - intros self die d1 d2 shown. apply track_ignores_depth.
  - intros Hlim. by apply (chain_completes n n 0).
  - intros Hlim. by apply (chain_overflows n limit n 0).
Qed.

Lemma track_depth_is_not_bounded_witness :
  (∃ shown, track (Chain.unit 150) 200 (Some (Chain.link 150 0)) 0 false ∅
            = (shown, [], Ok tt))
  ∧ track (Chain.unit 150) 100 (Some (Chain.link 150 0)) 0 false ∅
    = (∅, [], Raise RecursionError).
Proof.
  split.
  - apply (proj1 (proj2 (track_depth_is_not_bounded 150 200 0 false))). lia.
  - apply (proj2 (proj2 (track_depth_is_not_bounded 150 100 0 false))). lia.
Defined.

(** C9 fails as worded: no depth is a bound of [track] itself. For every
    candidate bound there is a longer chain that is tracked to its end as
    soon as the interpreter grants enough activations. *)
Lemma no_explicit_depth_bound :
  ¬ ∃ bound : nat, ∀ (n limit : nat) (depth : Z),
      (bound < n)%nat →
      ∃ e, (track (Chain.unit n) limit (Some (Chain.link n 0)) depth false ∅).2
           = Raise e.
Proof.
  intros [bound Hbound].
  destruct (Hbound (S bound) (S (S bound)) 0) as [e He]; [lia|].
  destruct (chain_completes (S bound) (S bound) 0 (S (S bound)) 0 false)
    as [shown E]; [lia..|].
  rewrite E in He. discriminate He.
Qed.

(** ** Monotonicity of the emission state *)

Lemma extends_refl (X : option string → Prop) (shown : shown_t) :
  extends X shown [] shown.
Proof. repeat split; auto. Qed.

Lemma extends_trans (X : option string → Prop)
    (s0 s1 s2 : shown_t) (o1 o2 : list printed) :
  extends X s0 o1 s1 → extends X s1 o2 s2 → extends X s0 (o1 ++ o2) s2.
Proof.
  intros (Hl1 & Hd1 & Hn1) (Hl2 & Hd2 & Hn2). repeat split.
  - intros off. etrans; [apply Hl1 | apply Hl2].
  - intros k Hk. by apply Hd2, Hd1.
  - intros t Ht HX. apply Forall_app. split; [by apply Hn1|].
    apply Hn2; [by apply Hd1 | exact HX].
Qed.

Lemma extends_weaken (X Y : option string → Prop)
    (s s' : shown_t) (o : list printed) :
  (∀ t, X t → Y t) → extends X s o s' → extends Y s o s'.
Proof.
  intros HXY (Hl & Hd & Hn). repeat split; [exact Hl | exact Hd |].
  intros t Ht HY. apply Hn; [exact Ht | intros HX; by apply HY, HXY].
Qed.

Lemma extends_defined (X : option string → Prop)
    (s s' : shown_t) (o : list printed) (die : DIE) :
  extends X s o s' → state_of s die = DEFINED → state_of s' die = DEFINED.
Proof.
  intros (Hl & _ & _) Hdef. specialize (Hl (offset die)).
  unfold state_of in *. rewrite Hdef in Hl.
  destruct (state_at s' (offset die)); cbn in Hl; [lia | lia | reflexivity].
Qed.

Section KeepsRules.
Variable X : option string → Prop.

Lemma keeps_ret {A} (a : A) : keeps X (ret a).
Proof. intros s. apply extends_refl. Qed.

Lemma keeps_lift {A} (r : Result A) : keeps X (lift r).
Proof. intros s. apply extends_refl. Qed.

Lemma keeps_raise {A} (e : exn) : keeps X (raise e : M A).
Proof. intros s. apply extends_refl. Qed.

Lemma keeps_bind {A B} (m : M A) (k : A → M B) :
  keeps X m → (∀ a, keeps X (k a)) → keeps X (bind m k).
Proof.
  intros Hm Hk s. unfold bind. specialize (Hm s).
  destruct (m s) as [[s1 o1] [a|e]]; [|exact Hm].
  specialize (Hk a s1). destruct (k a s1) as [[s2 o2] r].
  by eapply extends_trans.
Qed.

Lemma keeps_try_except {A} (m : M A) (h : exn → M A) :
  keeps X m → (∀ e, keeps X (h e)) → keeps X (try_except m h).
Proof.
  intros Hm Hh s. unfold try_except. specialize (Hm s).
  destruct (m s) as [[s1 o1] [a|e]]; [exact Hm|].
  specialize (Hh e s1). destruct (h e s1) as [[s2 o2] r].
  by eapply extends_trans.
Qed.

Lemma keeps_reraise {A} (prefix : string) (e : exn) :
  keeps X (reraise prefix e : M A).
Proof. destruct e; apply keeps_raise. Qed.

Lemma keeps_get (k : key) : keeps X (shown_get k).
Proof. intros s. apply extends_refl. Qed.

Lemma keeps_has (k : key) : keeps X (shown_has k).
Proof. intros s. apply extends_refl. Qed.

Lemma keeps_print (p : printed) :
  (∀ t, defined_tag p = Some t → X t) → keeps X (print p).
Proof.
  intros Hp s. split; [done|]. split; [done|].
  intros t _ HX. apply Forall_singleton. intros Hd. by apply HX, Hp.
Qed.

Lemma keeps_print_all (l : list printed) :
  Forall (λ p, defined_tag p = None) l → keeps X (print_all l).
Proof.
  induction 1 as [|p l Hp Hl IH]; [apply keeps_ret|]. cbn [print_all].
  apply keeps_bind; [|intros _; exact IH].
  apply keeps_print. intros t. by rewrite Hp.
Qed.

(** Recording a tag name never removes anything. *)
Lemma keeps_set_tag (t : option string) (v : mark) :
  keeps X (shown_set (inr t) v).
Proof.
  intros s. repeat split.
  - intros off. unfold state_at. by rewrite lookup_insert_ne.
  - intros k Hk. rewrite lookup_insert. by case_decide.
  - intros; constructor.
Qed.

Lemma extends_insert_die (s : shown_t) (off : Z) (v : mark) :
  (level (state_at s off) ≤ level (state_at (<[inl off := v]> s) off))%nat →
  extends X s [] (<[inl off := v]> s).
Proof.
  intros Hle. repeat split.
  - intros off'. destruct (decide (off' = off)) as [->|Hne]; [exact Hle|].
    unfold state_at. rewrite lookup_insert_ne by congruence. done.
  - intros k Hk. rewrite lookup_insert. by case_decide.
  - intros; constructor.
Qed.

(** Marking an entry DEFINED is a move up from every state. *)
Lemma keeps_set_defined (die : DIE) : keeps X (shown_set (KDie die) defined).
Proof.
  intros s. apply extends_insert_die.
  unfold state_at at 2. rewrite lookup_insert_eq. cbn [level].
  destruct (state_at s (offset die)); cbn; lia.
Qed.

(** The final state write marks DECLARED only what is not DEFINED. *)
Lemma keeps_final (die : DIE) (decl_only : bool) :
  keeps X (track_final die decl_only).
Proof.
  unfold track_final. destruct decl_only; [|apply keeps_set_defined].
  intros s. unfold bind, shown_get, is_mark. case_bool_decide as Hd.
  - apply extends_refl.
  - cbn. apply extends_insert_die.
    unfold state_at at 2. rewrite lookup_insert_eq. cbn [level].
    unfold state_at. unfold KDie in Hd.
    destruct (s !! inl (offset die)) as [[]|]; cbn; try lia. congruence.
Qed.
End KeepsRules.

Lemma keeps_weaken (X Y : option string → Prop) {A} (m : M A) :
  (∀ t, X t → Y t) → keeps X m → keeps Y m.
Proof.
  intros HXY Hm s. specialize (Hm s). destruct (m s) as [[s' o] r].
  by eapply extends_weaken.
Qed.

(** The branch of a tag name that is not recorded yet may print the
    definition of that tag name, and only of that one. *)
Lemma keeps_unless_recorded {A} (t : option string) (m : M (option A)) :
  keeps (λ t', t' = t) m →
  keeps no_tag (run present <- shown_has (inr t);
                if present then ret None else m).
Proof.
  intros Hm s. unfold bind, shown_has. case_bool_decide as Hp.
  - apply extends_refl.
  - specialize (Hm s). destruct (m s) as [[s' o] r].
    destruct Hm as (Hl & Hd & Hn). repeat split; [exact Hl | exact Hd |].
    intros t' Ht' _. apply Hn; [exact Ht'|]. intros ->. contradiction.
Qed.

Ltac keeps_step :=
  first
    [ apply keeps_ret | apply keeps_lift | apply keeps_raise
    | apply keeps_get | apply keeps_has | apply keeps_set_tag
    | apply keeps_set_defined | apply keeps_final | apply keeps_reraise
    | apply keeps_print; intros ?; first [discriminate | by intros [= <-]]
    | apply keeps_bind; [|intros ?]
    | apply keeps_try_except; [|intros ?] ].

Section TrackKeeps.
Variable self : TypeDG.
Variable track_rec : option DIE → Z → bool → M unit.
Variable gen_decl_call : option DIE → option string → Result (option string).
Hypothesis rec_keeps :
  ∀ die depth mode, keeps no_tag (track_rec die depth mode).

Lemma rec_keeps_any (X : option string → Prop) die depth mode :
  keeps X (track_rec die depth mode).
Proof. eapply keeps_weaken; [|apply rec_keeps]. intros t []. Qed.

Lemma track_params_keeps (X : option string → Prop) (cs : list DIE) (depth : Z) :
  keeps X (track_params self track_rec cs depth).
Proof.
  induction cs as [|c cs IH]; [apply keeps_ret|]. cbn [track_params].
  destruct (tag c); try exact IH.
  apply keeps_bind; [|intros _; exact IH].
  apply keeps_try_except; [apply rec_keeps_any | intros e; apply keeps_reraise].
Qed.

Lemma member_failed_keeps (X : option string → Prop) {A}
    (mtype : option DIE) (mname : option string) (e : exn) :
  keeps X (member_failed mtype mname e : M A).
Proof. destruct e, mtype; apply keeps_raise. Qed.

Lemma track_member_keeps (X : option string → Prop) (child : DIE) (depth : Z) :
  keeps X (track_member self track_rec gen_decl_call child depth).
Proof.
  unfold track_member. destruct (tag child); try apply keeps_ret.
  destruct (DW_AT_data_member_location child); [|apply keeps_ret].
  repeat first [apply rec_keeps_any | apply member_failed_keeps | keeps_step].
Qed.

Lemma track_members_keeps (X : option string → Prop) (cs : list DIE) (depth : Z) :
  keeps X (track_members self track_rec gen_decl_call cs depth).
Proof.
  induction cs as [|c cs IH]; [apply keeps_ret|]. cbn [track_members].
  apply keeps_bind; [apply track_member_keeps|]. intros line.
  apply keeps_bind; [exact IH|]. intros lines. apply keeps_ret.
Qed.

Lemma track_aggregate_keeps (die : DIE) (depth : Z) (mode : bool) :
  keeps no_tag (track_aggregate self track_rec gen_decl_call die depth mode).
Proof.
  unfold track_aggregate. destruct mode; [repeat keeps_step|].
  destruct (DW_AT_declaration die); [apply keeps_ret|].
  apply keeps_bind; [apply keeps_lift|]. intros tagname.
  apply keeps_unless_recorded.
  repeat first [apply track_members_keeps | keeps_step].
  destruct a2 as [|m ms].
  - destruct (0 <? a1)%Z; keeps_step.
  - apply keeps_print_all, Forall_forall. intros p Hp.
    apply list_elem_of_fmap in Hp as (line & -> & _). reflexivity.
Qed.

Lemma track_enumeration_type_keeps (die : DIE) :
  keeps no_tag (track_enumeration_type self gen_decl_call die).
Proof.
  unfold track_enumeration_type.
  apply keeps_bind; [apply keeps_lift|]. intros tagname.
  apply keeps_unless_recorded. repeat keeps_step.
Qed.

Lemma track_kind_keeps (die : DIE) (depth : Z) (mode : bool) :
  keeps no_tag (track_kind self track_rec gen_decl_call die depth mode).
Proof.
  unfold track_kind.
  destruct (tag die);
    first [ apply track_aggregate_keeps | apply track_enumeration_type_keeps
          | repeat first [apply rec_keeps_any | apply track_params_keeps
                         | keeps_step] ].
Qed.

Lemma track_body_keeps (die : option DIE) (depth : Z) (mode : bool) :
  keeps no_tag (track_body self track_rec gen_decl_call die depth mode).
Proof.
  unfold track_body. destruct die as [die|]; [|apply keeps_ret].
  apply keeps_bind; [apply keeps_get|]. intros is_known.
  destruct (is_mark defined is_known); [apply keeps_ret|].
  destruct (is_mark declared is_known && mode); [apply keeps_ret|].
  apply keeps_bind; [apply track_kind_keeps|].
  intros [decl_only|]; [apply keeps_final | apply keeps_ret].
Qed.
End TrackKeeps.

(** Every call of [track] extends the dictionary, also when it raises. *)
Lemma track_keeps (self : TypeDG) (limit : nat) (die : option DIE)
    (depth : Z) (mode : bool) :
  keeps no_tag (track self limit die depth mode).
Proof.
  revert die depth mode. induction limit as [|limit IH]; intros die depth mode.
  - apply keeps_raise.
  - rewrite track_S. by apply track_body_keeps.
Qed.

Lemma track_calls_extends (self : TypeDG) (calls : list call) (shown : shown_t) :
  extends no_tag shown (track_calls self calls shown).2
          (track_calls self calls shown).1.
Proof.
  revert shown. induction calls as [|c calls IH]; intros shown.
  - apply extends_refl.
  - cbn [track_calls].
    pose proof (track_keeps self (call_limit c) (call_die c) (call_depth c)
                  (call_mode c) shown) as Hc.
    destruct (track self _ _ _ _ shown) as [[s1 o1] r1].
    specialize (IH s1). destruct (track_calls self calls s1) as [s2 o2].
    by eapply extends_trans.
Qed.

Lemma no_definitions (t : string) (out : list printed) :
  Forall (λ p, defined_tag p ≠ Some (Some t)) out → definitions_of t out = [].
Proof.
  unfold definitions_of. induction 1 as [|p out Hp Hout IH]; [reflexivity|].
  by rewrite filter_cons_False.
Qed.

(** C2. Under any sequence of calls of [track] on one dictionary, raising or
    not, no entry moves down in the order UNSEEN, DECLARED, DEFINED (an entry
    that is DEFINED stays DEFINED), and for a tag name that the dictionary
    records, the calls print no full definition, whatever entry carries the
    name; the name stays recorded. *)
Theorem emission_state_is_monotonic (self : TypeDG) (calls : list call)
    (shown : shown_t) :
  (∀ die, (level (state_of shown die)
           ≤ level (state_of (track_calls self calls shown).1 die))%nat)
  ∧ (∀ die, state_of shown die = DEFINED →
            state_of (track_calls self calls shown).1 die = DEFINED)
  ∧ (∀ t, is_Some (shown !! KTag t) →
          is_Some ((track_calls self calls shown).1 !! KTag t)
          ∧ definitions_of t (track_calls self calls shown).2 = []).
Proof.
  destruct (track_calls_extends self calls shown) as (Hl & Hd & Hn).
  split; [|split].
  - intros die. apply Hl.
  - intros die Hdef.
    by eapply extends_defined; [apply track_calls_extends|].
  - intros t Ht. split; [by apply Hd|].
    apply no_definitions, Hn; [exact Ht | intros []].
Qed.

(** After the first [node] is defined, tracking its twin prints nothing. *)
Lemma emission_state_is_monotonic_witness :
  let shown1 := (track Twins.unit 3 (Some Twins.node_a) 0 false ∅).1.1 in
  state_of shown1 Twins.node_a = DEFINED
  ∧ is_Some (shown1 !! KTag "node")
  ∧ state_of (track_calls Twins.unit [mkCall 3 (Some Twins.node_b) 0 false;
                                      mkCall 3 (Some Twins.node_a) 0 true]
                          shown1).1 Twins.node_a = DEFINED
  ∧ definitions_of "node"
      (track_calls Twins.unit [mkCall 3 (Some Twins.node_b) 0 false;
                               mkCall 3 (Some Twins.node_a) 0 true]
                   shown1).2 = [].
Proof.
  intros shown1.
  assert (Hdef : state_of shown1 Twins.node_a = DEFINED) by (vm_compute; reflexivity).
  assert (Htag : is_Some (shown1 !! KTag "node")) by (vm_compute; eauto).
  destruct (emission_state_is_monotonic Twins.unit
              [mkCall 3 (Some Twins.node_b) 0 false;
               mkCall 3 (Some Twins.node_a) 0 true] shown1)
    as (_ & Hstay & Hnone).
  split; [exact Hdef|]. split; [exact Htag|].
  split; [exact (Hstay _ Hdef) | exact (proj2 (Hnone _ Htag))].
Defined.

(** ** Units built by the indexer *)

Lemma init_well_indexed (limit : nat) (CU : CompileUnit) (out : list printed)
    (self : TypeDG) :
  __init__ limit CU = (out, Ok self) → well_indexed self.
Proof.
  unfold __init__. destruct (DW_AT_language (CU_top CU)) as [language|];
    [|discriminate].
  destruct (negb (bool_decide (language ∈ LANGUAGES))).
  { intros [= _ <-] k die Hk. cbn [offset_to_die] in Hk.
    by rewrite lookup_empty in Hk. }
  destruct (CU_line_program CU) as [file_entry|]; [|discriminate].
  destruct (decode_all file_entry) as [file_names|e]; [|discriminate].
  set (self0 := mkTypeDG (CU_cu_offset CU) (map_seqZ 0 file_names) ∅ []).
  destruct (walk self0 limit (CU_top CU) [])
    as [[[names pairs] out'] [e|]] eqn:Ew; [discriminate|].
  destruct (walk_is_sound _ limit _ _ _ _ _ Ew) as [Hall Honly].
  intros [= _ <-] k die Hk. cbn [offset_to_die cu_offset] in *.
  apply (proj1 (dict_of_pairs_lookup pairs k)), Honly in Hk as [Hr ->].
  split; [reflexivity|].
  rewrite (name_fails_any_unit _ self0).
  destruct Hr as [Hf | d c _ _ Hf]; exact Hf.
Qed.

Section WellIndexed.
Variable self : TypeDG.
Hypothesis Hwf : well_indexed self.

Lemma type_die_indexed (die target : DIE) :
  _get_type_die self die = Some target → indexed self target.
Proof.
  unfold _get_type_die, indexed. destruct (DW_AT_type die) as [v|]; [|done].
  intros Hv. destruct (Hwf _ _ Hv) as [-> _]. exact Hv.
Qed.

Lemma indexed_same_offset (d1 d2 : DIE) :
  indexed self d1 → indexed self d2 → offset d1 = offset d2 → d1 = d2.
Proof. unfold indexed. intros H1 H2 E. rewrite E in H1. congruence. Qed.

(** The tag name of an indexed aggregate: its valid name, or a synthetic one. *)
Lemma aggregate_tag_name (die : DIE) :
  indexed self die → is_aggregate (tag die) = true →
  ∃ stem tagname,
    TAGS_for_types (tag die) = Some (Some stem)
    ∧ _get_die_name self die true = Ok (Some tagname).
Proof.
  intros Hi Ha. destruct (Hwf _ _ Hi) as [_ Hf].
  unfold name_fails in Hf.
  destruct (DW_AT_name die) as [value|] eqn:Hn.
  - rewrite (get_die_name_named self die value false Hn) in Hf.
    rewrite (get_die_name_named self die value true Hn).
    destruct (tag die); try discriminate; cbn in Hf |- *;
      destruct (decode value); try discriminate;
      destruct (is_valid_name value); try discriminate; eauto.
  - unfold _get_die_name, _get_stem. rewrite Hn.
    destruct (tag die); try discriminate; cbn; eauto.
Qed.
End WellIndexed.

(** ** Pointers and forward declarations *)

Lemma unseen_is_unmarked (shown : shown_t) (die : DIE) :
  state_of shown die = UNSEEN →
  is_mark defined (shown !! KDie die) = false
  ∧ is_mark declared (shown !! KDie die) = false.
Proof.
  unfold state_of, state_at, KDie, is_mark.
  destruct (shown !! inl (offset die)) as [[]|]; try discriminate;
    intros _; split; by apply bool_decide_eq_false_2.
Qed.

Section PointerFacts.
Variable self : TypeDG.

(** An aggregate that is not marked yet, tracked in allow-incomplete mode:
    one forward declaration, and the entry becomes DECLARED. *)
Lemma track_forward_declares (n : nat) (die : DIE) (depth : Z)
    (shown : shown_t) (stem tagname : string) :
  is_aggregate (tag die) = true →
  TAGS_for_types (tag die) = Some (Some stem) →
  _get_die_name self die true = Ok (Some tagname) →
  state_of shown die = UNSEEN →
  track self (S (S n)) (Some die) depth true shown
  = (<[KDie die := declared]> shown,
     [PForward (stem +:+ " " +:+ tagname)], Ok tt).
Proof.
  intros Hagg Hstem Hname Hunseen.
  destruct (unseen_is_unmarked _ _ Hunseen) as [Hdef Hdecl].
  rewrite track_S, track_body_visit by (by rewrite ?Hdef, ?Hdecl).
  assert (Hdecl_text : gen_decl self (S n) (Some die) None
                       = Ok (Some (stem +:+ " " +:+ tagname))).
  { apply gen_decl_tagged; [| |exact Hstem|exact Hname];
      by destruct (tag die). }
  unfold track_kind, track_aggregate, track_final.
  destruct (tag die); try discriminate;
    unfold_M; rewrite Hdecl_text; cbn beta iota zeta delta [as_str];
    rewrite Hdef; reflexivity.
Qed.

(** A pointer that is not marked yet, to such an aggregate. *)
Lemma track_pointer_to_unseen (n : nat) (ptr pointee : DIE) (depth : Z)
    (mode : bool) (shown : shown_t) (stem tagname : string) :
  tag ptr = DW_TAG_pointer_type →
  _get_type_die self ptr = Some pointee →
  is_aggregate (tag pointee) = true →
  TAGS_for_types (tag pointee) = Some (Some stem) →
  _get_die_name self pointee true = Ok (Some tagname) →
  state_of shown pointee = UNSEEN →
  state_of shown ptr = UNSEEN →
  track self (S (S (S n))) (Some ptr) depth mode shown
  = (<[KDie ptr := defined]> (<[KDie pointee := declared]> shown),
     [PForward (stem +:+ " " +:+ tagname)], Ok tt).
Proof.
  intros Htag Hty Hagg Hstem Hname Hunseen Hptr.
  destruct (unseen_is_unmarked _ _ Hptr) as [Hdef Hdecl].
  rewrite track_S, track_body_visit by (by rewrite ?Hdef, ?Hdecl).
  unfold track_kind, track_final. rewrite Htag, Hty. unfold_M.
  by rewrite (track_forward_declares n pointee (depth + 1) shown stem tagname).
Qed.
End PointerFacts.

Lemma state_of_insert_tag (shown : shown_t) (t : option string) (v : mark)
    (die : DIE) :
  state_of (<[(inr t : key) := v]> shown) die = state_of shown die.
Proof. unfold state_of, state_at. by rewrite lookup_insert_ne. Qed.

Lemma state_of_insert_die (shown : shown_t) (d die : DIE) (v : mark) :
  state_of (<[KDie d := v]> shown) die
  = if decide (offset d = offset die)
    then match v with
         | defined => DEFINED
         | declared => DECLARED
         | owner _ => UNSEEN
         end
    else state_of shown die.
Proof.
  unfold state_of, state_at, KDie. rewrite lookup_insert.
  destruct (decide (offset d = offset die)) as [E|NE].
  - rewrite decide_True by congruence. by destruct v.
  - rewrite decide_False by congruence. done.
Qed.

Section Settled.
Variable self : TypeDG.
Hypothesis Hwf : well_indexed self.

Lemma settles_ret {A} (a : A) : settles self (ret a).
Proof. by intros s. Qed.

Lemma settles_lift {A} (r : Result A) : settles self (lift r).
Proof. by intros s. Qed.

Lemma settles_raise {A} (e : exn) : settles self (raise e : M A).
Proof. by intros s. Qed.

Lemma settles_print (p : printed) : settles self (print p).
Proof. by intros s. Qed.

Lemma settles_get (k : key) : settles self (shown_get k).
Proof. by intros s. Qed.

Lemma settles_has (k : key) : settles self (shown_has k).
Proof. by intros s. Qed.

Lemma settles_bind {A B} (m : M A) (k : A → M B) :
  settles self m → (∀ a, settles self (k a)) → settles self (bind m k).
Proof.
  intros Hm Hk s Hs. unfold bind. specialize (Hm s Hs).
  destruct (m s) as [[s1 o1] [a|e]]; [|exact Hm].
  specialize (Hk a s1 Hm). by destruct (k a s1) as [[s2 o2] r].
Qed.

Lemma settles_try_except {A} (m : M A) (h : exn → M A) :
  settles self m → (∀ e, settles self (h e)) → settles self (try_except m h).
Proof.
  intros Hm Hh s Hs. unfold try_except. specialize (Hm s Hs).
  destruct (m s) as [[s1 o1] [a|e]]; [exact Hm|].
  specialize (Hh e s1 Hm). by destruct (h e s1) as [[s2 o2] r].
Qed.

Lemma settles_reraise {A} (prefix : string) (e : exn) :
  settles self (reraise prefix e : M A).
Proof. destruct e; apply settles_raise. Qed.

Lemma settles_print_all (l : list printed) : settles self (print_all l).
Proof.
  induction l as [|p l IH]; [apply settles_ret|]. cbn [print_all].
  apply settles_bind; [apply settles_print | intros _; exact IH].
Qed.

Lemma settles_set_tag (t : option string) (v : mark) :
  settles self (shown_set (inr t) v).
Proof.
  intros s Hs ptr Hi Hp. cbn. rewrite state_of_insert_tag.
  destruct (Hs ptr Hi Hp) as [Hnd Hdef]. split; [exact Hnd|].
  intros Hd pointee Hty Hagg. rewrite state_of_insert_tag. by apply Hdef.
Qed.

(** Marking an entry that is not a pointer. *)
Lemma settled_insert (shown : shown_t) (die : DIE) (v : mark) :
  pointers_settled self shown → indexed self die →
  tag die ≠ DW_TAG_pointer_type → v = declared ∨ v = defined →
  pointers_settled self (<[KDie die := v]> shown).
Proof.
  intros Hs Hdie Htag Hv ptr Hi Hp.
  assert (Hne : offset die ≠ offset ptr).
  { intros E. apply Htag. by rewrite (indexed_same_offset self die ptr). }
  rewrite state_of_insert_die, decide_False by exact Hne.
  destruct (Hs ptr Hi Hp) as [Hnd Hdef]. split; [exact Hnd|].
  intros Hd pointee Hty Hagg. rewrite state_of_insert_die.
  case_decide; [by destruct Hv as [-> | ->] | by apply Hdef].
Qed.

Lemma settles_set_defined (die : DIE) :
  indexed self die → tag die ≠ DW_TAG_pointer_type →
  settles self (shown_set (KDie die) defined).
Proof. intros Hi Ht s Hs. apply settled_insert; auto. Qed.

Lemma settles_final (die : DIE) (decl_only : bool) :
  indexed self die → tag die ≠ DW_TAG_pointer_type →
  settles self (track_final die decl_only).
Proof.
  intros Hi Ht. unfold track_final.
  destruct decl_only; [|by apply settles_set_defined].
  apply settles_bind; [apply settles_get|]. intros now.
  destruct (is_mark defined now); [apply settles_ret|].
  intros s Hs. apply settled_insert; auto.
Qed.
End Settled.

Ltac settles_step :=
  first
    [ apply settles_ret | apply settles_lift | apply settles_raise
    | apply settles_get | apply settles_has | apply settles_set_tag
    | apply settles_print | apply settles_print_all | apply settles_reraise
    | apply settles_bind; [|intros ?]
    | apply settles_try_except; [|intros ?] ].

Section TrackSettles.
Variable self : TypeDG.
Hypothesis Hwf : well_indexed self.
Variable track_rec : option DIE → Z → bool → M unit.
Variable gen_decl_call : option DIE → option string → Result (option string).
Hypothesis rec_settles :
  ∀ die depth mode, (∀ d, die = Some d → indexed self d) →
                    settles self (track_rec die depth mode).
Hypothesis rec_marks :
  ∀ pointee depth shown,
    is_aggregate (tag pointee) = true →
    (track_rec (Some pointee) depth true shown).2 = Ok tt →
    state_of (track_rec (Some pointee) depth true shown).1.1 pointee ≠ UNSEEN.

Lemma rec_type_settles (die : DIE) (depth : Z) (mode : bool) :
  settles self (track_rec (_get_type_die self die) depth mode).
Proof. apply rec_settles. intros d Hd. by eapply type_die_indexed. Qed.

Lemma track_params_settles (cs : list DIE) (depth : Z) :
  settles self (track_params self track_rec cs depth).
Proof.
  induction cs as [|c cs IH]; [apply settles_ret|]. cbn [track_params].
  destruct (tag c); try exact IH.
  apply settles_bind; [|intros _; exact IH].
  apply settles_try_except; [apply rec_type_settles|].
  intros e. apply settles_reraise.
Qed.

Lemma member_failed_settles {A} (mtype : option DIE) (mname : option string)
    (e : exn) :
  settles self (member_failed mtype mname e : M A).
Proof. destruct e, mtype; apply settles_raise. Qed.

Lemma track_member_settles (child : DIE) (depth : Z) :
  settles self (track_member self track_rec gen_decl_call child depth).
Proof.
  unfold track_member. destruct (tag child); try apply settles_ret.
  destruct (DW_AT_data_member_location child); [|apply settles_ret].
  repeat first [apply rec_type_settles | apply member_failed_settles
               | settles_step].
Qed.

Lemma track_members_settles (cs : list DIE) (depth : Z) :
  settles self (track_members self track_rec gen_decl_call cs depth).
Proof.
  induction cs as [|c cs IH]; [apply settles_ret|]. cbn [track_members].
  apply settles_bind; [apply track_member_settles|]. intros line.
  apply settles_bind; [exact IH|]. intros lines. apply settles_ret.
Qed.

Lemma track_aggregate_settles (die : DIE) (depth : Z) (mode : bool) :
  indexed self die → tag die ≠ DW_TAG_pointer_type →
  settles self (track_aggregate self track_rec gen_decl_call die depth mode).
Proof.
  intros Hi Hnp. unfold track_aggregate. destruct mode; [repeat settles_step|].
  destruct (DW_AT_declaration die); [apply settles_ret|].
  apply settles_bind; [apply settles_lift|]. intros tagname.
  apply settles_bind; [apply settles_has|]. intros [|]; [apply settles_ret|].
  repeat first [apply track_members_settles
               | by apply settles_set_defined
               | settles_step].
  destruct a2; [destruct (0 <? a1)%Z|]; settles_step.
Qed.

Lemma track_enumeration_type_settles (die : DIE) :
  settles self (track_enumeration_type self gen_decl_call die).
Proof.
  unfold track_enumeration_type.
  apply settles_bind; [apply settles_lift|]. intros tagname.
  apply settles_bind; [apply settles_has|]. intros [|]; [apply settles_ret|].
  repeat settles_step.
Qed.

Lemma track_kind_settles (die : DIE) (depth : Z) (mode : bool) :
  indexed self die → tag die ≠ DW_TAG_pointer_type →
  settles self (track_kind self track_rec gen_decl_call die depth mode).
Proof.
  intros Hi Hnp. unfold track_kind.
  destruct (tag die) eqn:Htag; try congruence;
    first [ apply track_aggregate_settles; [exact Hi | by rewrite Htag]
          | apply track_enumeration_type_settles
          | repeat first [apply rec_type_settles | apply track_params_settles
                         | settles_step] ].
Qed.

Lemma track_body_settles (die : option DIE) (depth : Z) (mode : bool) :
  (∀ d, die = Some d → indexed self d) →
  settles self (track_body self track_rec gen_decl_call die depth mode).
Proof.
  intros Hi. unfold track_body. destruct die as [die|]; [|apply settles_ret].
  specialize (Hi die eq_refl).
  apply settles_bind; [apply settles_get|]. intros is_known. cbn zeta.
  destruct (is_mark defined is_known); [apply settles_ret|].
  destruct (is_mark declared is_known && mode); [apply settles_ret|].
  destruct (decide (tag die = DW_TAG_pointer_type)) as [Hp|Hnp].
  - unfold track_kind. rewrite Hp. intros s Hs. unfold_M.
    pose proof (rec_type_settles die (depth + 1) true s Hs) as Hs1.
    pose proof (λ P, rec_marks P (depth + 1) s) as Hmark.
    destruct (_get_type_die self die) as [pointee|] eqn:Hty.
    + specialize (Hmark pointee).
      destruct (track_rec (Some pointee) (depth + 1) true s)
        as [[s1 o1] [[]|e]]; [|by destruct e].
      cbn in Hs1, Hmark |- *. intros ptr Hptr Htag.
      rewrite state_of_insert_die. case_decide as Hoff.
      * split; [done|]. intros _ P HP Hagg.
        assert (ptr = die) as -> by (by eapply indexed_same_offset).
        assert (P = pointee) as -> by congruence.
        rewrite state_of_insert_die. case_decide; [done|]. by apply Hmark.
      * destruct (Hs1 ptr Hptr Htag) as [Hnd Hdef]. split; [exact Hnd|].
        intros Hd P HP Hagg. rewrite state_of_insert_die.
        case_decide; [done | by apply Hdef].
    + destruct (track_rec None (depth + 1) true s)
        as [[s1 o1] [[]|e]]; [|by destruct e].
      cbn in Hs1 |- *. intros ptr Hptr Htag.
      rewrite state_of_insert_die. case_decide as Hoff.
      * split; [done|]. intros _ P HP Hagg.
        assert (ptr = die) as -> by (by eapply indexed_same_offset).
        congruence.
      * destruct (Hs1 ptr Hptr Htag) as [Hnd Hdef]. split; [exact Hnd|].
        intros Hd P HP Hagg. rewrite state_of_insert_die.
        case_decide; [done | by apply Hdef].
  - apply settles_bind; [by apply track_kind_settles|].
    intros [decl_only|]; [by apply settles_final | apply settles_ret].
Qed.
End TrackSettles.

(** A normal return from tracking an aggregate in allow-incomplete mode
    leaves it DECLARED or DEFINED. *)
Lemma track_incomplete_marks (self : TypeDG) (limit : nat) (pointee : DIE)
    (depth : Z) (shown : shown_t) :
  is_aggregate (tag pointee) = true →
  (track self limit (Some pointee) depth true shown).2 = Ok tt →
  state_of (track self limit (Some pointee) depth true shown).1.1 pointee
  ≠ UNSEEN.
Proof.
  intros Hagg. destruct limit as [|limit]; [discriminate|].
  rewrite track_S.
  destruct (is_mark defined (shown !! KDie pointee)) eqn:Hdef.
  { rewrite track_body_settled by (by rewrite Hdef). intros _.
    unfold state_of, state_at. apply bool_decide_eq_true_1 in Hdef.
    unfold KDie in Hdef. cbn [fst]. by rewrite Hdef. }
  destruct (is_mark declared (shown !! KDie pointee)) eqn:Hdecl.
  { rewrite track_body_settled by (by rewrite Hdecl, orb_true_r). intros _.
    unfold state_of, state_at. apply bool_decide_eq_true_1 in Hdecl.
    unfold KDie in Hdecl. cbn [fst]. by rewrite Hdecl. }
  rewrite track_body_visit by (by rewrite ?Hdef, ?Hdecl).
  unfold track_kind, track_aggregate, track_final.
  destruct (tag pointee); try discriminate;
    unfold_M;
    (destruct (gen_decl self limit (Some pointee) None) as [[d|]|e];
       [|discriminate..]);
    cbn beta iota zeta delta [as_str]; rewrite Hdef; intros _; cbn [fst];
    by rewrite state_of_insert_die, decide_True.
Qed.

(** [track] on an entry of the unit keeps the pointers settled. *)
Lemma track_settles (self : TypeDG) (limit : nat) (die : option DIE)
    (depth : Z) (mode : bool) :
  well_indexed self →
  (∀ d, die = Some d → indexed self d) →
  settles self (track self limit die depth mode).
Proof.
  intros Hwf. revert die depth mode.
  induction limit as [|limit IH]; intros die depth mode Hi.
  - apply settles_raise.
  - rewrite track_S. apply track_body_settles; [exact Hwf | exact IH | | exact Hi].
    intros pointee d s. apply track_incomplete_marks.
Qed.

Lemma reachable_settled (self : TypeDG) (shown : shown_t) :
  well_indexed self → reachable self shown → pointers_settled self shown.
Proof.
  intros Hwf. induction 1 as [|s limit die depth mode _ IH Hi].
  - intros ptr _ _. unfold state_of, state_at. by rewrite lookup_empty.
  - by apply track_settles.
Qed.

(** C4. In a unit built by the indexer and a dictionary that [track] has
    produced, tracking a pointer entry whose pointee is a structure, class or
    union that is neither DECLARED nor DEFINED prints exactly one item, the
    forward declaration of the pointee's tag, hence no full definition, and
    leaves the pointee DECLARED and the pointer DEFINED. *)
Theorem pointer_forward_declares_once (limit : nat) (CU : CompileUnit)
    (out0 : list printed) (self : TypeDG) (n : nat) (ptr pointee : DIE)
    (depth : Z) (mode : bool) (shown : shown_t) :
  __init__ limit CU = (out0, Ok self) →
  reachable self shown →
  indexed self ptr →
  tag ptr = DW_TAG_pointer_type →
  _get_type_die self ptr = Some pointee →
  is_aggregate (tag pointee) = true →
  state_of shown pointee = UNSEEN →
  ∃ stem tagname shown' out,
    TAGS_for_types (tag pointee) = Some (Some stem)
    ∧ _get_die_name self pointee true = Ok (Some tagname)
    ∧ track self (3 + n) (Some ptr) depth mode shown = (shown', out, Ok tt)
    ∧ out = [PForward (stem +:+ " " +:+ tagname)]
    ∧ forward_declarations out = [PForward (stem +:+ " " +:+ tagname)]
    ∧ (∀ t, definitions_of t out = [])
    ∧ state_of shown' pointee = DECLARED
    ∧ state_of shown' ptr = DEFINED.
Proof.
  intros Hinit Hreach Hptr Htag Hty Hagg Hunseen.
  pose proof (init_well_indexed _ _ _ _ Hinit) as Hwf.
  pose proof (type_die_indexed self Hwf _ _ Hty) as Hpointee.
  destruct (aggregate_tag_name self Hwf pointee Hpointee Hagg)
    as (stem & tagname & Hstem & Hname).
  assert (Hfresh : state_of shown ptr = UNSEEN).
  { destruct (reachable_settled self shown Hwf Hreach ptr Hptr Htag)
      as [Hnd Hdef].
    destruct (state_of shown ptr) eqn:E; [reflexivity | done |].
    exfalso. by apply (Hdef eq_refl pointee). }
  assert (Hne : offset ptr ≠ offset pointee).
  { intros E. rewrite (indexed_same_offset self ptr pointee) in Htag by done.
    by rewrite Htag in Hagg. }
  exists stem, tagname. eexists _, _.
  split; [exact Hstem|]. split; [exact Hname|].
  split; [by apply track_pointer_to_unseen|].
  split; [reflexivity|]. split; [reflexivity|]. split; [reflexivity|].
  rewrite !state_of_insert_die.
  rewrite (decide_False (P := offset ptr = offset pointee)) by exact Hne.
  by rewrite !decide_True.
Qed.

Lemma pointer_forward_declares_once_witness :
  ∃ shown',
    track Pointee.unit 3 (Some Pointee.t_ptr) 0 false ∅
    = (shown', [PForward "struct node"], Ok tt)
    ∧ state_of shown' Pointee.t_node = DECLARED.
Proof.
  destruct (pointer_forward_declares_once 100 Pointee.CU [] Pointee.unit 0
              Pointee.t_ptr Pointee.t_node 0 false ∅)
    as (stem & tagname & shown' & out & Hstem & Hname & Htrack & -> & _ & _
        & Hdecl & _).
  - vm_compute. reflexivity.
  - apply reachable_empty.
  - vm_compute. reflexivity.
  - reflexivity.
  - vm_compute. reflexivity.
  - reflexivity.
  - vm_compute. reflexivity.
  - injection Hstem as <-. injection Hname as <-.
    exists shown'. split; [exact Htrack | exact Hdecl].
Defined.

(** ** Self-referential aggregates *)

Lemma print_all_run (l : list printed) (shown : shown_t) :
  print_all l shown = (shown, l, Ok tt).
Proof.
  induction l as [|p l IH]; [reflexivity|].
  cbn [print_all]. unfold bind, print. by rewrite IH.
Qed.

Section SelfReference.
Variable self : TypeDG.
Variables (aggregate : DIE) (stem tagname : string).
Hypothesis Hagg : is_aggregate (tag aggregate) = true.
Hypothesis Hstem : TAGS_for_types (tag aggregate) = Some (Some stem).
Hypothesis Hname : _get_die_name self aggregate true = Ok (Some tagname).














(** The call on the aggregate itself: the tag name and the entry are marked
    first, the member loop runs on the dictionary so marked, and the
    definition is printed after the loop, or the exception of the loop
    leaves the call. *)
Lemma track_aggregate_runs (m : nat) (size depth : Z) (shown : shown_t) :
  DW_AT_declaration aggregate = false →
  DW_AT_byte_size aggregate = Some size →
  state_of shown aggregate ≠ DEFINED →
  shown !! KTag tagname = None →
  track self (S (S m)) (Some aggregate) depth false shown
  = match track_members self (track self (S m)) (gen_decl self (S m))
            (children aggregate) (depth + 1)
            (<[KDie aggregate := defined]>
               (<[KTag tagname := owner (offset aggregate)]> shown)) with
    | (shown2, out, Ok lines) =>
        (<[KDie aggregate := defined]> shown2,
         out ++ PLocation (src_location self aggregate)
             :: PAggregate (Some tagname) (stem +:+ " " +:+ tagname) size
             :: body_items lines size ++ [PClose],
         Ok tt)
    | (shown2, out, Raise e) => (shown2, out, Raise e)
    end.
Proof.
  intros Hfull Hsize Hnot Hfree.
  assert (Hdef : is_mark defined (shown !! KDie aggregate) = false).
  { unfold is_mark. apply bool_decide_eq_false_2. intros E. apply Hnot.
    unfold state_of, state_at. unfold KDie in E. by rewrite E. }
  rewrite track_S, track_body_visit by (by rewrite ?Hdef, ?andb_false_r).
  assert (Hdecl : gen_decl self (S m) (Some aggregate) None
                  = Ok (Some (stem +:+ " " +:+ tagname))).
  { apply gen_decl_tagged; [| |exact Hstem|exact Hname];
      by destruct (tag aggregate). }
  assert (Hkind :
    track_kind self (track self (S m)) (gen_decl self (S m))
               aggregate (depth + 1) false
    = track_aggregate self (track self (S m)) (gen_decl self (S m))
                      aggregate (depth + 1) false).
  { unfold track_kind. by destruct (tag aggregate). }
  rewrite Hkind. unfold track_aggregate, track_final. rewrite Hfull, Hname.
  unfold_M. change (inr (Some tagname)) with (KTag tagname).
  rewrite Hfree, bool_decide_eq_false_2 by (intros [? ?]; discriminate).
  rewrite Hsize.
  destruct (track_members _ _ _ _ _ _) as [[shown2 out] [lines|e]];
    [|by rewrite ?app_nil_r].
  rewrite Hdecl. cbn beta iota zeta delta [as_str].
  destruct lines as [|l lines].
  - cbn [body_items app]. destruct (0 <? size)%Z;
      cbn [app]; by rewrite !app_nil_r.
  - rewrite print_all_run. cbn [app body_items]. by rewrite !app_nil_r.
Qed.

Lemma track_marks_before_members (m : nat) (size depth : Z)
    (shown shown2 : shown_t) (out : list printed) (lines : list string) :
  DW_AT_declaration aggregate = false →
  DW_AT_byte_size aggregate = Some size →
  state_of shown aggregate ≠ DEFINED →
  shown !! KTag tagname = None →
  track_members self (track self (S m)) (gen_decl self (S m))
                (children aggregate) (depth + 1)
                (<[KDie aggregate := defined]>
                   (<[KTag tagname := owner (offset aggregate)]> shown))
  = (shown2, out, Ok lines) →
  track self (S (S m)) (Some aggregate) depth false shown
  = (<[KDie aggregate := defined]> shown2,
     out ++ PLocation (src_location self aggregate)
         :: PAggregate (Some tagname) (stem +:+ " " +:+ tagname) size
         :: body_items lines size ++ [PClose],
     Ok tt).
Proof.
  intros Hfull Hsize Hnot Hfree Eloop.
  by rewrite (track_aggregate_runs m size depth shown), Eloop.
Qed.
End SelfReference.




(** ** The driver *)

Section DriverFacts.
Variable self : TypeDG.

(** A [ParseError] of a root is reported and the loop goes on. *)
Lemma explain_dies_reports (limit : nat) (name : string) (die : DIE)
    (dies : list DIE) (shown shown1 : shown_t) (out1 : list printed)
    (msg : string) :
  track self limit (Some die) 0 false shown
  = (shown1, out1, Raise (ParseError msg)) →
  explain_dies self limit name (die :: dies) shown
  = match explain_dies self limit name dies shown1 with
    | (shown2, out2, r) =>
        (shown2,
         (out1 ++ [PSkippedRoot (tag die) name (src_location self die) msg])
         ++ out2, r)
    end.
Proof.
  intros E. cbn [explain_dies]. unfold bind, try_except, report, print.
  rewrite E. by destruct (explain_dies self limit name dies shown1) as [[? ?] ?].
Qed.

(** Any other exception of a root ends the loop. *)
Lemma explain_dies_halts (limit : nat) (name : string) (die : DIE)
    (dies : list DIE) (shown shown1 : shown_t) (out1 : list printed)
    (e : exn) :
  track self limit (Some die) 0 false shown = (shown1, out1, Raise e) →
  (∀ msg, e ≠ ParseError msg) →
  explain_dies self limit name (die :: dies) shown
  = (shown1, out1 ++ [], Raise e).
Proof.
  intros E He. cbn [explain_dies]. unfold bind, try_except, report.
  rewrite E. destruct e; try reflexivity. by destruct (He msg).
Qed.
End DriverFacts.

(** C1 at its failing inputs. A naming or structural failure that reaches
    the driver as a [ParseError] is reported and the next root is emitted
    ([member_of_int], [direct]). Two handlers of [track] replace the failure
    by another exception, which the driver does not catch, so that the
    iteration ends before the second root: the handler of the member loop
    reads [mtype.tag] of an absent [mtype] ([AttributeError], in
    [member_of_skipped]), and the handler of the reference branch reads an
    unbound name ([NameError], in [through_reference]). *)
Theorem explain_halts_on_replaced_failures :
  map fst (named_types Dollars.member_of_skipped) = ["outer"; "second_t"]
  ∧ (explain Dollars.member_of_int 100 None None).1.2
    = [PSkippedRoot DW_TAG_structure_type "outer" "dollars.c:2"
         "failed to track a member DW_TAG_base_type ?? invalid C identifier 'a$b'";
       PLocation "dollars.c:3"; PTypedef "int second_t"]
  ∧ (explain Dollars.member_of_int 100 None None).2 = Ok tt
  ∧ (explain Dollars.member_of_skipped 100 None None).1.2 = []
  ∧ (explain Dollars.member_of_skipped 100 None None).2 = Raise AttributeError
  ∧ map fst (named_types Roots.through_reference) = ["first_t"; "second_t"]
  ∧ (explain Roots.direct 100 None None).1.2
    = [PSkippedRoot DW_TAG_typedef "first_t" "roots.c:5"
         "typedef -> incmpatible DIE: DW_TAG_unspecified_type";
       PLocation "roots.c:9"; PTypedef "int second_t"]
  ∧ (explain Roots.direct 100 None None).2 = Ok tt
  ∧ (explain Roots.through_reference 100 None None).1.2 = []
  ∧ (explain Roots.through_reference 100 None None).2 = Raise NameError.
Proof. repeat split; vm_compute; reflexivity. Qed.

(** * Further properties *)

(** ** Names *)

Lemma bad_char_allowed (c : ascii) : bad_char c = false ↔ allowed_char c.
Proof.
  unfold bad_char, allowed_char. cbn zeta. rewrite negb_false_iff.
  rewrite !orb_true_iff, !andb_true_iff, !Nat.leb_le, !Nat.eqb_eq. tauto.
Qed.

(** X1. [is_valid_name] accepts exactly the names made of ASCII letters, digits,
    underscores and spaces, the empty name included; that the dot of the
    pattern does not match a line feed makes no difference, a line feed being
    outside the class. *)
Theorem is_valid_name_iff (name : string) :
  is_valid_name name = true ↔ Forall allowed_char (chars name).
Proof.
  unfold is_valid_name. induction name as [|c name IH].
  - split; [constructor | reflexivity].
  - cbn [badchars_match chars]. destruct (bad_char c) eqn:Hc.
    + split; [discriminate|]. intros H. apply Forall_cons_1 in H as [H _].
      apply bad_char_allowed in H. congruence.
    + assert (Hlf : Ascii.eqb c "010" = false).
      { destruct (Ascii.eqb_spec c "010") as [->|]; [discriminate Hc | done]. }
      rewrite Hlf, IH. apply bad_char_allowed in Hc. split.
      * intros H. by constructor.
      * intros H. by apply Forall_cons_1 in H as [_ H].
Qed.

Lemma hex_inj (z1 z2 : Z) : hex z1 = hex z2 → z1 = z2.
Proof.
  unfold hex. intros H. apply HexadecimalZ.to_int_inj.
  assert (Hnn : ∀ z, Z.to_hex_int z ≠ Hexadecimal.Pos Hexadecimal.Nil
                     ∧ Z.to_hex_int z ≠ Hexadecimal.Neg Hexadecimal.Nil).
  { intros [|p|p]; split; try discriminate;
      intros [= E]; by apply HexadecimalPos.Unsigned.to_uint_nonnil in E. }
  assert (Hp : ∀ z, HexadecimalString.NilZero.int_of_string (hex z)
                    = Some (Z.to_hex_int z)).
  { intros z. apply HexadecimalString.NilZero.isi; apply Hnn. }
  unfold hex in Hp. pose proof (Hp z1) as H1. rewrite H, Hp in H1. congruence.
Qed.

Lemma hex_uint_chars (d : Hexadecimal.uint) :
  "_"%char ∉ chars (HexadecimalString.NilEmpty.string_of_uint d).
Proof.
  induction d; cbn [HexadecimalString.NilEmpty.string_of_uint chars];
    rewrite ?elem_of_cons; [apply not_elem_of_nil | ..];
    intros [E|E]; try discriminate E; by apply IHd.
Qed.

Lemma hex_chars (z : Z) : "_"%char ∉ chars (hex z).
Proof.
  unfold hex, HexadecimalString.NilZero.string_of_int.
  assert (Hu : ∀ d, "_"%char ∉ chars (HexadecimalString.NilZero.string_of_uint d)).
  { intros d. unfold HexadecimalString.NilZero.string_of_uint.
    destruct d; try apply hex_uint_chars.
    cbn. rewrite elem_of_cons. intros [E|E]; [discriminate | by apply elem_of_nil in E]. }
  destruct (Z.to_hex_int z) as [d|d]; [apply Hu|].
  cbn [chars]. rewrite elem_of_cons. intros [E|E]; [discriminate | by apply Hu in E].
Qed.

(** Two strings cut at their first underscore. *)
Lemma split_at_underscore (s1 s2 t1 t2 : string) :
  "_"%char ∉ chars s1 → "_"%char ∉ chars s2 →
  s1 +:+ String "_" t1 = s2 +:+ String "_" t2 → s1 = s2 ∧ t1 = t2.
Proof.
  revert s2. induction s1 as [|c s1 IH]; intros [|c' s2] H1 H2 E.
  - by injection E as ->.
  - injection E as <- _. exfalso. apply H2. cbn. apply elem_of_cons. by left.
  - injection E as -> _. exfalso. apply H1. cbn. apply elem_of_cons. by left.
  - injection E as -> E. cbn [chars] in H1, H2.
    rewrite not_elem_of_cons in H1, H2.
    destruct (IH s2 (proj2 H1) (proj2 H2) E) as [-> ->]. done.
Qed.

Lemma stem_cases (die : DIE) (stem : string) :
  _get_stem die = Ok stem →
  stem = "enum" ∨ stem = "struct" ∨ stem = "/*<class>*/struct"
  ∨ stem = "typedef" ∨ stem = "union".
Proof.
  unfold _get_stem. destruct (tag die); cbn; intros [= <-]; tauto.
Qed.

(** X2. The synthetic name of an anonymous entry determines the stem of its
    kind, the offset of its unit and its own offset: two anonymous entries
    that differ in one of them get different names. *)
Theorem synthetic_names_distinct (self1 self2 : TypeDG) (d1 d2 : DIE)
    (name : string) :
  DW_AT_name d1 = None → DW_AT_name d2 = None →
  _get_die_name self1 d1 true = Ok (Some name) →
  _get_die_name self2 d2 true = Ok (Some name) →
  _get_stem d1 = _get_stem d2
  ∧ cu_offset self1 = cu_offset self2
  ∧ offset d1 = offset d2.
Proof.
  unfold _get_die_name. intros -> ->.
  destruct (_get_stem d1) as [s1|] eqn:E1; [|discriminate].
  destruct (_get_stem d2) as [s2|] eqn:E2; [|discriminate].
  cbn [rbind]. intros [= <-] [= E].
  apply String.app_inj in E.
  assert (s2 = s1) as ->.
  { apply stem_cases in E1, E2.
    destruct E1 as [-> | [-> | [-> | [-> | ->]]]],
             E2 as [-> | [-> | [-> | [-> | ->]]]];
      try reflexivity; exfalso;
      apply (f_equal (λ s, match s with
                           | String c _ => c
                           | EmptyString => "000"%char
                           end)) in E;
      vm_compute in E; discriminate E. }
  apply String.app_inj in E.
  change ("_" +:+ ?x) with (String "_" x) in E. injection E as E.
  apply split_at_underscore in E as [Hcu Hoff]; [|apply hex_chars..].
  split; [reflexivity|]. split; by apply hex_inj.
Qed.

Lemma synthetic_names_distinct_witness :
  _get_stem (entry 18 DW_TAG_structure_type None None [])
  = _get_stem (entry 18 DW_TAG_structure_type None None [])
  ∧ cu_offset Literals.unit = cu_offset Literals.unit
  ∧ offset (entry 18 DW_TAG_structure_type None None [])
    = offset (entry 18 DW_TAG_structure_type None None []).
Proof.
  exact (synthetic_names_distinct Literals.unit Literals.unit
           (entry 18 DW_TAG_structure_type None None [])
           (entry 18 DW_TAG_structure_type None None [])
           "anon_struct_0_12" eq_refl eq_refl eq_refl eq_refl).
Defined.

(** ** Source locations *)

(** X3. In a unit of a supported language, the file number [v] of an entry is
    looked up one below in the file table of the unit: a number inside the
    table gives the file name, any other number the placeholder
    [_nowhere<v-1>_], and an absent number [_nowhere_]; the line, when there
    is one, follows after a colon. *)
Theorem src_location_of_unit (limit : nat) (CU : CompileUnit)
    (out : list printed) (self : TypeDG) (language : Z) (die : DIE) :
  DW_AT_language (CU_top CU) = Some language →
  language ∈ LANGUAGES →
  __init__ limit CU = (out, Ok self) →
  src_location self die
  = match DW_AT_decl_file die with
    | Some v => default ("_nowhere" +:+ dec (v - 1) +:+ "_")
                        (file_of (CU_file_entry CU) v)
    | None => "_nowhere_"
    end
    +:+ match DW_AT_decl_line die with
        | Some line => ":" +:+ dec line
        | None => ""
        end.
Proof.
  intros Hlang Hsup Hinit.
  destruct (init_Ok limit CU out self language Hlang Hsup Hinit)
    as (names & pairs & _ & _ & ->).
  unfold src_location, attribute_truthy, file_of.
  cbn [filedesc]. f_equal. destruct (DW_AT_decl_file die) as [v|]; [|done].
  f_equal. rewrite lookup_map_seqZ.
  destruct (Z.leb_spec 1 v).
  - rewrite option_guard_True by lia. cbn. by rewrite Z.sub_0_r.
  - by rewrite option_guard_False by lia.
Qed.

Lemma src_location_of_unit_witness :
  src_location Roots.direct Roots.second = "roots.c" +:+ ":" +:+ dec 9.
Proof.
  exact (src_location_of_unit 100
           (mkCompileUnit 0 (Roots.top 11) (Some ["roots.c"])) []
           Roots.direct 12 Roots.second eq_refl
           ltac:(vm_compute; repeat constructor) ltac:(vm_compute; reflexivity)).
Defined.

(** ** Units in other languages *)

(** X4. A unit whose language is not in [LANGUAGES] gives an instance with an
    empty name index, and [explain] on it prints nothing, raises nothing and
    leaves the dictionary as it is; nothing is printed while indexing it. *)
Theorem unsupported_language_is_silent (CU : CompileUnit) (language : Z) :
  DW_AT_language (CU_top CU) = Some language →
  language ∉ LANGUAGES →
  ∃ self,
    (∀ nesting, __init__ nesting CU = ([], Ok self))
    ∧ named_types self = []
    ∧ ∀ limit filter shown,
        explain self limit filter (Some shown) = (shown, [], Ok tt).
Proof.
  intros Hlang Hsup. unfold __init__. rewrite Hlang.
  rewrite bool_decide_eq_false_2 by exact Hsup. cbn [negb].
  eexists. split; [intros nesting; reflexivity|]. split; reflexivity.
Qed.

Lemma unsupported_language_is_silent_witness :
  ∃ self,
    (∀ nesting,
       __init__ nesting
         (mkCompileUnit 0 (with_language 4 (Roots.top 11)) (Some ["roots.cc"]))
       = ([], Ok self))
    ∧ named_types self = []
    ∧ ∀ limit filter shown,
        explain self limit filter (Some shown) = (shown, [], Ok tt).
Proof.
  apply (unsupported_language_is_silent _ 4); [reflexivity|].
  vm_compute. intros H. repeat (apply elem_of_cons in H as [H|H]; [discriminate H|]).
  by apply elem_of_nil in H.
Defined.

(** ** The name index *)

Lemma names_add_recorded (names : name_index) (name : string) (die : DIE)
    (n : string) (d : DIE) :
  recorded (names_add names name die) n d
  ↔ recorded names n d ∨ (n = name ∧ d = die).
Proof.
  unfold recorded. induction names as [|[k dies] names IH]; cbn [names_add].
  - split.
    + intros (ds & Hin & Hd). apply list_elem_of_singleton in Hin as [= -> ->].
      apply list_elem_of_singleton in Hd as ->. by right.
    + intros [(ds & Hin & _) | [-> ->]]; [by apply elem_of_nil in Hin|].
      exists [die]. split; by apply list_elem_of_singleton.
  - destruct (String.eqb_spec k name) as [->|Hne].
    + split.
      * intros (ds & Hin & Hd). apply elem_of_cons in Hin as [[= -> ->] | Hin].
        -- apply elem_of_app in Hd as [Hd | Hd].
           ++ left. exists dies. split; [apply elem_of_cons; by left | done].
           ++ apply list_elem_of_singleton in Hd as ->. by right.
        -- left. exists ds. split; [apply elem_of_cons; by right | done].
      * intros [(ds & Hin & Hd) | [-> ->]].
        -- apply elem_of_cons in Hin as [[= -> ->] | Hin].
           ++ exists (dies ++ [die]). split; [apply elem_of_cons; by left|].
              apply elem_of_app. by left.
           ++ exists ds. split; [apply elem_of_cons; by right | done].
        -- exists (dies ++ [die]). split; [apply elem_of_cons; by left|].
           apply elem_of_app. right. by apply list_elem_of_singleton.
    + split.
      * intros (ds & Hin & Hd). apply elem_of_cons in Hin as [[= -> ->] | Hin].
        -- left. exists dies. split; [apply elem_of_cons; by left | done].
        -- destruct (proj1 IH) as [(ds' & Hin' & Hd') | Heq]; [by exists ds | |by right].
           left. exists ds'. split; [apply elem_of_cons; by right | done].
      * intros [(ds & Hin & Hd) | Heq].
        -- apply elem_of_cons in Hin as [[= -> ->] | Hin].
           ++ exists dies. split; [apply elem_of_cons; by left | done].
           ++ destruct (proj2 IH) as (ds' & Hin' & Hd'); [left; by exists ds|].
              exists ds'. split; [apply elem_of_cons; by right | done].
        -- destruct (proj2 IH) as (ds' & Hin' & Hd'); [by right|].
           exists ds'. split; [apply elem_of_cons; by right | done].
Qed.

Lemma names_add_keys (names : name_index) (name : string) (die : DIE) :
  (names_add names name die).*1
  = if bool_decide (name ∈ names.*1) then names.*1 else names.*1 ++ [name].
Proof.
  induction names as [|[k dies] names IH]; [reflexivity|]. cbn [names_add].
  destruct (String.eqb_spec k name) as [->|Hne].
  - cbn. rewrite bool_decide_eq_true_2; [done | apply elem_of_cons; by left].
  - cbn [fmap list_fmap fst]. cbn [fmap] in IH. rewrite IH.
    destruct (bool_decide (name ∈ _)) eqn:E.
    + apply bool_decide_eq_true_1 in E.
      rewrite bool_decide_eq_true_2; [done | apply elem_of_cons; by right].
    + apply bool_decide_eq_false_1 in E.
      rewrite bool_decide_eq_false_2; [done|].
      intros H. apply elem_of_cons in H as [H|H]; [by apply Hne | by apply E].
Qed.

Lemma names_add_NoDup (names : name_index) (name : string) (die : DIE) :
  NoDup names.*1 → NoDup (names_add names name die).*1.
Proof.
  intros H. rewrite names_add_keys. case_bool_decide as Hin; [done|].
  apply NoDup_app. split; [done|]. split; [|apply NoDup_singleton].
  intros x Hx Hx'. apply list_elem_of_singleton in Hx' as ->. by apply Hin.
Qed.

Section NameIndexFacts.
Variable self : TypeDG.

(** The entry itself: recorded under its name when it is of a named-type
    kind and its name is valid and not empty. *)
Lemma names_after_recorded (die : DIE) (names : name_index) :
  name_fails self die = false →
  (∀ n d, recorded (names_after self die names) n d
          ↔ recorded names n d
            ∨ (d = die ∧ is_Some (TAGS_for_types (tag die))
               ∧ DW_AT_name die = Some n ∧ n ≠ ""))
  ∧ (NoDup names.*1 → NoDup (names_after self die names).*1).
Proof.
  unfold name_fails, names_after.
  destruct (TAGS_for_types (tag die)) as [stem|] eqn:Hk.
  - destruct (DW_AT_name die) as [value|] eqn:Hn.
    + rewrite (get_die_name_named self die value false Hn).
      destruct (decode value); [|discriminate].
      destruct (is_valid_name value); [|discriminate]. intros _.
      destruct value as [|c name].
      * cbn. split; [|done].
        intros n d. split; [by left|]. intros [H | (_ & _ & [= <-] & H)]; done.
      * cbn [truthy fmt default]. split; [|apply names_add_NoDup].
        intros n d. rewrite names_add_recorded. split.
        -- intros [H | [-> ->]]; [by left|]. right. by repeat split; eauto.
        -- intros [H | (-> & _ & [= <-] & _)]; [by left | by right].
    + unfold _get_die_name. rewrite Hn. intros _. cbn. split; [|done].
      intros n d. split; [by left|]. intros [H | (_ & _ & H & _)]; done.
  - intros _. split; [|done].
    intros n d. split; [by left|].
    intros [H | (_ & [? H] & _)]; [done | discriminate H].
Qed.

Lemma walk_children_names (limit : nat) (cs : list DIE)
    (names n : name_index) (ps : list (Z * DIE)) (out : list printed) :
  walk_names self limit →
  walk_children (walk self limit) cs names = (n, ps, out, None) →
  (∀ nm d, recorded n nm d
           ↔ recorded names nm d ∨ ∃ child, child ∈ cs ∧ named self child nm d)
  ∧ (NoDup names.*1 → NoDup n.*1).
Proof.
  intros Hrec. revert names n ps out.
  induction cs as [|c cs IH]; intros names n ps out.
  - intros [= <- <- <-]. split; [|done].
    intros nm d. split; [by left|].
    intros [H | (child & Hin & _)]; [done | by apply elem_of_nil in Hin].
  - intros E. apply walk_children_inv in E
      as (n1 & y1 & p1 & y2 & p2 & E1 & E2 & -> & ->).
    destruct (Hrec _ _ _ _ _ E1) as [Hrec1 Hnd1].
    destruct (IH _ _ _ _ E2) as [Hrec2 Hnd2].
    split; [|by auto].
    intros nm d. rewrite Hrec2, Hrec1. split.
    + intros [[H | H] | (child & Hin & H)]; [by left | |].
      * right. exists c. split; [apply elem_of_cons; by left | done].
      * right. exists child. split; [apply elem_of_cons; by right | done].
    + intros [H | (child & Hin & H)]; [by left; left|].
      apply elem_of_cons in Hin as [-> | Hin]; [by left; right|].
      right. by exists child.
Qed.

Lemma named_inv (top : DIE) (n : string) (d : DIE) :
  name_fails self top = false →
  named self top n d
  ↔ (d = top ∧ is_Some (TAGS_for_types (tag top))
     ∧ DW_AT_name top = Some n ∧ n ≠ "")
    ∨ ∃ child, child ∈ children top ∧ named self child n d.
Proof.
  intros Hf. unfold named. split.
  - intros (Hr & Hk & Hn & Hne).
    apply reached_inv in Hr as [_ [-> | (child & Hin & Hr)]]; [by left|].
    right. by exists child.
  - intros [(-> & Hk & Hn & Hne) | (child & Hin & Hr & Hk & Hn & Hne)].
    + split; [by apply reached_top | done].
    + split; [by eapply reached_below | done].
Qed.

Lemma walk_names_hold (limit : nat) : walk_names self limit.
Proof.
  induction limit as [|limit IH]; intros top names n ps out E;
    [discriminate|].
  apply walk_inv in E
    as (limit' & [= <-] & [(Hf & -> & ->) | (Hf & ys & Ec & ->)]).
  - split; [|done]. intros nm d. split; [by left|].
    intros [H | (Hr & _)]; [done|].
    apply reached_inv in Hr as [Hr _]. congruence.
  - destruct (names_after_recorded top names Hf) as [Hrec0 Hnd0].
    destruct (walk_children_names _ _ _ _ _ _ IH Ec) as [Hrec Hnd].
    split; [|by auto].
    intros name d. rewrite Hrec, Hrec0, (named_inv top name d Hf). tauto.
Qed.
End NameIndexFacts.

Lemma named_any_unit (self self' : TypeDG) (top : DIE) (n : string) (d : DIE) :
  named self top n d → named self' top n d.
Proof.
  intros (Hr & H). split; [by eapply reached_any_unit | exact H].
Qed.

(** X5. The name index of a unit in a supported language has one key per name
    and holds, under each name, exactly the entries of a named-type kind
    that carry this name, the name being not empty, and that are reached
    from the root through entries without naming failure; every such name is
    a valid name. *)
Theorem name_index_is_exact (limit : nat) (CU : CompileUnit)
    (out : list printed) (self : TypeDG) (language : Z) :
  DW_AT_language (CU_top CU) = Some language →
  language ∈ LANGUAGES →
  __init__ limit CU = (out, Ok self) →
  NoDup (named_types self).*1
  ∧ (∀ name die,
       recorded (named_types self) name die ↔ named self (CU_top CU) name die)
  ∧ (∀ name die,
       recorded (named_types self) name die → is_valid_name name = true).
Proof.
  intros Hlang Hsup Hinit.
  destruct (init_Ok limit CU out self language Hlang Hsup Hinit)
    as (names' & pairs & _ & Ew & ->).
  set (self0 := mkTypeDG (CU_cu_offset CU) (map_seqZ 0 (CU_file_entry CU)) ∅ [])
    in Ew.
  destruct (walk_names_hold self0 limit _ _ _ _ _ Ew) as [Hrec Hnd].
  cbn [named_types].
  assert (Hiff : ∀ name die, recorded names' name die
                             ↔ named self0 (CU_top CU) name die).
  { intros name die. rewrite Hrec. split; [|by right].
    intros [(ds & Hin & _) | H]; [by apply elem_of_nil in Hin | done]. }
  split; [apply Hnd; constructor|]. split.
  - intros name die. rewrite Hiff. split; apply named_any_unit.
  - intros name die Hr. apply Hiff in Hr as (Hr & Hk & Hn & _).
    assert (Hf : name_fails self0 die = false) by (by destruct Hr).
    unfold name_fails in Hf. destruct Hk as [stem Hk].
    rewrite Hk, (get_die_name_named self0 die name false Hn) in Hf.
    destruct (decode name); [|discriminate].
    by destruct (is_valid_name name).
Qed.

Lemma name_index_is_exact_witness :
  NoDup (named_types Dollars.member_of_int).*1
  ∧ (∀ name die,
       recorded (named_types Dollars.member_of_int) name die
       ↔ named Dollars.member_of_int (Dollars.top 11) name die)
  ∧ (∀ name die,
       recorded (named_types Dollars.member_of_int) name die
       → is_valid_name name = true).
Proof.
  apply (name_index_is_exact 100
           (mkCompileUnit 0 (Dollars.top 11) (Some ["dollars.c"]))
           [PSkippedEntry DW_TAG_structure_type "_nowhere_"
              "invalid C identifier 'in$ner'"]
           Dollars.member_of_int 12 eq_refl).
  - vm_compute. repeat constructor.
  - vm_compute. reflexivity.
Defined.

(** ** Resolution of offsets *)

Lemma init_offset_map (limit : nat) (CU : CompileUnit) (out : list printed)
    (self : TypeDG) (language : Z) :
  DW_AT_language (CU_top CU) = Some language →
  language ∈ LANGUAGES →
  __init__ limit CU = (out, Ok self) →
  cu_offset self = CU_cu_offset CU
  ∧ (∀ die, reached self (CU_top CU) die →
            is_Some (offset_to_die self !! (offset die - cu_offset self)))
  ∧ (∀ k die, offset_to_die self !! k = Some die →
              reached self (CU_top CU) die ∧ k = offset die - cu_offset self).
Proof.
  intros Hlang Hsup Hinit.
  destruct (init_Ok limit CU out self language Hlang Hsup Hinit)
    as (names' & pairs & _ & Ew & ->).
  destruct (walk_is_sound _ limit _ _ _ _ _ Ew) as [Hall Honly].
  cbn [offset_to_die cu_offset] in *.
  split; [reflexivity|]. split.
  - intros die Hr. eapply (proj2 (dict_of_pairs_lookup pairs _)).
    apply (Hall die). by eapply reached_any_unit.
  - intros k die Hk.
    apply (proj1 (dict_of_pairs_lookup pairs k)), Honly in Hk as [Hr ->].
    split; [by eapply reached_any_unit | reflexivity].
Qed.

Lemma init_recorded_reached (limit : nat) (CU : CompileUnit)
    (out : list printed) (self : TypeDG) (language : Z) (name : string)
    (die : DIE) :
  DW_AT_language (CU_top CU) = Some language →
  language ∈ LANGUAGES →
  __init__ limit CU = (out, Ok self) →
  recorded (named_types self) name die → reached self (CU_top CU) die.
Proof.
  intros Hlang Hsup Hinit.
  destruct (init_Ok limit CU out self language Hlang Hsup Hinit)
    as (names' & pairs & _ & Ew & ->).
  destruct (walk_names_hold _ limit _ _ _ _ _ Ew) as [Hrec _].
  cbn [named_types]. rewrite Hrec.
  intros [(ds & Hin & _) | (Hr & _)]; [by apply elem_of_nil in Hin|].
  by eapply reached_any_unit.
Qed.

Lemma reached_in_walk (self : TypeDG) (limit : nat) (top die : DIE) :
  (walk self limit top []).2 = None →
  reached self top die →
  (offset die - cu_offset self, die) ∈ (walk self limit top []).1.1.2.
Proof.
  destruct (walk self limit top []) as [[[names pairs] out] r] eqn:E.
  cbn [fst snd]. intros -> Hr.
  by apply (walk_is_sound self limit _ _ _ _ _ E).
Qed.

(** X6. When no two reached entries of a unit share an offset, looking up the
    offset of a reached entry gives back this entry: every reached entry and
    every entry of the name index is the entry the offset map holds for its
    offset, and a type reference resolves to the reached entry at the
    referenced offset. *)
Theorem offsets_resolve_to_entries (limit : nat) (CU : CompileUnit)
    (out : list printed) (self : TypeDG) (language : Z) :
  DW_AT_language (CU_top CU) = Some language →
  language ∈ LANGUAGES →
  __init__ limit CU = (out, Ok self) →
  (∀ d1 d2, reached self (CU_top CU) d1 → reached self (CU_top CU) d2 →
            offset d1 = offset d2 → d1 = d2) →
  (∀ die, reached self (CU_top CU) die → indexed self die)
  ∧ (∀ name die, recorded (named_types self) name die → indexed self die)
  ∧ (∀ die target,
       reached self (CU_top CU) target →
       DW_AT_type die = Some (offset target - cu_offset self) →
       _get_type_die self die = Some target).
Proof.
  intros Hlang Hsup Hinit Hdistinct.
  destruct (init_offset_map limit CU out self language Hlang Hsup Hinit)
    as (_ & Hall & Honly).
  assert (Hidx : ∀ die, reached self (CU_top CU) die → indexed self die).
  { intros die Hr. unfold indexed. destruct (Hall die Hr) as [d' Hd'].
    rewrite Hd'. f_equal. destruct (Honly _ _ Hd') as [Hr' Hk].
    apply Hdistinct; [done | done | lia]. }
  split; [exact Hidx|]. split.
  - intros name die Hrec. apply Hidx.
    by apply (init_recorded_reached limit CU out self language name die
                Hlang Hsup Hinit).
  - intros die target Hr Hty. unfold _get_type_die. rewrite Hty.
    by apply Hidx.
Qed.

Lemma offsets_resolve_to_entries_witness :
  indexed Dollars.member_of_int Dollars.second
  ∧ _get_type_die Dollars.member_of_int Dollars.second = Some Dollars.t_int.
Proof.
  destruct (offsets_resolve_to_entries 100
              (mkCompileUnit 0 (Dollars.top 11) (Some ["dollars.c"]))
              [PSkippedEntry DW_TAG_structure_type "_nowhere_"
                 "invalid C identifier 'in$ner'"]
              Dollars.member_of_int 12 eq_refl) as (Hidx & _ & Hty).
  - vm_compute. repeat constructor.
  - vm_compute. reflexivity.
  - intros d1 d2 H1 H2 E. cbn [CU_top] in H1, H2.
    apply (reached_in_walk _ 100) in H1, H2; try (vm_compute; reflexivity).
    remember ((walk Dollars.member_of_int 100 (Dollars.top 11) []).1.1.2) as l
      eqn:Hl.
    vm_compute in Hl. subst l.
    rewrite !elem_of_cons, elem_of_nil in H1, H2.
    repeat (destruct H1 as [H1|H1]); try done;
      repeat (destruct H2 as [H2|H2]); try done;
      injection H1 as _ ->; injection H2 as _ ->;
      first [reflexivity | discriminate E].
  - assert (Hr : ∀ d, d ∈ children (Dollars.top 11) →
                      name_fails Dollars.member_of_int d = false →
                      reached Dollars.member_of_int (Dollars.top 11) d).
    { intros d Hin Hf. eapply reached_child; [by apply reached_top | done..]. }
    split.
    + apply Hidx, Hr; [|reflexivity]. do 3 (apply elem_of_cons; right).
      apply elem_of_cons. by left.
    + apply Hty; [|reflexivity]. apply Hr; [|reflexivity].
      apply elem_of_cons. by left.
Defined.

(** ** The synthesizer and the recursion limit *)

Lemma rbind_mono {A B} (m m' : Result A) (k k' : A → Result B) :
  (m ≠ Raise RecursionError → m' = m) →
  (∀ a, k a ≠ Raise RecursionError → k' a = k a) →
  rbind m k ≠ Raise RecursionError → rbind m' k' = rbind m k.
Proof.
  intros Hm Hk H. destruct m as [a|e]; cbn in *.
  - rewrite Hm by discriminate. cbn. by apply Hk.
  - rewrite Hm; [reflexivity|]. intros [= ->]. by apply H.
Qed.

Lemma rbind_raises {A B} (P : exn → Prop) (m : Result A) (k : A → Result B)
    (e : exn) :
  (∀ e, m = Raise e → P e) → (∀ a e, k a = Raise e → P e) →
  rbind m k = Raise e → P e.
Proof.
  intros Hm Hk. destruct m as [a|e']; cbn.
  - apply Hk.
  - intros [= <-]. by apply Hm.
Qed.

Section SynthesizerLimit.
Variable self : TypeDG.
Variables rec rec' : option DIE → option string → Result (option string).
Hypothesis rec_mono :
  ∀ die name, rec die name ≠ Raise RecursionError → rec' die name = rec die name.

Lemma gen_fparams_mono (cs : list DIE) :
  gen_fparams self rec cs ≠ Raise RecursionError →
  gen_fparams self rec' cs = gen_fparams self rec cs.
Proof.
  induction cs as [|c cs IH]; [done|]. cbn [gen_fparams].
  destruct (tag c); try exact IH.
  apply rbind_mono; [apply rec_mono|]. intros p.
  apply rbind_mono; [exact IH | done].
Qed.

Lemma gen_decl_body_mono (die : option DIE) (name : option string) :
  gen_decl_body self rec die name ≠ Raise RecursionError →
  gen_decl_body self rec' die name = gen_decl_body self rec die name.
Proof.
  unfold gen_decl_body. destruct die as [die|]; [|done].
  destruct (tag die); try done; try apply rec_mono.
  - apply rbind_mono; [apply rec_mono | done].
  - destruct (TAGS_for_qualifiers _); [|done].
    apply rbind_mono; [apply rec_mono | done].
  - destruct (TAGS_for_qualifiers _); [|done].
    apply rbind_mono; [apply rec_mono | done].
  - destruct (TAGS_for_qualifiers _); [|done].
    apply rbind_mono; [apply rec_mono | done].
  - destruct (TAGS_for_qualifiers _); [|done].
    apply rbind_mono; [apply rec_mono | done].
  - apply rbind_mono; [apply gen_fparams_mono|]. intros fparams.
    apply rbind_mono.
    + destruct fparams; [|done]. apply rbind_mono; [apply rec_mono | done].
    + intros ps. apply rbind_mono; [apply rec_mono | done].
Qed.
End SynthesizerLimit.

(** X7. A result of [gen_decl] other than [RecursionError] does not depend on
    the recursion limit: with more activations granted it is the same. *)
Theorem gen_decl_limit_irrelevant (self : TypeDG) (n k : nat)
    (die : option DIE) (name : option string) :
  gen_decl self n die name ≠ Raise RecursionError →
  gen_decl self (n + k) die name = gen_decl self n die name.
Proof.
  revert die name. induction n as [|n IH]; intros die name; [done|].
  change (S n + k)%nat with (S (n + k)). rewrite !gen_decl_S.
  by apply gen_decl_body_mono.
Qed.

Lemma gen_decl_limit_irrelevant_witness :
  gen_decl Literals.unit (3 + 97) (Some Literals.t_fp) (Some "fp")
  = gen_decl Literals.unit 3 (Some Literals.t_fp) (Some "fp").
Proof.
  apply (gen_decl_limit_irrelevant Literals.unit 3 97). vm_compute. discriminate.
Defined.

Section SynthesizerExceptions.
Variable self : TypeDG.
Variable rec : option DIE → option string → Result (option string).
Hypothesis rec_raises : ∀ die name e, rec die name = Raise e → synthesizer_exn e.

Lemma as_str_raises (s : option string) (e : exn) :
  as_str s = Raise e → synthesizer_exn e.
Proof. destruct s; [discriminate | by intros [= <-]]. Qed.

Lemma get_stem_raises (die : DIE) (e : exn) :
  _get_stem die = Raise e → synthesizer_exn e.
Proof.
  unfold _get_stem. destruct (get_or_None _); [discriminate | by intros [= <-]].
Qed.

Lemma get_die_name_raises (die : DIE) (gensym : bool) (e : exn) :
  _get_die_name self die gensym = Raise e → synthesizer_exn e.
Proof.
  unfold _get_die_name. destruct (DW_AT_name die) as [value|].
  - apply rbind_raises.
    + intros e' E. by apply decode_raises in E as ->.
    + intros name e'.
      destruct (is_valid_name name); [discriminate | by intros [= <-]].
  - destruct gensym; [|discriminate].
    apply rbind_raises; [apply get_stem_raises | discriminate].
Qed.

Lemma gen_fparams_raises (cs : list DIE) (e : exn) :
  gen_fparams self rec cs = Raise e → synthesizer_exn e.
Proof.
  revert e. induction cs as [|c cs IH]; intros e; [discriminate|].
  cbn [gen_fparams]. destruct (tag c); try apply IH.
  apply rbind_raises; [apply rec_raises|]. intros p e'.
  apply rbind_raises; [exact IH | discriminate].
Qed.

Lemma all_str_raises (l : list (option string)) (e : exn) :
  all_str l = Raise e → synthesizer_exn e.
Proof.
  revert e. induction l as [|x l IH]; intros e; [discriminate|].
  cbn [all_str].
  apply rbind_raises; [apply as_str_raises|]. intros s e'.
  apply rbind_raises; [exact IH | discriminate].
Qed.

Lemma gen_decl_body_raises (die : option DIE) (name : option string) (e : exn) :
  gen_decl_body self rec die name = Raise e → synthesizer_exn e.
Proof.
  unfold gen_decl_body. destruct die as [die|]; [|by destruct name].
  assert (Htagged : ∀ t,
    match TAGS_for_qualifiers t with
    | Some q =>
        let prefix := match t with
                      | DW_TAG_restrict_type => ""
                      | _ => q +:+ " "
                      end in
        do d <- rec (_get_type_die self die) name;
        do d0 <- as_str d; Ok (Some (prefix +:+ d0))
    | None =>
        match get_or_None (TAGS_for_types t) with
        | Some _ =>
            do prefix <- match t with
                         | DW_TAG_typedef => Ok ""
                         | _ => do stem <- _get_stem die; Ok (stem +:+ " ")
                         end;
            do dn <- _get_die_name self die true;
            do dn0 <- as_str dn;
            Ok (Some (prefix +:+ dn0
                      +:+ (if truthy name then " " +:+ fmt name else "")))
        | None => Raise (ParseError ("cannot generate decl. for " +:+ tag_text t))
        end
    end = Raise e → synthesizer_exn e).
  { intros t. destruct (TAGS_for_qualifiers t).
    - cbn zeta. apply rbind_raises; [apply rec_raises|]. intros d e'.
      apply rbind_raises; [apply as_str_raises | discriminate].
    - destruct (get_or_None _); [|by intros [= <-]].
      apply rbind_raises.
      + intros e'. destruct t; try discriminate;
          (apply rbind_raises; [apply get_stem_raises | discriminate]).
      + intros prefix e'. apply rbind_raises; [apply get_die_name_raises|].
        intros dn e''. apply rbind_raises; [apply as_str_raises | discriminate]. }
  destruct (tag die); try apply Htagged; try apply rec_raises.
  - cbn zeta. apply rbind_raises; [apply rec_raises|]. intros d e'.
    apply rbind_raises; [apply as_str_raises|]. intros d0 e''.
    apply rbind_raises; [apply as_str_raises | discriminate].
  - destruct (truthy name); [|apply get_die_name_raises].
    apply rbind_raises; [apply get_die_name_raises|]. intros dn e'.
    apply rbind_raises; [apply as_str_raises|]. intros a e''.
    apply rbind_raises; [apply as_str_raises | discriminate].
  - apply rbind_raises; [apply gen_fparams_raises|]. intros fparams e'.
    apply rbind_raises.
    + intros e''. destruct fparams; [|discriminate].
      apply rbind_raises; [apply rec_raises | discriminate].
    + intros ps e''. apply rbind_raises; [apply rec_raises|]. intros r e3.
      apply rbind_raises; [apply as_str_raises|]. intros r0 e4.
      apply rbind_raises; [apply as_str_raises|]. intros n0 e5.
      apply rbind_raises; [apply all_str_raises | discriminate].
Qed.
End SynthesizerExceptions.

Lemma gen_decl_raises (self : TypeDG) (n : nat) (die : option DIE)
    (name : option string) (e : exn) :
  gen_decl self n die name = Raise e → synthesizer_exn e.
Proof.
  revert die name e. induction n as [|n IH]; intros die name e.
  - by intros [= <-].
  - rewrite gen_decl_S. by apply gen_decl_body_raises.
Qed.

(** X8. On the instance of a unit in a supported language, [gen_decl] raises
    nothing but [ParseError], [TypeError], [RecursionError] and, for a name
    that does not decode, [UnicodeDecodeError]: no [KeyError], [NameError]
    or [AttributeError]. *)
Theorem gen_decl_raises_only (limit : nat) (CU : CompileUnit)
    (out : list printed) (self : TypeDG) (language : Z) (n : nat)
    (die : option DIE) (name : option string) (e : exn) :
  DW_AT_language (CU_top CU) = Some language →
  language ∈ LANGUAGES →
  __init__ limit CU = (out, Ok self) →
  gen_decl self n die name = Raise e → synthesizer_exn e.
Proof. intros _ _ _. apply gen_decl_raises. Qed.

Lemma gen_decl_raises_only_witness :
  gen_decl Latin1.unit 1 (Some Latin1.t_word) None = Raise UnicodeDecodeError
  ∧ synthesizer_exn UnicodeDecodeError.
Proof.
  split; [vm_compute; reflexivity|].
  apply (gen_decl_raises_only 100 Latin1.base [] Latin1.unit 12 1
           (Some Latin1.t_word) None UnicodeDecodeError eq_refl).
  - vm_compute. repeat constructor.
  - vm_compute. reflexivity.
  - vm_compute. reflexivity.
Defined.

(** ** References to entries that the indexer skipped *)

Lemma type_of_unreached (limit : nat) (CU : CompileUnit) (out : list printed)
    (self : TypeDG) (language : Z) (die target : DIE) :
  DW_AT_language (CU_top CU) = Some language →
  language ∈ LANGUAGES →
  __init__ limit CU = (out, Ok self) →
  (∀ d, reached self (CU_top CU) d → offset d ≠ offset target) →
  DW_AT_type die = Some (offset target - cu_offset self) →
  _get_type_die self die = None.
Proof.
  intros Hlang Hsup Hinit Hnone Hty.
  destruct (init_offset_map limit CU out self language Hlang Hsup Hinit)
    as (_ & _ & Honly).
  unfold _get_type_die. rewrite Hty.
  destruct (offset_to_die self !! _) as [d|] eqn:E; [|done].
  destruct (Honly _ _ E) as [Hr Hk]. destruct (Hnone d Hr). lia.
Qed.

(** X9. A type definition over an entry that the indexer left out (a skipped
    entry, or one below a skipped entry) is printed as a definition over
    [void], without any message, and the entry is marked as defined. *)
Theorem typedef_of_skipped_is_void (limit : nat) (CU : CompileUnit)
    (out : list printed) (self : TypeDG) (language : Z) (n : nat)
    (die target : DIE) (name : string) (depth : Z) (shown : shown_t) :
  DW_AT_language (CU_top CU) = Some language →
  language ∈ LANGUAGES →
  __init__ limit CU = (out, Ok self) →
  (∀ d, reached self (CU_top CU) d → offset d ≠ offset target) →
  tag die = DW_TAG_typedef →
  DW_AT_name die = Some name →
  is_valid_name name = true →
  DW_AT_type die = Some (offset target - cu_offset self) →
  state_of shown die = UNSEEN →
  track self (S (S n)) (Some die) depth false shown
  = (<[KDie die := defined]> shown,
     [PLocation (src_location self die); PTypedef ("void " +:+ name)], Ok tt).
Proof.
  intros Hlang Hsup Hinit Hnone Htag Hname Hvalid Hty Hunseen.
  pose proof (type_of_unreached limit CU out self language die target
                Hlang Hsup Hinit Hnone Hty) as Hdep.
  destruct (unseen_is_unmarked _ _ Hunseen) as [Hdef Hdecl].
  rewrite track_S, track_body_visit by (by rewrite ?Hdef, ?Hdecl).
  unfold track_kind, track_final. rewrite Htag, Hdep.
  rewrite (get_die_name_valid self die name false Hname Hvalid).
  unfold_M. reflexivity.
Qed.

Lemma typedef_of_skipped_is_void_witness :
  track Alias.unit 2 (Some Alias.t_alias) 0 false ∅
  = (<[KDie Alias.t_alias := defined]> ∅,
     [PLocation "alias.c:2"; PTypedef "void alias_t"], Ok tt).
Proof.
  apply (typedef_of_skipped_is_void 100 Alias.CU
           [PSkippedEntry DW_TAG_structure_type "_nowhere_"
              "invalid C identifier 'in$ner'"]
           Alias.unit 12 0 Alias.t_alias Alias.t_inner "alias_t" 0 ∅);
    try reflexivity.
  - vm_compute. repeat constructor.
  - intros d Hr. change (CU_top Alias.CU) with Alias.top in Hr.
    apply (reached_in_walk _ 100) in Hr; [|vm_compute; reflexivity].
    remember ((walk Alias.unit 100 Alias.top []).1.1.2) as l eqn:Hl.
    vm_compute in Hl. subst l.
    rewrite !elem_of_cons, elem_of_nil in Hr.
    repeat (destruct Hr as [Hr|Hr]); try done;
      injection Hr as _ ->; discriminate.
Defined.

(** ** A second visit *)

Lemma returns_ret {A} (Q : A → Prop) (a : A) : Q a → returns Q (ret a).
Proof. intros HQ s s' o a' [= _ _ <-]. exact HQ. Qed.

Lemma returns_bind {A B} (Q : B → Prop) (m : M A) (k : A → M B) :
  (∀ a, returns Q (k a)) → returns Q (bind m k).
Proof.
  intros Hk s s' o b. unfold bind.
  destruct (m s) as [[s1 o1] [a|e]]; [|discriminate].
  destruct (k a s1) as [[s2 o2] r] eqn:E. intros [= _ _ ->].
  by eapply Hk.
Qed.

Lemma returns_raise {A} (Q : A → Prop) (e : exn) : returns Q (raise e).
Proof. intros s s' o a. discriminate. Qed.

Ltac returns_step :=
  repeat first
    [ apply returns_ret; done
    | apply returns_raise
    | apply returns_bind; intros ?
    | match goal with
      | |- returns _ (if ?b then _ else _) => destruct b
      end ].

Lemma bind_lift_Ok {A B} (a : A) (k : A → M B) (s : shown_t) :
  bind (lift (Ok a)) k s = k a s.
Proof. unfold bind, lift. by destruct (k a s) as [[s2 o2] r]. Qed.

Lemma bind_lift_Raise {A B} (e : exn) (k : A → M B) (s : shown_t) :
  bind (lift (Raise e)) k s = (s, [], Raise e).
Proof. reflexivity. Qed.

Lemma bind_shown_has {B} (t : key) (k : bool → M B) (s : shown_t) :
  bind (shown_has t) k s = k (bool_decide (is_Some (s !! t))) s.
Proof. unfold bind, shown_has. by destruct (k _ s) as [[s2 o2] r]. Qed.

Section SecondVisit.
Variable self : TypeDG.
Variable track_rec : option DIE → Z → bool → M unit.
Variable gen_decl_call : option DIE → option string → Result (option string).

(** Only a forward declaration asks for the state "declared". *)
Lemma track_kind_decl_only (die : DIE) (depth : Z) :
  returns (λ fall, fall ≠ Some true)
          (track_kind self track_rec gen_decl_call die depth false).
Proof.
  unfold track_kind, track_aggregate, track_enumeration_type.
  destruct (tag die); returns_step.
Qed.

(** The branches that return from inside [track]: nothing was written or
    printed before, and nothing of the recursive activations was used. *)
Lemma track_kind_returns_early (die : DIE) (depth : Z) (mode : bool)
    (s s' : shown_t) (o : list printed) :
  track_kind self track_rec gen_decl_call die depth mode s = (s', o, Ok None) →
  s' = s ∧ o = []
  ∧ ∀ track_rec' gen_decl_call' depth',
      track_kind self track_rec' gen_decl_call' die depth' mode s
      = (s, [], Ok None).
Proof.
  assert (Hnever : ∀ m : M (option bool),
            returns (λ fall, fall ≠ None) m → m s = (s', o, Ok None) → False).
  { intros m Hm E. by apply (Hm _ _ _ _ E). }
  unfold track_kind. destruct (tag die);
    try (intros E; exfalso; revert E; apply Hnever; returns_step; fail).
  - unfold track_enumeration_type.
    destruct (_get_die_name self die true) as [tagname|e];
      [|rewrite bind_lift_Raise; discriminate].
    rewrite bind_lift_Ok, bind_shown_has.
    destruct (bool_decide _) eqn:Hpresent.
    + intros [= <- <-]. do 2 (split; [reflexivity|]). intros.
      by rewrite bind_lift_Ok, bind_shown_has, Hpresent.
    + intros E; exfalso; revert E; apply Hnever; returns_step.
  - unfold track_aggregate. destruct mode.
    { intros E; exfalso; revert E; apply Hnever; returns_step. }
    destruct (DW_AT_declaration die); [by intros [= <- <-]|].
    destruct (_get_die_name self die true) as [tagname|e];
      [|rewrite bind_lift_Raise; discriminate].
    rewrite bind_lift_Ok, bind_shown_has.
    destruct (bool_decide _) eqn:Hpresent.
    + intros [= <- <-]. do 2 (split; [reflexivity|]). intros.
      by rewrite bind_lift_Ok, bind_shown_has, Hpresent.
    + intros E; exfalso; revert E; apply Hnever; returns_step.
  - unfold track_aggregate. destruct mode.
    { intros E; exfalso; revert E; apply Hnever; returns_step. }
    destruct (DW_AT_declaration die); [by intros [= <- <-]|].
    destruct (_get_die_name self die true) as [tagname|e];
      [|rewrite bind_lift_Raise; discriminate].
    rewrite bind_lift_Ok, bind_shown_has.
    destruct (bool_decide _) eqn:Hpresent.
    + intros [= <- <-]. do 2 (split; [reflexivity|]). intros.
      by rewrite bind_lift_Ok, bind_shown_has, Hpresent.
    + intros E; exfalso; revert E; apply Hnever; returns_step.
  - unfold track_aggregate. destruct mode.
    { intros E; exfalso; revert E; apply Hnever; returns_step. }
    destruct (DW_AT_declaration die); [by intros [= <- <-]|].
    destruct (_get_die_name self die true) as [tagname|e];
      [|rewrite bind_lift_Raise; discriminate].
    rewrite bind_lift_Ok, bind_shown_has.
    destruct (bool_decide _) eqn:Hpresent.
    + intros [= <- <-]. do 2 (split; [reflexivity|]). intros.
      by rewrite bind_lift_Ok, bind_shown_has, Hpresent.
    + intros E; exfalso; revert E; apply Hnever; returns_step.
Qed.
End SecondVisit.

(** X10. A visit that returned normally has nothing left to do: visiting the
    same entry again in the same mode, at any depth and with any recursion
    limit that admits one activation, prints nothing and leaves the
    dictionary as it is. *)
Theorem track_twice_is_silent (self : TypeDG) (n m : nat) (die : option DIE)
    (depth depth' : Z) (mode : bool) (s s' : shown_t) (o : list printed) :
  track self n die depth mode s = (s', o, Ok tt) →
  track self (S m) die depth' mode s' = (s', [], Ok tt).
Proof.
  destruct n as [|n]; [discriminate|]. rewrite !track_S.
  destruct die as [die|]; [|by intros [= <- _]].
  destruct (is_mark defined (s !! KDie die)
            || is_mark declared (s !! KDie die) && mode) eqn:Hknown.
  { rewrite track_body_settled by done. intros [= <- _].
    by apply track_body_settled. }
  apply orb_false_elim in Hknown as [Hdef Hdecl].
  rewrite track_body_visit by done. unfold bind.
  destruct (track_kind self (track self n) (gen_decl self n) die (depth + 1)
              mode s) as [[s1 o1] [[b|]|e]] eqn:Hkind; [| |discriminate].
  - assert (Hb : b = true → mode = true).
    { intros ->. destruct mode; [done|].
      by destruct (track_kind_decl_only _ _ _ _ _ _ _ _ _ Hkind). }
    unfold track_final.
    destruct b.
    + unfold bind, shown_get, shown_set, ret.
      destruct (is_mark defined (s1 !! KDie die)) eqn:Hnow.
      * intros [= <- _]. apply track_body_settled. by rewrite Hnow.
      * intros [= <- _]. apply track_body_settled.
        rewrite lookup_insert_eq, !is_mark_Some, Hb by done.
        by rewrite (bool_decide_eq_true_2 (declared = declared)), orb_true_r.
    + unfold shown_set. intros [= <- _]. apply track_body_settled.
      rewrite lookup_insert_eq, is_mark_Some.
      by rewrite bool_decide_eq_true_2.
  - destruct (track_kind_returns_early _ _ _ _ _ _ _ _ _ Hkind)
      as (-> & -> & Hagain).
    unfold ret. intros [= <- _].
    rewrite track_body_visit by done. unfold bind.
    by rewrite Hagain.
Qed.

Lemma track_twice_is_silent_witness :
  track Pointee.unit 100 (Some Pointee.t_ptr) 0 false
    (track Pointee.unit 100 (Some Pointee.t_ptr) 0 false ∅).1.1
  = ((track Pointee.unit 100 (Some Pointee.t_ptr) 0 false ∅).1.1, [], Ok tt).
Proof.
  eapply (track_twice_is_silent Pointee.unit 100 99 (Some Pointee.t_ptr) 0 0
            false ∅). vm_compute. reflexivity.
Defined.

(** ** Each tag name is defined at most once *)

Lemma silent_definitions (t : string) (out : list printed) :
  Forall (λ p, defined_tag p = None) out → definitions_of t out = [].
Proof.
  intros H. apply no_definitions. eapply Forall_impl; [exact H|].
  intros p ->. discriminate.
Qed.

Lemma definitions_of_app (t : string) (o1 o2 : list printed) :
  definitions_of t (o1 ++ o2) = definitions_of t o1 ++ definitions_of t o2.
Proof. apply filter_app. Qed.

Lemma once_keeps (X : option string → Prop) {A} (m : M A) :
  once X m → keeps X m.
Proof.
  intros Hm s. specialize (Hm s). destruct (m s) as [[s' o] r]. apply Hm.
Qed.

Lemma once_silent (X : option string → Prop) {A} (m : M A) :
  keeps X m → (∀ s, Forall (λ p, defined_tag p = None) (m s).1.2) →
  once X m.
Proof.
  intros Hm Hs s. specialize (Hm s). specialize (Hs s).
  destruct (m s) as [[s' o] r]. split; [exact Hm|]. intros t _.
  rewrite silent_definitions by exact Hs. split; [cbn; lia | done].
Qed.

Lemma once_weaken (X Y : option string → Prop) {A} (m : M A) :
  (∀ t, X t → Y t) → once X m → once Y m.
Proof.
  intros HXY Hm s. specialize (Hm s). destruct (m s) as [[s' o] r].
  destruct Hm as [He Hc]. split; [by eapply extends_weaken|].
  intros t Ht. apply Hc. intros HX. by apply Ht, HXY.
Qed.

Lemma extends_once (X : option string → Prop) (s0 s1 s2 : shown_t)
    (o1 o2 : list printed) (t : string) :
  ¬ X (Some t) →
  extends X s0 o1 s1 → extends X s1 o2 s2 →
  (length (definitions_of t o1) ≤ 1)%nat
  ∧ (definitions_of t o1 ≠ [] → is_Some (s1 !! KTag t)) →
  (length (definitions_of t o2) ≤ 1)%nat
  ∧ (definitions_of t o2 ≠ [] → is_Some (s2 !! KTag t)) →
  (length (definitions_of t (o1 ++ o2)) ≤ 1)%nat
  ∧ (definitions_of t (o1 ++ o2) ≠ [] → is_Some (s2 !! KTag t)).
Proof.
  intros HX _ (_ & Hd2 & Hn2) [Hc1 Hr1] [Hc2 Hr2].
  rewrite definitions_of_app.
  destruct (definitions_of t o1) as [|p ps] eqn:E1; [done|].
  assert (Hrec : is_Some (s1 !! KTag t)) by (by apply Hr1).
  rewrite (no_definitions t o2) by (by apply Hn2).
  rewrite app_nil_r. split; [exact Hc1|]. intros _. by apply Hd2.
Qed.

Section OnceRules.
Context (X : option string → Prop).

Lemma once_ret {A} (a : A) : once X (ret a).
Proof. apply once_silent; [apply keeps_ret | intros s; constructor]. Qed.

Lemma once_lift {A} (r : Result A) : once X (lift r).
Proof. apply once_silent; [apply keeps_lift | intros s; constructor]. Qed.

Lemma once_raise {A} (e : exn) : once X (raise e : M A).
Proof. apply once_silent; [apply keeps_raise | intros s; constructor]. Qed.

Lemma once_get (k : key) : once X (shown_get k).
Proof. apply once_silent; [apply keeps_get | intros s; constructor]. Qed.

Lemma once_has (k : key) : once X (shown_has k).
Proof. apply once_silent; [apply keeps_has | intros s; constructor]. Qed.

Lemma once_set_tag (t : option string) (v : mark) :
  once X (shown_set (inr t) v).
Proof. apply once_silent; [apply keeps_set_tag | intros s; constructor]. Qed.

Lemma once_set_defined (die : DIE) : once X (shown_set (KDie die) defined).
Proof.
  apply once_silent; [apply keeps_set_defined | intros s; constructor].
Qed.

Lemma once_final (die : DIE) (decl_only : bool) :
  once X (track_final die decl_only).
Proof.
  apply once_silent; [apply keeps_final|]. intros s.
  unfold track_final, bind, shown_get, shown_set, ret.
  destruct decl_only; [|constructor].
  destruct (is_mark defined (s !! KDie die)); constructor.
Qed.

Lemma once_reraise {A} (prefix : string) (e : exn) :
  once X (reraise prefix e : M A).
Proof. destruct e; apply once_raise. Qed.

Lemma once_print (p : printed) :
  (∀ t, defined_tag p = Some t → X t) → once X (print p).
Proof.
  intros Hp s. split; [by apply keeps_print|]. intros t Ht.
  unfold definitions_of. rewrite filter_cons_False; [by split; [cbn; lia|]|].
  intros E. by apply Ht, Hp.
Qed.

Lemma once_print_all (l : list printed) :
  Forall (λ p, defined_tag p = None) l → once X (print_all l).
Proof.
  intros Hl. apply once_silent; [by apply keeps_print_all|].
  intros s. by rewrite print_all_run.
Qed.

Lemma once_bind {A B} (m : M A) (k : A → M B) :
  once X m → (∀ a, once X (k a)) → once X (bind m k).
Proof.
  intros Hm Hk s. unfold bind. specialize (Hm s).
  destruct (m s) as [[s1 o1] [a|e]]; [|exact Hm].
  specialize (Hk a s1). destruct (k a s1) as [[s2 o2] r].
  destruct Hm as [He1 Hc1], Hk as [He2 Hc2].
  split; [by eapply extends_trans|]. intros t Ht.
  eapply extends_once; eauto.
Qed.

Lemma once_try_except {A} (m : M A) (h : exn → M A) :
  once X m → (∀ e, once X (h e)) → once X (try_except m h).
Proof.
  intros Hm Hh s. unfold try_except. specialize (Hm s).
  destruct (m s) as [[s1 o1] [a|e]]; [exact Hm|].
  specialize (Hh e s1). destruct (h e s1) as [[s2 o2] r].
  destruct Hm as [He1 Hc1], Hh as [He2 Hc2].
  split; [by eapply extends_trans|]. intros t Ht.
  eapply extends_once; eauto.
Qed.
End OnceRules.

Ltac once_step :=
  first
    [ apply once_ret | apply once_lift | apply once_raise
    | apply once_get | apply once_has | apply once_set_tag
    | apply once_set_defined | apply once_final | apply once_reraise
    | apply once_print; intros ?; first [discriminate | by intros [= <-]]
    | apply once_bind; [|intros ?]
    | apply once_try_except; [|intros ?] ].

Lemma upto_keeps (t0 : option string) {A} (m : M A) :
  keeps no_tag m → upto 0 t0 m.
Proof.
  intros Hm s Hrec. specialize (Hm s). destruct (m s) as [[s' o] r].
  destruct Hm as (_ & _ & Hn). cbn [fst snd].
  specialize (Hn t0 Hrec (λ H, H)).
  induction Hn as [|p o Hp Ho IH]; [done|].
  by rewrite filter_cons_False.
Qed.

Lemma upto_bind_keeps (c : nat) (t0 : option string) {A B}
    (m : M A) (k : A → M B) :
  keeps no_tag m → (∀ a, upto c t0 (k a)) → upto c t0 (bind m k).
Proof.
  intros Hm Hk s Hrec. pose proof (upto_keeps t0 m Hm s Hrec) as H0.
  specialize (Hm s). unfold bind. destruct (m s) as [[s1 o1] [a|e]].
  - destruct Hm as (_ & Hd & _). specialize (Hk a s1 (Hd _ Hrec)).
    destruct (k a s1) as [[s2 o2] r]. cbn [fst snd] in *.
    rewrite filter_app, length_app. lia.
  - cbn [fst snd] in *. lia.
Qed.

Lemma upto_print_then (t0 : option string) {B} (p : printed) (k : unit → M B) :
  (∀ a, keeps no_tag (k a)) → upto 1 t0 (bind (print p) k).
Proof.
  intros Hk s Hrec. pose proof (upto_keeps t0 (k tt) (Hk tt) s Hrec) as H0.
  unfold bind, print. destruct (k tt s) as [[s2 o2] r]. cbn [fst snd] in *.
  change ([p] ++ o2) with (p :: o2).
  destruct (decide (defined_tag p = Some t0)) as [E|NE].
  - rewrite filter_cons_True by done. cbn [length]. lia.
  - rewrite filter_cons_False by done. lia.
Qed.

(** The branch of a tag name that is not recorded yet records it first. *)
Lemma once_unless_recorded {A} (t0 : option string) (v : mark)
    (rest : M (option A)) :
  once (λ t', t' = t0) rest → upto 1 t0 rest →
  once no_tag (run present <- shown_has (inr t0);
               if present then ret None
               else exec shown_set (inr t0) v; rest).
Proof.
  intros Hrest Hup.
  assert (Hk : keeps no_tag (run present <- shown_has (inr t0);
                             if present then ret None
                             else exec shown_set (inr t0) v; rest)).
  { apply keeps_unless_recorded.
    apply keeps_bind; [apply keeps_set_tag | intros _; by apply once_keeps]. }
  intros s. specialize (Hk s). revert Hk. rewrite bind_shown_has.
  case_bool_decide as Hp.
  { intros _. split; [apply extends_refl|]. intros t _. by split; [cbn; lia|]. }
  unfold bind, shown_set.
  specialize (Hrest (<[inr t0 := v]> s)).
  specialize (Hup (<[inr t0 := v]> s)).
  destruct (rest (<[inr t0 := v]> s)) as [[s' o] r]. cbn [app fst snd] in *.
  intros He. split; [exact He|]. intros t _.
  destruct Hrest as [(_ & Hd & _) Hc].
  destruct (decide (Some t = t0)) as [<-|Hne]; [|by apply Hc].
  assert (Hrec : is_Some (<[inr (Some t) := v]> s !! (inr (Some t) : key)))
    by (rewrite lookup_insert_eq; eauto).
  split; [by apply Hup | intros _; by apply Hd].
Qed.

Section TrackOnce.
Variable self : TypeDG.
Variable track_rec : option DIE → Z → bool → M unit.
Variable gen_decl_call : option DIE → option string → Result (option string).
Hypothesis rec_once :
  ∀ die depth mode, once no_tag (track_rec die depth mode).

Lemma rec_once_any (X : option string → Prop) die depth mode :
  once X (track_rec die depth mode).
Proof. eapply once_weaken; [|apply rec_once]. intros t []. Qed.

Lemma rec_once_keeps die depth mode : keeps no_tag (track_rec die depth mode).
Proof. apply once_keeps, rec_once. Qed.

Lemma track_params_once (X : option string → Prop) (cs : list DIE) (depth : Z) :
  once X (track_params self track_rec cs depth).
Proof.
  induction cs as [|c cs IH]; [apply once_ret|]. cbn [track_params].
  destruct (tag c); try exact IH.
  apply once_bind; [|intros _; exact IH].
  apply once_try_except; [apply rec_once_any | intros e; apply once_reraise].
Qed.

Lemma member_failed_once (X : option string → Prop) {A}
    (mtype : option DIE) (mname : option string) (e : exn) :
  once X (member_failed mtype mname e : M A).
Proof. destruct e, mtype; apply once_raise. Qed.

Lemma track_member_once (X : option string → Prop) (child : DIE) (depth : Z) :
  once X (track_member self track_rec gen_decl_call child depth).
Proof.
  unfold track_member. destruct (tag child); try apply once_ret.
  destruct (DW_AT_data_member_location child); [|apply once_ret].
  repeat first [apply rec_once_any | apply member_failed_once | once_step].
Qed.

Lemma track_members_once (X : option string → Prop) (cs : list DIE) (depth : Z) :
  once X (track_members self track_rec gen_decl_call cs depth).
Proof.
  induction cs as [|c cs IH]; [apply once_ret|]. cbn [track_members].
  apply once_bind; [apply track_member_once|]. intros line.
  apply once_bind; [exact IH|]. intros lines. apply once_ret.
Qed.

Lemma members_silent (lines : list string) :
  Forall (λ p, defined_tag p = None) (map PMember lines).
Proof.
  apply Forall_forall. intros p Hp.
  apply list_elem_of_fmap in Hp as (line & -> & _). reflexivity.
Qed.

Lemma track_aggregate_once (die : DIE) (depth : Z) (mode : bool) :
  once no_tag (track_aggregate self track_rec gen_decl_call die depth mode).
Proof.
  unfold track_aggregate. destruct mode; [repeat once_step|].
  destruct (DW_AT_declaration die); [apply once_ret|].
  apply once_bind; [apply once_lift|]. intros tagname.
  apply once_unless_recorded.
  - repeat first [apply track_members_once | once_step].
    match goal with |- once _ (match ?l with _ => _ end) => destruct l end.
    + match goal with |- once _ (if ?b then _ else _) => destruct b end;
        once_step.
    + apply once_print_all, members_silent.
  - apply upto_bind_keeps; [apply keeps_set_defined|]. intros _.
    apply upto_bind_keeps; [apply keeps_lift|]. intros size.
    apply upto_bind_keeps;
      [apply track_members_keeps, rec_once_keeps|]. intros members.
    apply upto_bind_keeps; [repeat keeps_step|]. intros _.
    apply upto_bind_keeps; [apply keeps_lift|]. intros d.
    apply upto_bind_keeps; [apply keeps_lift|]. intros d0.
    apply upto_print_then. intros _.
    repeat keeps_step. destruct members as [|m ms].
    + destruct (0 <? size)%Z; keeps_step.
    + apply keeps_print_all, members_silent.
Qed.
Lemma track_enumeration_type_once (die : DIE) :
  once no_tag (track_enumeration_type self gen_decl_call die).
Proof.
  unfold track_enumeration_type.
  apply once_bind; [apply once_lift|]. intros tagname.
  apply once_unless_recorded.
  - repeat once_step.
  - apply upto_bind_keeps; [apply keeps_lift|]. intros members.
    apply upto_bind_keeps; [apply keeps_lift|]. intros d.
    apply upto_bind_keeps; [apply keeps_lift|]. intros d0.
    apply upto_print_then. intros _. repeat keeps_step.
Qed.

Lemma track_kind_once (die : DIE) (depth : Z) (mode : bool) :
  once no_tag (track_kind self track_rec gen_decl_call die depth mode).
Proof.
  unfold track_kind.
  destruct (tag die);
    first [ apply track_aggregate_once | apply track_enumeration_type_once
          | repeat first [apply rec_once_any | apply track_params_once
                         | once_step] ].
Qed.

Lemma track_body_once (die : option DIE) (depth : Z) (mode : bool) :
  once no_tag (track_body self track_rec gen_decl_call die depth mode).
Proof.
  unfold track_body. destruct die as [die|]; [|apply once_ret].
  apply once_bind; [apply once_get|]. intros is_known.
  destruct (is_mark defined is_known); [apply once_ret|].
  destruct (is_mark declared is_known && mode); [apply once_ret|].
  apply once_bind; [apply track_kind_once|].
  intros [decl_only|]; [apply once_final | apply once_ret].
Qed.
End TrackOnce.

Lemma track_once (self : TypeDG) (limit : nat) (die : option DIE)
    (depth : Z) (mode : bool) :
  once no_tag (track self limit die depth mode).
Proof.
  revert die depth mode. induction limit as [|limit IH]; intros die depth mode.
  - apply once_raise.
  - rewrite track_S. by apply track_body_once.
Qed.

Lemma track_calls_once (self : TypeDG) (calls : list call) (shown : shown_t)
    (t : string) :
  extends no_tag shown (track_calls self calls shown).2
          (track_calls self calls shown).1
  ∧ (length (definitions_of t (track_calls self calls shown).2) ≤ 1)%nat
  ∧ (definitions_of t (track_calls self calls shown).2 ≠ [] →
     is_Some ((track_calls self calls shown).1 !! KTag t)).
Proof.
  revert shown. induction calls as [|c calls IH]; intros shown.
  - split; [apply extends_refl|]. by split; [cbn; lia|].
  - cbn [track_calls].
    pose proof (track_once self (call_limit c) (call_die c) (call_depth c)
                  (call_mode c) shown) as Hc.
    destruct (track self _ _ _ _ shown) as [[s1 o1] r1].
    specialize (IH s1). destruct (track_calls self calls s1) as [s2 o2].
    cbn [fst snd] in *. destruct Hc as [He1 Hc1], IH as [He2 Hc2].
    split; [by eapply extends_trans|].
    eapply (extends_once no_tag); eauto.
Qed.

(** X11. Whatever calls of [track] are made on one dictionary, on whatever
    entries, raising or not, their output holds at most one full definition
    (structure, class, union or enumeration) of each tag name, and the
    dictionary records the tag name of every definition printed. *)
Theorem tag_defined_at_most_once (self : TypeDG) (calls : list call)
    (shown : shown_t) (t : string) :
  (length (definitions_of t (track_calls self calls shown).2) ≤ 1)%nat
  ∧ (definitions_of t (track_calls self calls shown).2 ≠ [] →
     shown !! KTag t = None
     ∧ is_Some ((track_calls self calls shown).1 !! KTag t)).
Proof.
  destruct (track_calls_once self calls shown t) as ((_ & _ & Hn) & Hc & Hr).
  split; [exact Hc|]. intros Hdef. split; [|by apply Hr].
  destruct (shown !! KTag t) as [v|] eqn:E; [|reflexivity]. destruct Hdef.
  apply no_definitions, Hn; [exists v; exact E | intros []].
Qed.

(** ** The driver *)

Lemma explain_dies_once (self : TypeDG) (limit : nat) (name : string)
    (dies : list DIE) :
  once no_tag (explain_dies self limit name dies).
Proof.
  induction dies as [|die dies IH]; [apply once_ret|]. cbn [explain_dies].
  apply once_bind; [|intros _; exact IH].
  apply once_try_except; [apply track_once|]. intros e.
  destruct e; first [apply once_raise | by apply once_print].
Qed.

Lemma explain_names_once (self : TypeDG) (limit : nat)
    (filter : option (string → list DIE → shown_t → list DIE))
    (items : list (string * list DIE)) :
  once no_tag (explain_names self limit filter items).
Proof.
  induction items as [|[name dies] items IH]; [apply once_ret|].
  cbn [explain_names]. apply once_bind; [|intros _; exact IH].
  intros s. apply explain_dies_once.
Qed.

Section WalkOutput.
Variable self : TypeDG.

Lemma walk_children_silent (walk_rec : DIE → name_index → walked)
    (cs : list DIE) :
  (∀ c names, Forall (λ p, defined_tag p = None) (walk_rec c names).1.2) →
  ∀ names,
    Forall (λ p, defined_tag p = None) (walk_children walk_rec cs names).1.2.
Proof.
  intros Hrec. induction cs as [|c cs IH]; intros names; [constructor|].
  cbn [walk_children]. specialize (Hrec c names).
  destruct (walk_rec c names) as [[[n1 y1] p1] [e|]]; [exact Hrec|].
  specialize (IH n1). destruct (walk_children walk_rec cs n1) as [[[n2 y2] p2] r].
  cbn [fst snd] in *. by apply Forall_app.
Qed.

Lemma walk_silent (limit : nat) (die : DIE) (names : name_index) :
  Forall (λ p, defined_tag p = None) (walk self limit die names).1.2.
Proof.
  revert die names. induction limit as [|limit IH]; intros die names;
    [constructor|].
  rewrite walk_S. unfold walk_body.
  assert (Hd : ∀ names,
    Forall (λ p, defined_tag p = None)
      (match walk_children (walk self limit) (children die) names with
       | (n, ys, ps, r) => (n, (offset die - cu_offset self, die) :: ys, ps, r)
       end).1.2).
  { intros names'.
    pose proof (walk_children_silent (walk self limit) (children die) IH names')
      as H.
    by destruct (walk_children (walk self limit) (children die) names')
      as [[[n ys] ps] r]. }
  destruct (TAGS_for_types (tag die)); [|apply Hd].
  destruct (_get_die_name self die false) as [given|[]];
    first [apply Hd | by repeat constructor].
Qed.
End WalkOutput.

Lemma init_silent (limit : nat) (CU : CompileUnit) :
  Forall (λ p, defined_tag p = None) (__init__ limit CU).1.
Proof.
  unfold __init__. destruct (DW_AT_language _); [|constructor].
  destruct (negb _); [constructor|].
  destruct (CU_line_program CU) as [file_entry|]; [|constructor].
  destruct (decode_all file_entry) as [file_names|e]; [|constructor].
  match goal with |- context [walk ?s limit ?d ?n] =>
    pose proof (walk_silent s limit d n) as Hw;
    destruct (walk s limit d n) as [[[n1 y1] p1] [e|]] end; exact Hw.
Qed.

Lemma construct_once (limit : nat) (CU : CompileUnit) :
  once no_tag (construct limit CU).
Proof.
  pose proof (init_silent limit CU) as Hs.
  apply once_silent.
  - intros s. unfold construct. destruct (__init__ limit CU) as [out r].
    repeat split; [done|done|]. intros t _ _.
    eapply Forall_impl; [exact Hs|]. by intros p ->.
  - intros s. unfold construct. by destruct (__init__ limit CU) as [out r].
Qed.

Lemma explain_units_once (limit : nat)
    (filter : option (string → list DIE → shown_t → list DIE))
    (CUs : list CompileUnit) :
  once no_tag (explain_units limit filter CUs).
Proof.
  induction CUs as [|CU CUs IH]; [apply once_ret|]. cbn [explain_units].
  apply once_bind; [apply construct_once|]. intros dg.
  apply once_bind; [|intros _; exact IH].
  intros s. apply explain_names_once.
Qed.

(** X12. The output of the program over all units of a file holds at most one
    full definition of each tag name, in whatever order a filter hands the
    entries of a name to [explain]; a tag name that the dictionary records
    at the start gets none. *)
Theorem program_defines_each_tag_once (limit : nat)
    (filter : option (string → list DIE → shown_t → list DIE))
    (CUs : list CompileUnit) (shown : shown_t) (t : string) :
  (length (definitions_of t (explain_units limit filter CUs shown).1.2) ≤ 1)%nat
  ∧ (is_Some (shown !! KTag t) →
     definitions_of t (explain_units limit filter CUs shown).1.2 = []).
Proof.
  pose proof (explain_units_once limit filter CUs shown) as H.
  destruct (explain_units limit filter CUs shown) as [[s' o] r].
  cbn [fst snd]. destruct H as [(_ & _ & Hn) Hc].
  split; [exact (proj1 (Hc t (λ H, H)))|]. intros Hrec.
  apply no_definitions, Hn; [exact Hrec | intros []].
Qed.

Lemma program_defines_each_tag_once_witness :
  (main 100 [TwoUnits.a; TwoUnits.b]).1.2
  = [PLocation "a.c:1"; PAggregate (Some "node") "struct node" 4;
     PMember (TAB +:+ "int val;" +:+ TAB +:+ "/* +0x0 */"); PClose]
  ∧ (length (definitions_of "node"
               (main 100 [TwoUnits.a; TwoUnits.b]).1.2) ≤ 1)%nat
  ∧ definitions_of "node"
      (explain_units 100 (Some main_filter) [TwoUnits.b]
         (main 100 [TwoUnits.a]).1.1).1.2 = [].
Proof.
  split; [vm_compute; reflexivity|]. split.
  - exact (proj1 (program_defines_each_tag_once 100 (Some main_filter)
                    [TwoUnits.a; TwoUnits.b] ∅ "node")).
  - apply (program_defines_each_tag_once 100 (Some main_filter)
             [TwoUnits.b] (main 100 [TwoUnits.a]).1.1 "node").
    vm_compute. eauto.
Defined.

Lemma tag_defined_at_most_once_witness :
  definitions_of "node"
    (track_calls Twins.unit [mkCall 3 (Some Twins.node_a) 0 false;
                             mkCall 3 (Some Twins.node_b) 0 false] ∅).2
  = [PAggregate (Some "node") "struct node" 4]
  ∧ is_Some ((track_calls Twins.unit
                [mkCall 3 (Some Twins.node_a) 0 false;
                 mkCall 3 (Some Twins.node_b) 0 false] ∅).1 !! KTag "node").
Proof.
  split; [vm_compute; reflexivity|].
  apply (tag_defined_at_most_once Twins.unit
           [mkCall 3 (Some Twins.node_a) 0 false;
            mkCall 3 (Some Twins.node_b) 0 false] ∅ "node").
  vm_compute. discriminate.
Defined.

(** ** What the driver lets through *)

Lemma explain_dies_catches (self : TypeDG) (limit : nat) (name : string)
    (dies : list DIE) (s : shown_t) (msg : string) :
  (explain_dies self limit name dies s).2 ≠ Raise (ParseError msg).
Proof.
  revert s. induction dies as [|die dies IH]; intros s; [discriminate|].
  cbn [explain_dies]. unfold bind, try_except.
  destruct (track self limit (Some die) 0 false s) as [[s1 o1] [[]|e]].
  - specialize (IH s1). by destruct (explain_dies self limit name dies s1)
      as [[s2 o2] r].
  - destruct e; try discriminate.
    unfold report, print. specialize (IH s1).
    by destruct (explain_dies self limit name dies s1) as [[s2 o2] r].
Qed.

Lemma explain_names_catches (self : TypeDG) (limit : nat)
    (filter : option (string → list DIE → shown_t → list DIE))
    (items : list (string * list DIE)) (s : shown_t) (msg : string) :
  (explain_names self limit filter items s).2 ≠ Raise (ParseError msg).
Proof.
  revert s. induction items as [|[name dies] items IH]; intros s;
    [discriminate|].
  cbn [explain_names]. unfold bind.
  match goal with |- context [explain_dies self limit name ?ds s] =>
    pose proof (explain_dies_catches self limit name ds s msg) as Hd;
    destruct (explain_dies self limit name ds s) as [[s1 o1] [[]|e]] end.
  - specialize (IH s1). by destruct (explain_names self limit filter items s1)
      as [[s2 o2] r].
  - exact Hd.
Qed.

(** X13. No [ParseError] leaves [explain] called without filter or with the
    filter of the program, whatever the unit and the dictionary, and none
    leaves the loop of the program over the units: an exception that leaves
    the constructor is the [KeyError] for a unit without [DW_AT_language],
    the [TypeError] for a unit without line program, the
    [UnicodeDecodeError] for a name that does not decode, or the
    [RecursionError] for a tree deeper than the nesting granted. *)
Theorem parse_errors_do_not_escape (limit : nat)
    (filter : option (string → list DIE → shown_t → list DIE))
    (msg : string) :
  filter = None ∨ filter = Some main_filter →
  (∀ self shown, (explain self limit filter shown).2 ≠ Raise (ParseError msg))
  ∧ (∀ CU out e, __init__ limit CU = (out, Raise e) → constructor_exn e)
  ∧ (∀ CUs shown,
       (explain_units limit filter CUs shown).2 ≠ Raise (ParseError msg)).
Proof.
  intros _. split; [|split].
  - intros self shown. apply explain_names_catches.
  - apply init_raises.
  - intros CUs. induction CUs as [|CU CUs IH]; intros s; [discriminate|].
    cbn [explain_units]. unfold bind, construct.
    destruct (__init__ limit CU) as [out [dg|e]] eqn:E.
    + change (explain dg limit filter (Some s))
        with (explain_names dg limit filter (named_types dg) s).
      pose proof (explain_names_catches dg limit filter (named_types dg) s msg)
        as Hd.
      destruct (explain_names dg limit filter (named_types dg) s)
        as [[s1 o1] [[]|e]]; [|exact Hd].
      specialize (IH s1).
      by destruct (explain_units limit filter CUs s1) as [[s2 o2] r].
    + apply init_raises in E. by destruct e.
Qed.

Lemma parse_errors_do_not_escape_witness :
  __init__ 100 Latin1.structure = ([], Raise UnicodeDecodeError)
  ∧ constructor_exn UnicodeDecodeError
  ∧ main 100 [Latin1.base]
    = (<[KDie Latin1.t_word := defined]> ∅, [PLocation "word.c:3"],
       Raise UnicodeDecodeError)
  ∧ (main 100 [Latin1.base]).2 ≠ Raise (ParseError "").
Proof.
  destruct (parse_errors_do_not_escape 100 (Some main_filter) "")
    as (_ & Hinit & Hmain); [by right|].
  split; [vm_compute; reflexivity|].
  split; [apply (Hinit Latin1.structure []); vm_compute; reflexivity|].
  split; [vm_compute; reflexivity|].
  apply (Hmain [Latin1.base] ∅).
Defined.

(** ** Aggregates without placed members *)

Lemma track_members_unplaced (self : TypeDG)
    (track_rec : option DIE → Z → bool → M unit)
    (gen_decl_call : option DIE → option string → Result (option string))
    (cs : list DIE) (depth : Z) (shown : shown_t) :
  Forall unplaced cs →
  track_members self track_rec gen_decl_call cs depth shown
  = (shown, [], Ok []).
Proof.
  induction 1 as [|c cs Hc Hcs IH]; [reflexivity|]. cbn [track_members].
  assert (E : track_member self track_rec gen_decl_call c depth = ret None).
  { unfold track_member. destruct Hc as [Hc|Hc].
    - by destruct (tag c).
    - rewrite Hc. by destruct (tag c). }
  rewrite E. unfold bind, ret. by rewrite IH.
Qed.

(** X14. A structure, class or union none of whose children is a member with a
    location is printed with one filler [char dummy[size]] when its size is
    positive, and with an empty body otherwise; in both cases the entry and
    its tag name are recorded. *)
Theorem aggregate_without_members_is_padded (self : TypeDG) (n : nat)
    (aggregate : DIE) (stem tagname : string) (size depth : Z)
    (shown : shown_t) :
  is_aggregate (tag aggregate) = true →
  TAGS_for_types (tag aggregate) = Some (Some stem) →
  _get_die_name self aggregate true = Ok (Some tagname) →
  DW_AT_declaration aggregate = false →
  DW_AT_byte_size aggregate = Some size →
  Forall unplaced (children aggregate) →
  state_of shown aggregate ≠ DEFINED →
  shown !! KTag tagname = None →
  track self (S (S n)) (Some aggregate) depth false shown
  = (<[KDie aggregate := defined]>
       (<[KTag tagname := owner (offset aggregate)]> shown),
     [PLocation (src_location self aggregate);
      PAggregate (Some tagname) (stem +:+ " " +:+ tagname) size]
     ++ (if (0 <? size)%Z then [PDummy size] else []) ++ [PClose],
     Ok tt).
Proof.
  intros Hagg Hstem Hname Hfull Hsize Hcs Hnot Hfree.
  rewrite (track_marks_before_members self aggregate stem tagname Hagg Hstem
             Hname n size depth shown
             (<[KDie aggregate := defined]>
                (<[KTag tagname := owner (offset aggregate)]> shown))
             [] [] Hfull Hsize Hnot Hfree).
  - by rewrite insert_insert_eq.
  - by apply track_members_unplaced.
Qed.

Lemma aggregate_without_members_is_padded_witness :
  track Blob.unit 2 (Some Blob.t_blob) 0 false ∅
  = (<[KDie Blob.t_blob := defined]> (<[KTag "blob" := owner 18]> ∅),
     [PLocation "blob.c:4"; PAggregate (Some "blob") "struct blob" 8;
      PDummy 8; PClose],
     Ok tt)
  ∧ track Blob.unit 2 (Some Blob.t_none) 0 false ∅
    = (<[KDie Blob.t_none := defined]> (<[KTag "anon_union_0_20" := owner 32]> ∅),
       [PLocation "_nowhere_"; PAggregate (Some "anon_union_0_20")
                                 "union anon_union_0_20" 0; PClose],
       Ok tt).
Proof.
  split.
  - apply (aggregate_without_members_is_padded Blob.unit 0 Blob.t_blob
             "struct" "blob" 8 0 ∅); try reflexivity; try discriminate.
    apply Forall_singleton. by right.
  - apply (aggregate_without_members_is_padded Blob.unit 0 Blob.t_none
             "union" "anon_union_0_20" 0 0 ∅);
      try reflexivity; try discriminate.
    constructor.
Defined.
